(** * Memory spiral: a shallow embedding of MEMORY_SPIRAL_CODE.py

    The numeric core of the spiral animation (spiral sampling, tangent
    angles, the temporal reveal curve, the one-sided bulge and the
    per-frame composition policy) is embedded as Rocq functions.

    Number model.  Python [float] values are modelled as rationals [Q]
    with exact arithmetic: every finite double is a rational, and the
    properties studied here are the ones of the curve the code computes,
    not of its rounding.  Python [int] values are [Z].  The functions of
    the [math] module are not part of the repository; they form the
    interface [Libm] below and their few laws used by the proofs are
    collected in [LibmLaws].

    Failures.  List indexing and [max] of a list can raise; such code
    returns an [outcome].  Every division of the source has a non-zero
    literal divisor or stands under a test of its divisor, so division
    is the total division of [Q].  The [while] loop of the spiral
    builder is bounded by fuel, and its termination is proved. *)

From Stdlib Require Import Ascii String.
From Stdlib Require Import QArith Qabs Qround ZArith List Bool Lia Lqa Psatz.
From Stdlib Require Import Sorted.
Import ListNotations.

Local Open Scope Q_scope.

(** ** Python primitives *)

Module Py.

(** [x < y] on floats. *)
Definition ltb (x y : Q) : bool := negb (Qle_bool y x).
(** [x <= y] on floats. *)
Definition leb (x y : Q) : bool := Qle_bool x y.
(** [x > y] and [x >= y] on floats. *)
Definition gtb (x y : Q) : bool := ltb y x.
Definition geb (x y : Q) : bool := leb y x.
(** [x == y] on floats; [x != y] is its negation. *)
Definition eqb (x y : Q) : bool := Qeq_bool x y.

(** [max(x, y)]: the first argument is kept unless the second is
    strictly greater. *)
Definition max (x y : Q) : Q := if ltb x y then y else x.
(** [min(x, y)]: the first argument is kept unless the second is
    strictly smaller. *)
Definition min (x y : Q) : Q := if ltb y x then y else x.

(** [float(n)] for an int [n]. *)
Definition float (n : Z) : Q := inject_Z n.

(** [int(x)] for a float [x]: truncation toward zero. *)
Definition int (x : Q) : Z := Z.quot (Qnum x) (Zpos (Qden x)).

(** [round(x)] with one argument: nearest integer, ties to even. *)
Definition round (x : Q) : Z :=
  let f := Qfloor x in
  let r := x - inject_Z f in
  if ltb r (1#2) then f
  else if ltb (1#2) r then (f + 1)%Z
  else if Z.even f then f else (f + 1)%Z.

(** [abs(x)]. *)
Definition abs (x : Q) : Q := if ltb x 0 then - x else x.

(** [x or y] on floats: [0.0] is the only falsy float. *)
Definition or_else (x y : Q) : Q := if eqb x 0 then y else x.

End Py.

(** ** Configuration constants *)

Definition CANVAS_SIZE : Z := 800.
Definition MARGIN : Z := 40.

Definition FPS : Z := 30.
Definition DURATION_S : Q := 5.
Definition NUM_FRAMES : Z := Py.int (Py.float FPS * DURATION_S).
Definition FRAME_DURATION_MS : Z := Py.int (1000 / Py.float FPS).

Definition INITIAL_RADIUS : Q := 0.
Definition COIL_SPACING : Q := 3.
Definition CHAR_SPACING : Q := 1.

Definition SLOW_CHARS_NOMINAL : Z := 150.
Definition SLOW_DURATION : Q := 1.5.

Definition BULGE_AMP : Q := 0.4.
Definition BULGE_SIGMA : Q := 0.04.

Definition ANOMALY_COLOR_WIDTH : Q := BULGE_SIGMA * 2.2.

Definition rgba : Type := (Z * Z * Z * Z)%type.
Definition TEXT_COLOR : rgba := (0, 0, 0, 255)%Z.
Definition ANOMALY_COLOR : rgba := (255, 0, 0, 255)%Z.

(** ** Temporal mapping (slowdown) *)

Definition chars_revealed_at_time_with
    (t : Q) (num_chars : Z) (anomaly_frac : Q)
    (slow_chars_nominal : Z) (slow_duration : Q) : Q :=
  let D := DURATION_S in
  let N := num_chars in
  if (N <=? 0)%Z then 0
  else if (N =? 1)%Z then (if Py.geb t 0 then 1 else 0)
  else
    let a := Py.max 0 (Py.min 1 anomaly_frac) in
    (* text space window *)
    let i0 := a * Py.float (N - 1) in
    let W_chars := Py.min (Py.float slow_chars_nominal) (Py.float N) in
    let halfW := W_chars / 2 in
    let i1 := Py.max 0 (i0 - halfW) in
    let i2 := Py.min (Py.float N) (i0 + halfW) in
    let W_eff := Py.max 1 (i2 - i1) in
    (* time window *)
    let t_center := a * D in
    let half_T := slow_duration / 2 in
    let t1 := Py.max 0 (t_center - half_T) in
    let t2 := Py.min D (t_center + half_T) in
    if Py.leb t2 t1 then Py.float N * Py.min 1 (Py.max 0 (t / D))
    else
      let slow_slope := W_eff / (t2 - t1) in
      let pre_slope := if Py.gtb t1 0 then i1 / t1 else 0 in
      let post_slope := if Py.gtb D t2 then (Py.float N - i2) / (D - t2) else 0 in
      let C :=
        if Py.leb t 0 then 0
        else if Py.ltb t t1 then pre_slope * t
        else if Py.leb t t2 then i1 + slow_slope * (t - t1)
        else if Py.ltb t D then i2 + post_slope * (t - t2)
        else Py.float N in
      Py.max 0 (Py.min (Py.float N) C).

(** The function with its default keyword arguments. *)
Definition chars_revealed_at_time (t : Q) (num_chars : Z) (anomaly_frac : Q) : Q :=
  chars_revealed_at_time_with t num_chars anomaly_frac
    SLOW_CHARS_NOMINAL SLOW_DURATION.


(** ** Outcomes of fallible code

    A Python call either returns, raises, or (for the fuel-bounded model
    of a [while] loop) has not finished within the given fuel. *)

Inductive exn : Type := IndexError | ValueError.

Inductive outcome (A : Type) : Type :=
| Returns (a : A)
| Raises (e : exn)
| OutOfFuel.

Arguments Returns {A} a.
Arguments Raises {A} e.
Arguments OutOfFuel {A}.

Definition bind {A B : Type} (m : outcome A) (k : A -> outcome B) : outcome B :=
  match m with
  | Returns a => k a
  | Raises e => Raises e
  | OutOfFuel => OutOfFuel
  end.

Declare Scope outcome_scope.
Delimit Scope outcome_scope with outcome.
Notation "x <- m ;; k" := (bind m (fun x => k))
  (at level 61, m at next level, right associativity) : outcome_scope.
Notation "' pat <- m ;; k" := (bind m (fun x => match x with pat => k end))
  (at level 61, pat pattern, m at next level, right associativity) : outcome_scope.
Local Open Scope outcome_scope.

(** [l[i]] for an index [i >= 0]. *)
Definition index {A : Type} (l : list A) (i : nat) : outcome A :=
  match nth_error l i with
  | Some x => Returns x
  | None => Raises IndexError
  end.

(** [l[i] = v] for an index [i >= 0]. *)
Fixpoint store {A : Type} (l : list A) (i : nat) (v : A) : outcome (list A) :=
  match l, i with
  | [], _ => Raises IndexError
  | _ :: l', O => Returns (v :: l')
  | x :: l', S i' => l'' <- store l' i' v ;; Returns (x :: l'')
  end.

(** [for x in xs: s = body(x, s)], stopping at the first exception. *)
Fixpoint for_each {A S : Type} (xs : list A) (body : A -> S -> outcome S) (s : S)
  : outcome S :=
  match xs with
  | [] => Returns s
  | x :: xs' => s' <- body x s ;; for_each xs' body s'
  end.

(** [range(n)] for an int [n]. *)
Definition range (n : Z) : list nat := seq 0 (Z.to_nat n).

(** ** The runtime interface

    [math.cos], [math.sin], [math.exp], [math.hypot], [math.atan2] and the
    [float(str)] parser belong to the Python runtime. *)

Class Libm : Type := {
  cos : Q -> Q;
  sin : Q -> Q;
  exp : Q -> Q;
  hypot : Q -> Q -> Q;
  atan2 : Q -> Q -> Q;
  (** [float(s)]; [None] stands for the [ValueError] of an unparseable
      string. *)
  float_of_str : string -> option Q
}.

(** The laws of the [math] functions that the proofs rely on. *)
Class LibmLaws (M : Libm) : Prop := {
  cos_sin_unit : forall x, cos x * cos x + sin x * sin x == 1;
  hypot_dominates_fst : forall x y, Qabs x <= hypot x y;
  hypot_dominates_snd : forall x y, Qabs y <= hypot x y;
  exp_nonneg : forall x, 0 <= exp x;
  exp_below_one : forall x, x < 0 -> exp x < 1
}.

(** [math.pi]: the double nearest to pi, as an exact rational. *)
Definition math_pi : Q := 884279719003555 # 281474976710656.

(** [math.degrees(x)]. *)
Definition degrees (x : Q) : Q := x * (180 / math_pi).

(** A rational stand-in for the runtime: [cos] and [sin] by the
    half-angle parametrisation of the unit circle, [exp] by its first
    Pade approximant on the negative axis, [hypot] by the larger
    coordinate, [atan2] by the slope, and a parser for unsigned decimal
    integers. *)
Fixpoint parse_digits (s : string) (acc : Z) : option Z :=
  match s with
  | EmptyString => Some acc
  | String c s' =>
      let n := Z.of_nat (nat_of_ascii c) in
      if ((48 <=? n) && (n <=? 57))%Z
      then parse_digits s' (10 * acc + (n - 48))%Z
      else None
  end.

Definition rational_libm : Libm := {|
  cos := fun x => let u := x / 2 in (1 - u * u) / (1 + u * u);
  sin := fun x => let u := x / 2 in (2 * u) / (1 + u * u);
  exp := fun x => if Py.ltb x 0 then 1 / (1 - x) else 1 + x;
  hypot := fun x y => Py.max (Py.abs x) (Py.abs y);
  atan2 := fun y x => if Py.eqb x 0 then 0 else y / x;
  float_of_str := fun s =>
    match s with
    | EmptyString => None
    | _ => option_map inject_Z (parse_digits s 0)
    end
|}.

Section Core.

Context {M : Libm}.

(** ** Spiral positions *)

Definition point : Type := (Q * Q * Q)%type.

(** The inner [while accumulated_length >= target_length and
    len(points) < num_chars] loop.  [room] is [num_chars - len(points)],
    so [room = 0] is the failure of the second conjunct. *)
Fixpoint place_chars (room : nat) (points : list point) (target_length : Q)
    (accumulated_length ds dx dy last_x last_y theta char_spacing : Q)
  : list point * Q :=
  match room with
  | O => (points, target_length)
  | S room' =>
      if Py.geb accumulated_length target_length then
        let excess := accumulated_length - target_length in
        let t := if negb (Py.eqb ds 0) then 1 - excess / ds else 0 in
        let px := last_x + t * dx in
        let py := last_y + t * dy in
        place_chars room' (points ++ [(px, py, theta)])
          (target_length + char_spacing)
          accumulated_length ds dx dy last_x last_y theta char_spacing
      else (points, target_length)
  end.

Record spiral_state : Type := {
  points : list point;
  theta : Q;
  last_x : Q;
  last_y : Q;
  accumulated_length : Q;
  target_length : Q
}.

Definition step_theta : Q := 0.02.

(** One pass through the body of the outer [while]. *)
Definition spiral_step (num_chars : Z) (a b char_spacing : Q) (st : spiral_state)
  : spiral_state :=
  let theta := theta st + step_theta in
  let r := a + b * theta in
  let x := r * cos theta in
  let y := r * sin theta in
  let dx := x - last_x st in
  let dy := y - last_y st in
  let ds := hypot dx dy in
  let accumulated_length := accumulated_length st + ds in
  let '(points, target_length) :=
    place_chars (Z.to_nat (num_chars - Z.of_nat (length (points st))))
      (points st) (target_length st)
      accumulated_length ds dx dy (last_x st) (last_y st) theta char_spacing in
  {| points := points; theta := theta; last_x := x; last_y := y;
     accumulated_length := accumulated_length; target_length := target_length |}.

(** The outer [while len(points) < num_chars] loop, bounded by [fuel]. *)
Fixpoint spiral_loop (fuel : nat) (num_chars : Z) (a b char_spacing : Q)
    (st : spiral_state) : outcome (list point) :=
  if (Z.of_nat (length (points st)) <? num_chars)%Z then
    match fuel with
    | O => OutOfFuel
    | S fuel' =>
        spiral_loop fuel' num_chars a b char_spacing
          (spiral_step num_chars a b char_spacing st)
    end
  else Returns (points st).

Definition spiral_init (a b : Q) : spiral_state :=
  let theta := 0 in
  let r := a + b * theta in
  let x := r * cos theta in
  let y := r * sin theta in
  {| points := []; theta := theta; last_x := x; last_y := y;
     accumulated_length := 0; target_length := 0 |}.

Definition generate_spiral_positions_with (fuel : nat) (num_chars : Z)
    (char_spacing initial_radius coil_spacing : Q) : outcome (list point) :=
  let a := initial_radius in
  let b := coil_spacing / (2 * math_pi) in
  spiral_loop fuel num_chars a b char_spacing (spiral_init a b).

Definition generate_spiral_positions (fuel : nat) (num_chars : Z)
  : outcome (list point) :=
  generate_spiral_positions_with fuel num_chars
    CHAR_SPACING INITIAL_RADIUS COIL_SPACING.

(** ** Tangent angles *)

Definition compute_tangent_angles (points : list point) : outcome (list Q) :=
  let n := length points in
  for_each (seq 0 n)
    (fun i angles_deg =>
       '(p1, p2) <-
         (if (i =? 0)%nat then
            p1 <- index points i ;; p2 <- index points (i + 1) ;; Returns (p1, p2)
          else if (i =? n - 1)%nat then
            p1 <- index points (i - 1) ;; p2 <- index points i ;; Returns (p1, p2)
          else
            p1 <- index points (i - 1) ;; p2 <- index points (i + 1) ;;
            Returns (p1, p2)) ;;
       let '(x1, y1, _) := p1 in
       let '(x2, y2, _) := p2 in
       let dx := x2 - x1 in
       let dy := y2 - y1 in
       let angle_rad := atan2 dy dx in
       Returns (angles_deg ++ [degrees angle_rad]))
    [].

(** ** One-sided bulge *)

(** The body of the first loop: the raw delta of character [i]. *)
Definition raw_delta (num_chars : Z) (a : Q) (i : nat) : Q :=
  let t_char := Py.float (Z.of_nat i) / Py.float (num_chars - 1) in
  if Py.leb t_char a then 0
  else
    let d := (t_char - a) / Py.max 1e-9 BULGE_SIGMA in
    BULGE_AMP * (1 - exp (- 0.5 * d * d)).

(** The second loop: running maximum, starting from [0.0]. *)
Fixpoint enforce_monotonic (deltas_raw : list Q) (max_so_far : Q) (deltas : list Q)
  : list Q :=
  match deltas_raw with
  | [] => deltas
  | d :: rest =>
      let max_so_far := if Py.gtb d max_so_far then d else max_so_far in
      enforce_monotonic rest max_so_far (deltas ++ [max_so_far])
  end.

Definition compute_bulge_deltas (num_chars : Z) (anomaly_frac : Q)
  : outcome (list Q) :=
  if (num_chars <=? 0)%Z then Returns []
  else if (num_chars =? 1)%Z then Returns [0]
  else
    let a := Py.max 0 (Py.min 1 anomaly_frac) in
    let deltas_raw := repeat 0 (Z.to_nat num_chars) in
    deltas_raw <-
      for_each (range num_chars)
        (fun i deltas_raw => store deltas_raw i (raw_delta num_chars a i))
        deltas_raw ;;
    Returns (enforce_monotonic deltas_raw 0 []).

(** ** Text preparation

    A text is a Python [str]; its characters are modelled by [ascii]
    (code points below 256). *)

(** [str.isspace] on one character, for code points below 256. *)
Definition is_space (c : ascii) : bool :=
  let n := nat_of_ascii c in
  ((9 <=? n) && (n <=? 13) || (28 <=? n) && (n <=? 32)
   || (n =? 133) || (n =? 160))%nat.

Definition CR : ascii := ascii_of_nat 13.
Definition LF : ascii := ascii_of_nat 10.
Definition SPACE : ascii := " "%char.

(** [text.replace(old, new)] for one-character strings. *)
Definition replace (old new : ascii) (text : list ascii) : list ascii :=
  map (fun c => if Ascii.eqb c old then new else c) text.

(** [text.split()]: maximal runs of non-whitespace characters. *)
Fixpoint split (text : list ascii) (word : list ascii) : list (list ascii) :=
  match text with
  | [] => match word with [] => [] | _ => [word] end
  | c :: text' =>
      if is_space c then
        match word with
        | [] => split text' []
        | _ => word :: split text' []
        end
      else split text' (word ++ [c])
  end.

(** [sep.join(words)]. *)
Fixpoint join (sep : list ascii) (words : list (list ascii)) : list ascii :=
  match words with
  | [] => []
  | [w] => w
  | w :: words' => w ++ sep ++ join sep words'
  end.

(** [text.strip()]. *)
Fixpoint lstrip (text : list ascii) : list ascii :=
  match text with
  | [] => []
  | c :: text' => if is_space c then lstrip text' else text
  end.

Definition strip (text : list ascii) : list ascii :=
  rev (lstrip (rev (lstrip text))).

(** ** Main animation logic *)

(** One glyph pasted on a frame: the loop index at which it was pasted,
    the character, its canvas position, rotation and colour. *)
Record draw : Type := {
  d_index : nat;
  d_char : ascii;
  d_sx : Z;
  d_sy : Z;
  d_angle : Q;
  d_color : rgba
}.

Record frame : Type := {
  f_visible : Z;
  f_scale : Q;
  f_draws : list draw
}.

(** The arguments of the final [frames[0].save(...)] call. *)
Record gif : Type := {
  g_first : frame;
  g_append_images : list frame;
  g_duration : Z;
  g_loop : Z
}.

(** [max(l)] on a list of floats. *)
Definition list_max (l : list Q) : outcome Q :=
  match l with
  | [] => Raises ValueError
  | x :: l' => Returns (fold_left Py.max l' x)
  end.

(** [max(1, min(num_chars, int(C)))]. *)
Definition max_char_index_of (num_chars : Z) (C : Q) : Z :=
  Z.max 1 (Z.min num_chars (Py.int C)).

(** The zoom of one frame. *)
Definition frame_scale (base_radii bulge_deltas : list Q)
    (max_char_index max_r_canvas : Z) : outcome Q :=
  visible_adj_r <-
    for_each (range max_char_index)
      (fun i visible_adj_r =>
         r <- index base_radii i ;;
         let r0 := Py.or_else r 1e-6 in
         delta <- index bulge_deltas i ;;
         let r_adj := r0 * (1 + delta) in
         Returns (visible_adj_r ++ [r_adj]))
      [] ;;
  current_max_r <-
    match visible_adj_r with
    | [] => Returns 1
    | _ => list_max visible_adj_r
    end ;;
  Returns (if negb (Py.eqb current_max_r 0)
           then Py.float max_r_canvas / current_max_r else 1).

(** The glyph loop of one frame. *)
Definition frame_draws (chars : list ascii) (positions : list point)
    (base_radii bulge_deltas tangent_angles : list Q)
    (num_chars : Z) (anomaly_frac : Q)
    (max_char_index canvas_center : Z) (scale : Q) : outcome (list draw) :=
  for_each (range max_char_index)
    (fun i draws =>
       ch <- index chars i ;;
       if Ascii.eqb ch SPACE then Returns draws
       else
         '(x0, y0, _) <- index positions i ;;
         r <- index base_radii i ;;
         let r0 := Py.or_else r 1e-6 in
         let t_char :=
           if (num_chars >? 1)%Z
           then Py.float (Z.of_nat i) / Py.float (num_chars - 1) else 0 in
         (* apply bulge *)
         delta <- index bulge_deltas i ;;
         let x := x0 * (1 + delta) in
         let y := y0 * (1 + delta) in
         (* map to canvas *)
         let sx := (canvas_center + Py.int (x * scale))%Z in
         let sy := (canvas_center - Py.int (y * scale))%Z in
         (* choose color *)
         let color :=
           if Py.leb (Py.abs (t_char - anomaly_frac)) ANOMALY_COLOR_WIDTH
           then ANOMALY_COLOR else TEXT_COLOR in
         angle_deg <- index tangent_angles i ;;
         Returns (draws ++ [{| d_index := i; d_char := ch; d_sx := sx;
                               d_sy := sy; d_angle := angle_deg;
                               d_color := color |}]))
    [].

(** The body of the frame loop. *)
Definition compose_frame (chars : list ascii) (positions : list point)
    (base_radii bulge_deltas tangent_angles : list Q)
    (num_chars : Z) (anomaly_frac : Q) (frame_idx : nat) : outcome frame :=
  let canvas_center := (CANVAS_SIZE / 2)%Z in
  let max_r_canvas := (canvas_center - MARGIN)%Z in
  let t := Py.float (Z.of_nat frame_idx) / Py.float FPS in
  let C := chars_revealed_at_time t num_chars anomaly_frac in
  let max_char_index := max_char_index_of num_chars C in
  scale <- frame_scale base_radii bulge_deltas max_char_index max_r_canvas ;;
  draws <- frame_draws chars positions base_radii bulge_deltas tangent_angles
             num_chars anomaly_frac max_char_index canvas_center scale ;;
  Returns {| f_visible := max_char_index; f_scale := scale; f_draws := draws |}.

(** The [for frame_idx in range(NUM_FRAMES)] loop, collecting the
    frames. *)
Definition frame_loop (chars : list ascii) (positions : list point)
    (base_radii bulge_deltas tangent_angles : list Q)
    (num_chars : Z) (anomaly_frac : Q) : outcome (list frame) :=
  for_each (range NUM_FRAMES)
    (fun frame_idx frames =>
       fr <- compose_frame chars positions base_radii bulge_deltas
               tangent_angles num_chars anomaly_frac frame_idx ;;
       Returns (frames ++ [fr]))
    [].

(** [max(0.0, min(1.0, anomaly_pct / 100.0))]. *)
Definition anomaly_frac_of (anomaly_pct : Q) : Q :=
  Py.max 0 (Py.min 1 (anomaly_pct / 100)).

(** [create_spiral_gif]: [Returns None] is the early return on an empty
    text, [Returns (Some g)] the call that saves the animation. *)
Definition create_spiral_gif (fuel : nat) (text : string) (anomaly_pct : Q)
  : outcome (option gif) :=
  let text := replace LF SPACE (replace CR SPACE (list_ascii_of_string text)) in
  let text := join [SPACE] (split text []) in
  let chars := text in
  let num_chars := Z.of_nat (length chars) in
  if (num_chars =? 0)%Z then Returns None
  else
    let anomaly_frac := anomaly_frac_of anomaly_pct in
    positions <- generate_spiral_positions fuel num_chars ;;
    tangent_angles <- compute_tangent_angles positions ;;
    let base_radii := map (fun '(x, y, _) => hypot x y) positions in
    bulge_deltas <- compute_bulge_deltas num_chars anomaly_frac ;;
    frames <- frame_loop chars positions base_radii bulge_deltas
                tangent_angles num_chars anomaly_frac ;;
    first <- index frames 0 ;;
    Returns (Some {| g_first := first; g_append_images := skipn 1 frames;
                     g_duration := FRAME_DURATION_MS; g_loop := 0 |}).

(** ** Command line *)

(** The anomaly percentage read from the prompt: [float(raw)] with the
    fallback of the [except] branch, then [max(0, min(100, _))]. *)
Definition read_anomaly_pct (line : string) : Q :=
  let raw := string_of_list_ascii (strip (list_ascii_of_string line)) in
  let anomaly_pct :=
    match float_of_str raw with
    | Some v => v
    | None => 70
    end in
  Py.max 0 (Py.min 100 anomaly_pct).

(** The [__main__] block, given the text of the chosen file and the line
    typed at the prompt. *)
Definition main (fuel : nat) (paragraph line : string) : outcome (option gif) :=
  match strip (list_ascii_of_string paragraph) with
  | [] => Returns None
  | _ => create_spiral_gif fuel paragraph (read_anomaly_pct line)
  end.

End Core.

(** ** The reveal curve, piece by piece

    The quantities that [chars_revealed_at_time] binds locally, as
    functions of the text length and the anomaly fraction. *)

Definition reveal_a (anomaly_frac : Q) : Q := Py.max 0 (Py.min 1 anomaly_frac).

Definition reveal_i0 (N : Z) (anomaly_frac : Q) : Q :=
  reveal_a anomaly_frac * Py.float (N - 1).

Definition reveal_halfW (N : Z) : Q :=
  Py.min (Py.float SLOW_CHARS_NOMINAL) (Py.float N) / 2.

Definition reveal_i1 (N : Z) (anomaly_frac : Q) : Q :=
  Py.max 0 (reveal_i0 N anomaly_frac - reveal_halfW N).

Definition reveal_i2 (N : Z) (anomaly_frac : Q) : Q :=
  Py.min (Py.float N) (reveal_i0 N anomaly_frac + reveal_halfW N).

Definition reveal_W_eff (N : Z) (anomaly_frac : Q) : Q :=
  Py.max 1 (reveal_i2 N anomaly_frac - reveal_i1 N anomaly_frac).

Definition reveal_t1 (anomaly_frac : Q) : Q :=
  Py.max 0 (reveal_a anomaly_frac * DURATION_S - SLOW_DURATION / 2).

Definition reveal_t2 (anomaly_frac : Q) : Q :=
  Py.min DURATION_S (reveal_a anomaly_frac * DURATION_S + SLOW_DURATION / 2).

Definition slow_slope (N : Z) (anomaly_frac : Q) : Q :=
  reveal_W_eff N anomaly_frac / (reveal_t2 anomaly_frac - reveal_t1 anomaly_frac).

Definition pre_slope (N : Z) (anomaly_frac : Q) : Q :=
  if Py.gtb (reveal_t1 anomaly_frac) 0
  then reveal_i1 N anomaly_frac / reveal_t1 anomaly_frac else 0.

Definition post_slope (N : Z) (anomaly_frac : Q) : Q :=
  if Py.gtb DURATION_S (reveal_t2 anomaly_frac)
  then (Py.float N - reveal_i2 N anomaly_frac)
       / (DURATION_S - reveal_t2 anomaly_frac)
  else 0.

(** The value [C] before the final clamp. *)
Definition reveal_curve (N : Z) (anomaly_frac : Q) (t : Q) : Q :=
  if Py.leb t 0 then 0
  else if Py.ltb t (reveal_t1 anomaly_frac) then pre_slope N anomaly_frac * t
  else if Py.leb t (reveal_t2 anomaly_frac)
       then reveal_i1 N anomaly_frac
            + slow_slope N anomaly_frac * (t - reveal_t1 anomaly_frac)
  else if Py.ltb t DURATION_S
       then reveal_i2 N anomaly_frac
            + post_slope N anomaly_frac * (t - reveal_t2 anomaly_frac)
  else Py.float N.

(** The normalised position of character [i] in a text of [N]
    characters. *)
Definition t_char (N : Z) (i : nat) : Q :=
  Py.float (Z.of_nat i) / Py.float (N - 1).

(** The glyphs a frame showing [visible] characters has to paste: the
    characters of index below [visible] that are not spaces, each with
    its index, in text order. *)
Definition expected_glyphs (chars : list ascii) (visible : nat)
  : list (nat * ascii) :=
  filter (fun ic => negb (Ascii.eqb (snd ic) SPACE))
    (combine (seq 0 visible) (firstn visible chars)).

(** The characters that [create_spiral_gif] lays out for a text. *)
Definition chars_of (text : string) : list ascii :=
  join [SPACE]
    (split (replace LF SPACE (replace CR SPACE (list_ascii_of_string text))) []).

(** The index and character of a pasted glyph. *)
Definition glyph_of (d : draw) : nat * ascii := (d_index d, d_char d).

(** A glyph is pasted where the spiral point of its index, pushed out by
    the bulge delta of its index, lands on the canvas. *)
Definition placed_at (positions : list point) (bulge_deltas : list Q)
    (canvas_center : Z) (scale : Q) (d : draw) : Prop :=
  exists x0 y0 th delta,
    nth_error positions (d_index d) = Some (x0, y0, th)
    /\ nth_error bulge_deltas (d_index d) = Some delta
    /\ d_sx d = (canvas_center + Py.int (x0 * (1 + delta) * scale))%Z
    /\ d_sy d = (canvas_center - Py.int (y0 * (1 + delta) * scale))%Z.

(** All frames handed to the encoder, in order. *)
Definition g_frames (g : gif) : list frame := g_first g :: g_append_images g.

(** Continuity of a function of time at one instant. *)
Definition continuous_at (f : Q -> Q) (x : Q) : Prop :=
  forall eps, 0 < eps ->
  exists delta, 0 < delta /\
    forall y, Qabs (y - x) < delta -> Qabs (f y - f x) < eps.

(** The growth rate [b] of the radius under the default arguments. *)
Definition default_b : Q := COIL_SPACING / (2 * math_pi).

(** ** The sampled spiral path

    The path that the spiral builder walks: the spiral
    [r(theta) = a + b * theta] sampled every [step_theta] radians, the
    samples joined by straight chords, and length measured along the
    chords. *)

Section SpiralPath.

Context {M : Libm}.
Variables (a b char_spacing : Q).

Fixpoint theta_at (k : nat) : Q :=
  match k with
  | O => 0
  | S k' => theta_at k' + step_theta
  end.

Definition sample_x (k : nat) : Q := (a + b * theta_at k) * cos (theta_at k).
Definition sample_y (k : nat) : Q := (a + b * theta_at k) * sin (theta_at k).

Definition chord (k : nat) : Q :=
  hypot (sample_x (S k) - sample_x k) (sample_y (S k) - sample_y k).

(** Length of the path up to sample [k]. *)
Fixpoint path_length (k : nat) : Q :=
  match k with
  | O => 0
  | S k' => path_length k' + chord k'
  end.

(** The target length of the character of index [n]. *)
Fixpoint target_at (n : nat) : Q :=
  match n with
  | O => 0
  | S n' => target_at n' + char_spacing
  end.

(** [on_path p s]: the point [p] lies on a chord of the path, at path
    length [s] from the start, and carries the angle of the chord's far
    end. *)
Definition on_path (p : point) (s : Q) : Prop :=
  exists (k : nat) (t : Q),
    0 <= t <= 1
    /\ p = (sample_x k + t * (sample_x (S k) - sample_x k),
            sample_y k + t * (sample_y (S k) - sample_y k),
            theta_at (S k))
    /\ s == path_length k + t * chord k.

(** Every point of the list lies on the path, the point of index [i] at
    the target length of index [i]. *)
Definition points_on_path (pts : list point) : Prop :=
  forall i p, nth_error pts i = Some p -> on_path p (target_at i).

(** What holds of the loop state after [j] passes through the outer
    loop, for a text of [N] characters. *)
Definition spiral_inv (N : Z) (j : nat) (st : spiral_state) : Prop :=
  theta st = theta_at j
  /\ last_x st = sample_x j
  /\ last_y st = sample_y j
  /\ accumulated_length st = path_length j
  /\ target_length st = target_at (length (points st))
  /\ (Z.of_nat (length (points st)) <= Z.max 0 N)%Z
  /\ points_on_path (points st)
  /\ (Z.of_nat (length (points st)) = Z.max 0 N
      \/ path_length j <= target_length st).

End SpiralPath.

(** ** Euclidean length

    What makes the lengths of the sampled path geometric: [hypot] is the
    Euclidean length, never below it and with a square above the
    Euclidean one by no more than the relative tolerance [length_tol],
    and turning the unit vector [(cos t, sin t)] by an angle moves it by
    no more than that angle. *)

Definition length_tol : Q := 0.0001.

Class EuclidLaws (M : Libm) : Prop := {
  hypot_sq_lower : forall x y, x * x + y * y <= hypot x y * hypot x y;
  hypot_sq_upper :
    forall x y, hypot x y * hypot x y <= (1 + length_tol) * (x * x + y * y);
  turn_bound :
    forall t h,
      (cos (t + h) - cos t) * (cos (t + h) - cos t)
      + (sin (t + h) - sin t) * (sin (t + h) - sin t) <= h * h
}.

(** One Newton step towards the square root of [v]. *)
Definition newton_sqrt (v s : Q) : Q := (s + v / s) / 2.

(** The rational stand-in with a [hypot] within the tolerance: three
    Newton steps for the square root of [x * x + y * y] from
    [|x| + |y|]. *)
Definition euclid_libm : Libm := {|
  cos := @cos rational_libm;
  sin := @sin rational_libm;
  exp := @exp rational_libm;
  hypot := fun x y =>
    let v := x * x + y * y in
    let s := Py.abs x + Py.abs y in
    if Py.eqb s 0 then 0
    else newton_sqrt v (newton_sqrt v (newton_sqrt v s));
  atan2 := @atan2 rational_libm;
  float_of_str := @float_of_str rational_libm
|}.

(** The square of the straight-line distance between two points. *)
Definition dist_sq (p q : point) : Q :=
  let '(px, py, _) := p in
  let '(qx, qy, _) := q in
  (qx - px) * (qx - px) + (qy - py) * (qy - py).

(** The point of the spiral [r = a + b * theta] at the angle [theta]. *)
Definition spiral_point {M : Libm} (a b theta : Q) : point :=
  ((a + b * theta) * cos theta, (a + b * theta) * sin theta, theta).

(** ** Further notions used to describe the code *)

(** A word of [split]: not empty and free of whitespace. *)
Definition is_word (w : list ascii) : Prop :=
  w <> [] /\ Forall (fun c => is_space c = false) w.

(** [no_space_run prev l]: no whitespace character of [l] directly
    follows another one, the first counting as following one when
    [prev] is set. *)
Fixpoint no_space_run (prev_space : bool) (l : list ascii) : bool :=
  match l with
  | [] => true
  | c :: l' =>
      if is_space c then negb prev_space && no_space_run true l'
      else no_space_run false l'
  end.

(** The adjusted radius of character [i]: its base radius, raised to
    [1e-6] when it is zero, pushed out by its bulge delta. *)
Definition adjusted_radius (base_radii bulge_deltas : list Q) (i : nat)
  : option Q :=
  match nth_error base_radii i, nth_error bulge_deltas i with
  | Some r, Some delta => Some (Py.or_else r 1e-6 * (1 + delta))
  | _, _ => None
  end.

(** The colour the glyph loop gives to the character of index [i]. *)
Definition color_at (N : Z) (anomaly_frac : Q) (i : nat) : rgba :=
  if Py.leb (Py.abs ((if (N >? 1)%Z then t_char N i else 0) - anomaly_frac))
       ANOMALY_COLOR_WIDTH
  then ANOMALY_COLOR else TEXT_COLOR.

(** A guard band around the edges of the anomaly colour band, wide
    enough to absorb the rounding of binary64 arithmetic. *)
Definition band_guard : Q := 0.000000001.

(** A pasted glyph shows the character of its index, turned by the
    tangent angle of its index and coloured by the rule of its index. *)
Definition styled_by (chars : list ascii) (tangent_angles : list Q)
    (N : Z) (anomaly_frac : Q) (d : draw) : Prop :=
  nth_error chars (d_index d) = Some (d_char d)
  /\ nth_error tangent_angles (d_index d) = Some (d_angle d)
  /\ d_color d = color_at N anomaly_frac (d_index d).

(** * Proofs *)

(** ** Comparisons, [max] and [min] *)

Lemma ltb_spec (x y : Q) : BoolSpec (x < y) (y <= x) (Py.ltb x y).
Proof.
  unfold Py.ltb. destruct (Qle_bool y x) eqn:E; constructor.
  - now apply Qle_bool_iff.
  - apply Qnot_le_lt. intros H. apply Qle_bool_iff in H. congruence.
Qed.

Lemma leb_spec (x y : Q) : BoolSpec (x <= y) (y < x) (Py.leb x y).
Proof.
  unfold Py.leb. destruct (Qle_bool x y) eqn:E; constructor.
  - now apply Qle_bool_iff.
  - apply Qnot_le_lt. intros H. apply Qle_bool_iff in H. congruence.
Qed.

Lemma eqb_spec (x y : Q) : BoolSpec (x == y) (~ x == y) (Py.eqb x y).
Proof.
  unfold Py.eqb. destruct (Qeq_bool x y) eqn:E; constructor.
  - now apply Qeq_bool_iff.
  - intros H. apply Qeq_bool_iff in H. congruence.
Qed.

(** Case analysis on every comparison in sight. *)
Ltac py_case_on b spec :=
  let H := fresh "Hcmp" in
  pose proof spec as H; destruct b in *; inversion H; clear H.

Ltac py_cases :=
  unfold Py.max, Py.min, Py.abs, Py.or_else, Py.gtb, Py.geb in *;
  repeat match goal with
    | |- context [Py.ltb ?x ?y] => py_case_on (Py.ltb x y) (ltb_spec x y)
    | |- context [Py.leb ?x ?y] => py_case_on (Py.leb x y) (leb_spec x y)
    | |- context [Py.eqb ?x ?y] => py_case_on (Py.eqb x y) (eqb_spec x y)
    | H : context [Py.ltb ?x ?y] |- _ => py_case_on (Py.ltb x y) (ltb_spec x y)
    | H : context [Py.leb ?x ?y] |- _ => py_case_on (Py.leb x y) (leb_spec x y)
    | H : context [Py.eqb ?x ?y] |- _ => py_case_on (Py.eqb x y) (eqb_spec x y)
    end.

Lemma max_spec (x y : Q) :
  (x < y /\ Py.max x y = y) \/ (y <= x /\ Py.max x y = x).
Proof. py_cases; auto. Qed.

Lemma min_spec (x y : Q) :
  (y < x /\ Py.min x y = y) \/ (x <= y /\ Py.min x y = x).
Proof. py_cases; auto. Qed.

Lemma clamp_bounds (lo hi x : Q) :
  lo <= hi -> lo <= Py.max lo (Py.min hi x) <= hi.
Proof. intros H. py_cases; split; lra. Qed.

Lemma clamp_id (lo hi x : Q) :
  lo <= x <= hi -> Py.max lo (Py.min hi x) == x.
Proof. intros H. py_cases; lra. Qed.

Lemma float_le (n m : Z) : (n <= m)%Z -> Py.float n <= Py.float m.
Proof. intros H. unfold Py.float. rewrite <- Zle_Qle. exact H. Qed.

Lemma float_sub_1 (n : Z) : Py.float (n - 1) == Py.float n - 1.
Proof. unfold Py.float, Z.sub. rewrite inject_Z_plus. reflexivity. Qed.

Lemma int_floor (x : Q) : 0 <= x -> Py.int x = Qfloor x.
Proof.
  intros H. destruct x as [n d]. unfold Py.int, Qfloor. simpl.
  apply Z.quot_div_nonneg; [| lia].
  unfold Qle in H. simpl in H. lia.
Qed.

(** Linear arithmetic over [Q] after inverting the literal divisors. *)
Ltac inv_consts :=
  unfold Qdiv in *;
  repeat match goal with
    | |- context [/ (?n # ?d)] =>
        let v := eval vm_compute in (/ (n # d)) in
        change (/ (n # d)) with v
    | H : context [/ (?n # ?d)] |- _ =>
        let v := eval vm_compute in (/ (n # d)) in
        change (/ (n # d)) with v in H
    end.

Ltac qlra := inv_consts; lra.
Ltac qnra := inv_consts; nra.

(** ** The temporal reveal curve *)

Lemma Qabs_cases (x : Q) :
  (0 <= x /\ Qabs x == x) \/ (x < 0 /\ Qabs x == - x).
Proof.
  destruct (Qlt_le_dec x 0) as [H | H].
  - right. split; [assumption |]. apply Qabs_neg. lra.
  - left. split; [assumption |]. now apply Qabs_pos.
Qed.

Lemma lipschitz_continuous (f : Q -> Q) (x L r : Q) :
  0 < r -> 0 <= L ->
  (forall y, Qabs (y - x) < r -> Qabs (f y - f x) <= L * Qabs (y - x)) ->
  continuous_at f x.
Proof.
  intros Hr HL Hlip eps Heps.
  assert (eps / (L + 1) * (L + 1) == eps) as He by (field; lra).
  assert (0 < eps / (L + 1)) as He0 by (apply Qlt_shift_div_l; lra).
  generalize dependent (eps / (L + 1)). intros e He He0.
  exists (Py.min r e). split; [py_cases; lra |].
  intros y Hy.
  assert (Qabs (y - x) < r /\ Qabs (y - x) < e) as [Hyr Hye].
  { revert Hy. py_cases; intros; split; lra. }
  specialize (Hlip y Hyr).
  pose proof (Qabs_nonneg (y - x)) as Hd.
  generalize dependent (Qabs (f y - f x)). generalize dependent (Qabs (y - x)).
  intros d _ _ Hde Hd0 v Hv. nra.
Qed.

Section RevealFacts.

Variables (N : Z) (a : Q).
Hypothesis HN : (2 <= N)%Z.

Lemma reveal_a_bounds : 0 <= reveal_a a <= 1.
Proof. unfold reveal_a. apply clamp_bounds. lra. Qed.

Lemma reveal_a_id : 0 <= a <= 1 -> reveal_a a == a.
Proof. apply clamp_id. Qed.

Lemma reveal_window :
  0 <= reveal_t1 a /\ reveal_t1 a < reveal_t2 a /\ reveal_t2 a <= DURATION_S.
Proof.
  pose proof reveal_a_bounds as Ha.
  unfold reveal_t1, reveal_t2, DURATION_S, SLOW_DURATION.
  generalize dependent (reveal_a a). intros A Ha.
  py_cases; qlra.
Qed.

Lemma float_N_ge_2 : 2 <= Py.float N.
Proof. change 2 with (Py.float 2). now apply float_le. Qed.

Lemma reveal_i0_bounds : 0 <= reveal_i0 N a <= Py.float N - 1.
Proof.
  pose proof reveal_a_bounds as Ha. pose proof float_N_ge_2 as H2.
  unfold reveal_i0. rewrite float_sub_1.
  generalize dependent (reveal_a a). intros A Ha.
  generalize dependent (Py.float N). intros n Hn.
  split; nra.
Qed.

Lemma reveal_halfW_bounds : 1 <= reveal_halfW N.
Proof.
  pose proof float_N_ge_2 as H2.
  unfold reveal_halfW, SLOW_CHARS_NOMINAL.
  change (Py.float 150) with 150.
  generalize dependent (Py.float N). intros n Hn.
  py_cases; qlra.
Qed.

Lemma reveal_i_bounds :
  0 <= reveal_i1 N a /\ reveal_i1 N a + 1 <= reveal_i2 N a
  /\ reveal_i2 N a <= Py.float N.
Proof.
  pose proof reveal_i0_bounds as H0. pose proof reveal_halfW_bounds as Hh.
  pose proof float_N_ge_2 as H2.
  unfold reveal_i1, reveal_i2.
  generalize dependent (reveal_i0 N a). intros i0 H0.
  generalize dependent (reveal_halfW N). intros h Hh.
  generalize dependent (Py.float N). intros n Hn H0.
  py_cases; qlra.
Qed.

Lemma reveal_W_eff_eq :
  reveal_W_eff N a == reveal_i2 N a - reveal_i1 N a.
Proof.
  pose proof reveal_i_bounds as Hi. unfold reveal_W_eff.
  py_cases; qlra.
Qed.

Lemma slow_span :
  slow_slope N a * (reveal_t2 a - reveal_t1 a) == reveal_i2 N a - reveal_i1 N a.
Proof.
  pose proof reveal_window as Hw. unfold slow_slope.
  rewrite <- reveal_W_eff_eq. field. lra.
Qed.

Lemma slow_nonneg : 0 <= slow_slope N a.
Proof.
  pose proof reveal_window as Hw. pose proof reveal_i_bounds as Hi.
  pose proof slow_span as Hs.
  destruct (Qlt_le_dec (slow_slope N a) 0) as [Hneg | ]; [| assumption].
  exfalso. nra.
Qed.

Lemma pre_span :
  0 < reveal_t1 a -> pre_slope N a * reveal_t1 a == reveal_i1 N a.
Proof.
  intros H. unfold pre_slope. py_cases; [| qlra]. field. lra.
Qed.

Lemma pre_nonneg : 0 <= pre_slope N a.
Proof.
  pose proof reveal_i_bounds as Hi. unfold pre_slope. py_cases; [| qlra].
  apply Qle_shift_div_l; lra.
Qed.

Lemma post_span :
  reveal_t2 a < DURATION_S ->
  post_slope N a * (DURATION_S - reveal_t2 a) == Py.float N - reveal_i2 N a.
Proof.
  intros H. unfold post_slope. py_cases; [| qlra]. field. lra.
Qed.

Lemma post_nonneg : 0 <= post_slope N a.
Proof.
  pose proof reveal_i_bounds as Hi. unfold post_slope. py_cases; [| qlra].
  apply Qle_shift_div_l; lra.
Qed.



Lemma chars_revealed_unfold (t : Q) :
  chars_revealed_at_time t N a
  = Py.max 0 (Py.min (Py.float N) (reveal_curve N a t)).
Proof.
  pose proof reveal_window as Hw.
  unfold chars_revealed_at_time, chars_revealed_at_time_with.
  destruct (Z.leb_spec N 0); [lia |].
  destruct (Z.eqb_spec N 1); [lia |].
  fold (reveal_a a). fold (reveal_i0 N a). fold (reveal_halfW N).
  fold (reveal_i1 N a). fold (reveal_i2 N a). fold (reveal_W_eff N a).
  fold (reveal_t1 a). fold (reveal_t2 a).
  fold (slow_slope N a). fold (pre_slope N a). fold (post_slope N a).
  destruct (leb_spec (reveal_t2 a) (reveal_t1 a)); [lra |].
  reflexivity.
Qed.

Lemma reveal_curve_bounds (t : Q) : 0 <= reveal_curve N a t <= Py.float N.
Proof.
  pose proof reveal_window as Hw. pose proof reveal_i_bounds as Hi.
  pose proof slow_span as Hs. pose proof slow_nonneg as Hs0.
  pose proof pre_span as Hp. pose proof pre_nonneg as Hp0.
  pose proof post_span as Hq. pose proof post_nonneg as Hq0.
  unfold reveal_curve.
  generalize dependent (slow_slope N a). generalize dependent (pre_slope N a).
  generalize dependent (post_slope N a).
  generalize dependent (reveal_i1 N a). generalize dependent (reveal_i2 N a).
  generalize dependent (reveal_t1 a). generalize dependent (reveal_t2 a).
  generalize dependent (Py.float N). unfold DURATION_S.
  intros n t2 t1 Hw i2 i1 Hi post Hq Hq0 pre Hp Hp0 slow Hs Hs0.
  py_cases; try lra;
    try (assert (0 < t1) as Ht1 by lra; specialize (Hp Ht1));
    try (assert (t2 < 5) as Ht2 by lra; specialize (Hq Ht2));
    split; nra.
Qed.

Lemma chars_revealed_curve (t : Q) :
  chars_revealed_at_time t N a == reveal_curve N a t.
Proof.
  rewrite chars_revealed_unfold. apply clamp_id. apply reveal_curve_bounds.
Qed.

Lemma reveal_curve_mono (t t' : Q) :
  t <= t' -> reveal_curve N a t <= reveal_curve N a t'.
Proof.
  intros Htt.
  pose proof reveal_window as Hw. pose proof reveal_i_bounds as Hi.
  pose proof slow_span as Hs. pose proof slow_nonneg as Hs0.
  pose proof pre_span as Hp. pose proof pre_nonneg as Hp0.
  pose proof post_span as Hq. pose proof post_nonneg as Hq0.
  unfold reveal_curve.
  generalize dependent (slow_slope N a). generalize dependent (pre_slope N a).
  generalize dependent (post_slope N a).
  generalize dependent (reveal_i1 N a). generalize dependent (reveal_i2 N a).
  generalize dependent (reveal_t1 a). generalize dependent (reveal_t2 a).
  generalize dependent (Py.float N). unfold DURATION_S.
  intros n t2 t1 Hw i2 i1 Hi post Hq Hq0 pre Hp Hp0 slow Hs Hs0.
  py_cases; try lra;
    try (assert (0 < t1) as Ht1 by lra; specialize (Hp Ht1));
    try (assert (t2 < 5) as Ht2 by lra; specialize (Hq Ht2));
    try nra.
Qed.


Lemma reveal_curve_before (t : Q) : t <= 0 -> reveal_curve N a t = 0.
Proof. intros H. unfold reveal_curve. py_cases; try reflexivity; lra. Qed.

Lemma reveal_curve_after (t : Q) : DURATION_S < t -> reveal_curve N a t = Py.float N.
Proof.
  intros H. pose proof reveal_window as Hw.
  unfold reveal_curve. unfold DURATION_S in *. py_cases; try reflexivity; lra.
Qed.

Lemma reveal_curve_at_end :
  reveal_t2 a < DURATION_S -> reveal_curve N a DURATION_S = Py.float N.
Proof.
  intros H. pose proof reveal_window as Hw.
  unfold reveal_curve. unfold DURATION_S in *. py_cases; try reflexivity; lra.
Qed.

Lemma reveal_curve_continuous_t1 :
  0 < reveal_t1 a -> continuous_at (reveal_curve N a) (reveal_t1 a).
Proof.
  intros Ht1.
  pose proof reveal_window as Hw. pose proof reveal_i_bounds as Hi.
  pose proof slow_nonneg as Hs0.
  pose proof (pre_span Ht1) as Hp. pose proof pre_nonneg as Hp0.
  apply (lipschitz_continuous _ _ (pre_slope N a + slow_slope N a)
           (Py.min (reveal_t1 a) (reveal_t2 a - reveal_t1 a)));
    [py_cases; lra | lra |].
  intros y Hy.
  assert (Qabs (y - reveal_t1 a) < reveal_t1 a
          /\ Qabs (y - reveal_t1 a) < reveal_t2 a - reveal_t1 a) as [Hy1 Hy2].
  { revert Hy. py_cases; intros; split; lra. }
  clear Hy. unfold reveal_curve.
  generalize dependent (slow_slope N a). generalize dependent (pre_slope N a).
  generalize dependent (reveal_i1 N a). generalize dependent (reveal_i2 N a).
  generalize dependent (reveal_t1 a). generalize dependent (reveal_t2 a).
  intros t2 t1 Ht1 Hw Hy1 Hy2 i2 i1 Hi pre Hp Hp0 slow Hs0.
  destruct (Qabs_cases (y - t1)) as [[Hd He] | [Hd He]];
    rewrite He in *; clear He;
    py_cases; try lra;
    match goal with |- Qabs ?v <= _ =>
      destruct (Qabs_cases v) as [[Hv Hve] | [Hv Hve]]; rewrite Hve; nra
    end.
Qed.

Lemma reveal_curve_continuous_t2 :
  reveal_t2 a < DURATION_S -> continuous_at (reveal_curve N a) (reveal_t2 a).
Proof.
  intros Ht2.
  pose proof reveal_window as Hw. pose proof reveal_i_bounds as Hi.
  pose proof slow_nonneg as Hs0. pose proof slow_span as Hs.
  pose proof (post_span Ht2) as Hq. pose proof post_nonneg as Hq0.
  apply (lipschitz_continuous _ _ (slow_slope N a + post_slope N a)
           (Py.min (reveal_t2 a - reveal_t1 a) (DURATION_S - reveal_t2 a)));
    [py_cases; lra | lra |].
  intros y Hy.
  assert (Qabs (y - reveal_t2 a) < reveal_t2 a - reveal_t1 a
          /\ Qabs (y - reveal_t2 a) < DURATION_S - reveal_t2 a) as [Hy1 Hy2].
  { revert Hy. py_cases; intros; split; lra. }
  clear Hy. unfold reveal_curve.
  generalize dependent (slow_slope N a). generalize dependent (post_slope N a).
  generalize dependent (reveal_i1 N a). generalize dependent (reveal_i2 N a).
  generalize dependent (reveal_t1 a). generalize dependent (reveal_t2 a).
  unfold DURATION_S.
  intros t2 Ht2 t1 Hw Hy1 Hy2 i2 i1 Hi post Hq Hq0 slow Hs0 Hs.
  destruct (Qabs_cases (y - t2)) as [[Hd He] | [Hd He]];
    rewrite He in *; clear He;
    py_cases; try lra;
    match goal with |- Qabs ?v <= _ =>
      destruct (Qabs_cases v) as [[Hv Hve] | [Hv Hve]]; rewrite Hve; nra
    end.
Qed.


Lemma reveal_curve_slow_floor (t : Q) :
  0 < t -> reveal_t1 a <= t -> reveal_i1 N a <= reveal_curve N a t.
Proof.
  intros Ht Ht1.
  pose proof reveal_window as Hw. pose proof reveal_i_bounds as Hi.
  pose proof slow_nonneg as Hs0. pose proof post_nonneg as Hq0.
  unfold reveal_curve.
  generalize dependent (slow_slope N a). generalize dependent (post_slope N a).
  generalize dependent (reveal_i1 N a). generalize dependent (reveal_i2 N a).
  generalize dependent (reveal_t1 a). generalize dependent (reveal_t2 a).
  generalize dependent (Py.float N). unfold DURATION_S.
  intros n t2 t1 Ht1 Hw i2 i1 Hi post Hq0 slow Hs0.
  py_cases; try lra; nra.
Qed.

End RevealFacts.

Lemma continuous_at_ext (f g : Q -> Q) (x : Q) :
  (forall y, f y == g y) -> continuous_at g x -> continuous_at f x.
Proof.
  intros Hfg Hg eps Heps. destruct (Hg eps Heps) as (delta & Hd & Hc).
  exists delta. split; [assumption |]. intros y Hy.
  rewrite !Hfg. now apply Hc.
Qed.

Lemma chars_revealed_single (t : Q) (a : Q) :
  chars_revealed_at_time t 1 a = if Py.geb t 0 then 1 else 0.
Proof. reflexivity. Qed.

Lemma chars_revealed_range (t : Q) (N : Z) (a : Q) :
  (0 < N)%Z -> 0 <= chars_revealed_at_time t N a <= Py.float N.
Proof.
  intros HN.
  assert (0 <= Py.float N) as H0 by (change 0 with (Py.float 0); apply float_le; lia).
  unfold chars_revealed_at_time, chars_revealed_at_time_with.
  destruct (Z.leb_spec N 0); [lia |].
  destruct (Z.eqb_spec N 1) as [-> | Hne].
  - change (Py.float 1) with 1. py_cases; lra.
  - match goal with |- context [Py.leb ?x ?y] => destruct (Py.leb x y) end.
    + generalize dependent (Py.float N). intros n Hn.
      assert (0 <= Py.min 1 (Py.max 0 (t / DURATION_S)) <= 1) as Hm by (py_cases; lra).
      generalize dependent (Py.min 1 (Py.max 0 (t / DURATION_S))). intros m Hm.
      split; nra.
    + apply clamp_bounds. exact H0.
Qed.


Lemma chars_revealed_mono (N : Z) (a t t' : Q) :
  t <= t' -> chars_revealed_at_time t N a <= chars_revealed_at_time t' N a.
Proof.
  intros Htt.
  destruct (Z.le_gt_cases 2 N) as [HN | HN].
  - rewrite !chars_revealed_curve by assumption.
    now apply reveal_curve_mono.
  - unfold chars_revealed_at_time, chars_revealed_at_time_with.
    destruct (Z.leb_spec N 0); [lra |].
    destruct (Z.eqb_spec N 1); [| lia].
    py_cases; lra.
Qed.

(** C1 (as amended).  For every text length [N > 0] the revealed count is
    non-decreasing in [t] and equals [N] at every [t] after the total
    duration.  A single character is revealed from [t = 0] on.  For
    [N >= 2] the count is [0] at every [t <= 0], equals [N] at the total
    duration when the slow window ends before it, and is continuous at
    the breakpoint [t1] when [t1 > 0] and at [t2] when [t2] lies before
    the total duration. *)
Theorem C1_reveal_curve_shape (N : Z) (a : Q) (HN : (0 < N)%Z) :
  let f := fun t => chars_revealed_at_time t N a in
  (forall t t', t <= t' -> f t <= f t') /\
  (forall t, DURATION_S < t -> f t == Py.float N) /\
  (N = 1%Z -> forall t, f t = if Py.geb t 0 then 1 else 0) /\
  ((2 <= N)%Z ->
     (forall t, t <= 0 -> f t == 0) /\
     (reveal_t2 a < DURATION_S -> f DURATION_S == Py.float N) /\
     (0 < reveal_t1 a -> continuous_at f (reveal_t1 a)) /\
     (reveal_t2 a < DURATION_S -> continuous_at f (reveal_t2 a))).
Proof.
  intros f. unfold f. repeat split.
  - intros t t'. apply chars_revealed_mono.
  - intros t Ht. destruct (Z.eq_dec N 1) as [-> | Hne].
    + rewrite chars_revealed_single. unfold DURATION_S in Ht.
      change (Py.float 1) with 1. py_cases; lra.
    + rewrite chars_revealed_curve by lia.
      rewrite reveal_curve_after by (assumption || lia). reflexivity.
  - intros -> t. apply chars_revealed_single.
  - intros t Ht. rewrite chars_revealed_curve by assumption.
    rewrite reveal_curve_before by assumption. reflexivity.
  - intros Ht2. rewrite chars_revealed_curve by assumption.
    rewrite reveal_curve_at_end by assumption. reflexivity.
  - intros Ht1. apply (continuous_at_ext _ (reveal_curve N a)).
    + intros y. now apply chars_revealed_curve.
    + now apply reveal_curve_continuous_t1.
  - intros Ht2. apply (continuous_at_ext _ (reveal_curve N a)).
    + intros y. now apply chars_revealed_curve.
    + now apply reveal_curve_continuous_t2.
Qed.

Lemma C1_reveal_curve_shape_witness :
  chars_revealed_at_time 1 10 0.5 <= chars_revealed_at_time 2 10 0.5
  /\ chars_revealed_at_time 6 10 0.5 == 10
  /\ continuous_at (fun t => chars_revealed_at_time t 10 0.5) (reveal_t1 0.5).
Proof.
  destruct (C1_reveal_curve_shape 10 0.5 ltac:(lia)) as (Hmono & Hend & _ & Hrest).
  destruct (Hrest ltac:(lia)) as (_ & _ & Hc1 & _).
  split; [apply Hmono; lra |].
  split; [apply Hend; unfold DURATION_S; lra |].
  apply Hc1. vm_compute. reflexivity.
Defined.

(** C1 as stated fails: a single character is already revealed at
    [t = 0]; with the anomaly at 90% of a 1000-character text the count at
    the total duration is still short of [N]; with the anomaly at 10% of a
    1001-character text the breakpoint [t1] is clipped to [0] and the
    curve jumps there. *)
Lemma C1_counterexample :
  ~ chars_revealed_at_time 0 1 0.5 == 0
  /\ ~ chars_revealed_at_time DURATION_S 1000 0.9 == Py.float 1000
  /\ ~ continuous_at (fun t => chars_revealed_at_time t 1001 0.1) (reveal_t1 0.1).
Proof.
  split; [| split].
  - vm_compute. discriminate.
  - vm_compute. discriminate.
  - intros Hc. destruct (Hc 1 ltac:(lra)) as (delta & Hd & Hy).
    specialize (Hy (Py.min (delta / 2) 1)).
    change (reveal_t1 0.1) with 0 in Hy.
    assert (0 < Py.min (delta / 2) 1 /\ Py.min (delta / 2) 1 < delta) as [Hy0 Hy1].
    { py_cases; split; qlra. }
    generalize dependent (Py.min (delta / 2) 1). intros y Hy Hy0 Hy1.
    assert (Qabs (y - 0) < delta) as Hyd.
    { rewrite Qabs_pos by lra. lra. }
    specialize (Hy Hyd).
    change (chars_revealed_at_time 0 1001 0.1) with 0 in Hy.
    rewrite chars_revealed_curve in Hy by lia.
    pose proof (reveal_curve_slow_floor 1001 0.1 ltac:(lia) y Hy0) as Hfloor.
    change (reveal_t1 0.1) with 0 in Hfloor.
    specialize (Hfloor ltac:(lra)).
    assert (reveal_i1 1001 0.1 == 25) as Hi1 by (vm_compute; reflexivity).
    rewrite Hi1 in Hfloor.
    rewrite Qabs_pos in Hy by lra. lra.
Qed.

(** ** The visible count *)

Lemma max_char_index_range (N : Z) (C : Q) :
  (0 < N)%Z -> (1 <= max_char_index_of N C <= N)%Z.
Proof. intros HN. unfold max_char_index_of. lia. Qed.

(** ** Lists, indexing and loops *)

Lemma index_Returns {A : Type} (l : list A) (i : nat) (x : A) :
  index l i = Returns x <-> nth_error l i = Some x.
Proof.
  unfold index. destruct (nth_error l i); split; intros H;
    try discriminate; congruence.
Qed.

Lemma index_lt {A : Type} (l : list A) (i : nat) :
  (i < length l)%nat -> exists x, index l i = Returns x /\ nth_error l i = Some x.
Proof.
  intros H. unfold index. destruct (nth_error l i) as [x |] eqn:E.
  - now exists x.
  - apply nth_error_None in E. lia.
Qed.

Lemma index_ge {A : Type} (l : list A) (i : nat) :
  (length l <= i)%nat -> index l i = Raises IndexError.
Proof.
  intros H. unfold index. now rewrite (proj2 (nth_error_None l i) H).
Qed.

Lemma nth_error_Some_lt {A : Type} (l : list A) (i : nat) (x : A) :
  nth_error l i = Some x -> (i < length l)%nat.
Proof. intros H. apply nth_error_Some. congruence. Qed.

Lemma store_middle {A : Type} (pre post : list A) (x v : A) :
  store (pre ++ x :: post) (length pre) v = Returns (pre ++ v :: post).
Proof.
  induction pre as [| p pre IH]; simpl; [reflexivity |].
  now rewrite IH.
Qed.

Lemma nth_error_map_seq {A : Type} (f : nat -> A) (n i : nat) :
  (i < n)%nat -> nth_error (map f (seq 0 n)) i = Some (f i).
Proof.
  intros H. rewrite nth_error_map, nth_error_seq.
  destruct (Nat.ltb_spec i n); [reflexivity | lia].
Qed.

(** Filling a preallocated list slot by slot builds the list of the
    computed values. *)
Lemma for_each_store {A : Type} (f : nat -> A) (m k : nat) (rest : list A) :
  length rest = m ->
  for_each (seq k m) (fun i l => store l i (f i)) (map f (seq 0 k) ++ rest)
  = Returns (map f (seq 0 (k + m))).
Proof.
  revert k rest. induction m as [| m IH]; intros k rest Hlen.
  - destruct rest; [| discriminate]. simpl.
    now rewrite app_nil_r, Nat.add_0_r.
  - destruct rest as [| x rest]; [discriminate |]. simpl.
    pose proof (store_middle (map f (seq 0 k)) rest x (f k)) as Hs.
    rewrite length_map, length_seq in Hs. rewrite Hs. simpl.
    replace (map f (seq 0 k) ++ f k :: rest)
      with (map f (seq 0 (S k)) ++ rest).
    + rewrite IH by (simpl in Hlen; lia). f_equal. f_equal. f_equal. lia.
    + rewrite seq_S, map_app, <- app_assoc. reflexivity.
Qed.

Lemma for_each_store_all {A : Type} (f : nat -> A) (l : list A) :
  for_each (seq 0 (length l)) (fun i l => store l i (f i)) l
  = Returns (map f (seq 0 (length l))).
Proof. apply (for_each_store f (length l) 0 l). reflexivity. Qed.

(** ** The bulge *)

Lemma enforce_acc (l : list Q) (m : Q) (acc : list Q) :
  enforce_monotonic l m acc = acc ++ enforce_monotonic l m [].
Proof.
  revert m acc. induction l as [| d l IH]; intros m acc; simpl.
  - now rewrite app_nil_r.
  - rewrite IH. rewrite (IH _ [_]). now rewrite <- app_assoc.
Qed.

Lemma enforce_cons (d : Q) (l : list Q) (m : Q) :
  enforce_monotonic (d :: l) m []
  = (if Py.gtb d m then d else m)
      :: enforce_monotonic l (if Py.gtb d m then d else m) [].
Proof. simpl. now rewrite enforce_acc. Qed.

Lemma enforce_length (l : list Q) (m : Q) :
  length (enforce_monotonic l m []) = length l.
Proof.
  revert m. induction l as [| d l IH]; intros m; [reflexivity |].
  rewrite enforce_cons. simpl. now rewrite IH.
Qed.

Lemma enforce_lower (l : list Q) (m : Q) (i : nat) (r : Q) :
  nth_error (enforce_monotonic l m []) i = Some r -> m <= r.
Proof.
  revert m i. induction l as [| d l IH]; intros m i Hr.
  - destruct i; discriminate.
  - rewrite enforce_cons in Hr. destruct i as [| i]; simpl in Hr.
    + injection Hr as <-. py_cases; lra.
    + apply IH in Hr. revert Hr. py_cases; lra.
Qed.

Lemma enforce_dominates (l : list Q) (m : Q) (i : nat) (d : Q) :
  nth_error l i = Some d ->
  exists r, nth_error (enforce_monotonic l m []) i = Some r /\ d <= r.
Proof.
  revert m i. induction l as [| x l IH]; intros m i Hd.
  - destruct i; discriminate.
  - rewrite enforce_cons. destruct i as [| i]; simpl in *.
    + injection Hd as ->. eexists. split; [reflexivity |]. py_cases; lra.
    + now apply IH.
Qed.

Lemma enforce_sorted (l : list Q) (m : Q) (i j : nat) (di dj : Q) :
  (i <= j)%nat ->
  nth_error (enforce_monotonic l m []) i = Some di ->
  nth_error (enforce_monotonic l m []) j = Some dj ->
  di <= dj.
Proof.
  revert m i j. induction l as [| x l IH]; intros m i j Hij Hi Hj.
  - destruct i; discriminate.
  - rewrite enforce_cons in Hi, Hj.
    destruct i as [| i], j as [| j]; simpl in *; try lia.
    + injection Hi as <-. injection Hj as <-. lra.
    + injection Hi as <-. now apply enforce_lower in Hj.
    + eapply (IH _ i j); [lia | eassumption | eassumption].
Qed.

Lemma enforce_upper (B : Q) (l : list Q) (m : Q) (i : nat) (r : Q) :
  m <= B -> Forall (fun d => d <= B) l ->
  nth_error (enforce_monotonic l m []) i = Some r -> r <= B.
Proof.
  revert m i. induction l as [| x l IH]; intros m i Hm Hl Hr.
  - destruct i; discriminate.
  - rewrite enforce_cons in Hr. inversion Hl as [| ? ? Hx Hl']; subst.
    destruct i as [| i]; simpl in Hr.
    + injection Hr as <-. py_cases; lra.
    + apply IH in Hr; [assumption | py_cases; lra | assumption].
Qed.

(** While no raw value exceeds the running maximum, the output repeats
    the initial value itself. *)
Lemma enforce_flat (l : list Q) (m : Q) (i : nat) (r : Q) :
  (forall j d, (j <= i)%nat -> nth_error l j = Some d -> d <= m) ->
  nth_error (enforce_monotonic l m []) i = Some r -> r = m.
Proof.
  revert m i. induction l as [| x l IH]; intros m i Hl Hr.
  - destruct i; discriminate.
  - rewrite enforce_cons in Hr.
    assert (Py.gtb x m = false) as Hx.
    { specialize (Hl 0%nat x ltac:(lia) eq_refl).
      unfold Py.gtb. destruct (ltb_spec m x); [lra | reflexivity]. }
    rewrite Hx in Hr. destruct i as [| i]; simpl in Hr.
    + congruence.
    + apply IH in Hr; [assumption |].
      intros j d Hj Hd. apply (Hl (S j) d); [lia | exact Hd].
Qed.

Section Bulge.

Context {M : Libm} {L : LibmLaws M}.

Lemma compute_bulge_deltas_unfold (N : Z) (a : Q) :
  (2 <= N)%Z ->
  compute_bulge_deltas N a
  = Returns (enforce_monotonic
               (map (raw_delta N (reveal_a a)) (seq 0 (Z.to_nat N))) 0 []).
Proof.
  intros HN. unfold compute_bulge_deltas.
  destruct (Z.leb_spec N 0); [lia |].
  destruct (Z.eqb_spec N 1); [lia |].
  unfold range. fold (reveal_a a).
  pose proof (for_each_store (raw_delta N (reveal_a a)) (Z.to_nat N) 0
                (repeat 0 (Z.to_nat N)) (repeat_length _ _)) as Hs.
  simpl in Hs. rewrite Hs. reflexivity.
Qed.

Lemma t_char_mono (N : Z) (i j : nat) :
  (2 <= N)%Z -> (i <= j)%nat -> t_char N i <= t_char N j.
Proof.
  intros HN Hij. unfold t_char, Qdiv.
  apply Qmult_le_compat_r.
  - apply float_le. lia.
  - apply Qinv_le_0_compat. change 0 with (Py.float 0). apply float_le. lia.
Qed.

Lemma t_char_pos (N : Z) (i : nat) :
  (2 <= N)%Z -> (1 <= i)%nat -> 0 < t_char N i.
Proof.
  intros HN Hi. unfold t_char.
  assert (1 <= Py.float (Z.of_nat i)) by (change 1 with (Py.float 1); apply float_le; lia).
  assert (1 <= Py.float (N - 1)) by (change 1 with (Py.float 1); apply float_le; lia).
  apply Qlt_shift_div_l; lra.
Qed.

Lemma t_char_le_1 (N : Z) (i : nat) :
  (2 <= N)%Z -> (Z.of_nat i <= N - 1)%Z -> t_char N i <= 1.
Proof.
  intros HN Hi. unfold t_char.
  assert (1 <= Py.float (N - 1)) by (change 1 with (Py.float 1); apply float_le; lia).
  apply Qle_shift_div_r; [lra |]. rewrite Qmult_1_l. now apply float_le.
Qed.

Lemma raw_delta_before (N : Z) (a : Q) (i : nat) :
  t_char N i <= a -> raw_delta N a i = 0.
Proof.
  intros H. unfold raw_delta. fold (t_char N i).
  destruct (leb_spec (t_char N i) a); [reflexivity | lra].
Qed.

Lemma raw_delta_upper (N : Z) (a : Q) (i : nat) : raw_delta N a i <= BULGE_AMP.
Proof.
  unfold raw_delta, BULGE_AMP.
  destruct (Py.leb _ _); [lra |].
  match goal with |- context [exp ?x] => pose proof (exp_nonneg x) as He;
    generalize dependent (exp x) end.
  intros e He. lra.
Qed.

Lemma raw_delta_after (N : Z) (i : nat) :
  (2 <= N)%Z -> (1 <= i)%nat -> 0 < raw_delta N 0 i.
Proof.
  intros HN Hi. pose proof (t_char_pos N i HN Hi) as Ht.
  unfold raw_delta, BULGE_AMP. fold (t_char N i).
  destruct (leb_spec (t_char N i) 0); [lra |].
  change (Py.max 1e-9 BULGE_SIGMA) with 0.04.
  match goal with |- context [exp ?x] => assert (x < 0) as Hx end.
  { assert (0 < (t_char N i - 0) / 0.04) as Hd by (apply Qlt_shift_div_l; lra).
    generalize dependent ((t_char N i - 0) / 0.04). intros d Hd. nra. }
  apply exp_below_one in Hx.
  match goal with |- context [exp ?x] => generalize dependent (exp x) end.
  intros e He. lra.
Qed.

Lemma nth_error_raw (N : Z) (a : Q) (j : nat) (d : Q) :
  nth_error (map (raw_delta N a) (seq 0 (Z.to_nat N))) j = Some d ->
  d = raw_delta N a j /\ (Z.of_nat j < N)%Z.
Proof.
  intros H. assert (j < Z.to_nat N)%nat as Hj.
  { apply nth_error_Some_lt in H. now rewrite length_map, length_seq in H. }
  rewrite nth_error_map_seq in H by assumption. split; [congruence | lia].
Qed.

(** C2.  For every text length and every anomaly fraction in [[0, 1]] the
    bulge model returns one delta per character; the deltas are
    non-decreasing in the character index, lie between [0] and the
    amplitude, and are exactly [0] at every index whose normalised
    position is at or before the anomaly fraction. *)
Theorem C2_bulge_deltas (N : Z) (a : Q) (Ha : 0 <= a <= 1) :
  exists deltas,
    compute_bulge_deltas N a = Returns deltas
    /\ length deltas = Z.to_nat N
    /\ (forall i j di dj, (i <= j)%nat ->
          nth_error deltas i = Some di -> nth_error deltas j = Some dj ->
          di <= dj)
    /\ (forall i d, nth_error deltas i = Some d -> 0 <= d <= BULGE_AMP)
    /\ (forall i d, nth_error deltas i = Some d -> t_char N i <= a -> d = 0).
Proof.
  destruct (Z.le_gt_cases 2 N) as [HN | HN].
  - rewrite compute_bulge_deltas_unfold by assumption.
    eexists. split; [reflexivity |]. repeat split.
    + now rewrite enforce_length, length_map, length_seq.
    + intros i j di dj. apply enforce_sorted.
    + eapply enforce_lower; eassumption.
    + eapply (enforce_upper BULGE_AMP _ 0); [unfold BULGE_AMP; lra | | eassumption].
      apply Forall_forall. intros x Hx. apply in_map_iff in Hx.
      destruct Hx as (k & <- & _). apply raw_delta_upper.
    + intros i d Hd Hi. apply (enforce_flat _ _ _ _ ) in Hd; [assumption |].
      intros j x Hj Hx. apply nth_error_raw in Hx. destruct Hx as [-> _].
      rewrite raw_delta_before; [lra |].
      pose proof (t_char_mono N j i HN Hj).
      pose proof (reveal_a_id a Ha). lra.
  - unfold compute_bulge_deltas.
    destruct (Z.leb_spec N 0).
    + exists []. replace (Z.to_nat N) with 0%nat by lia.
      split; [reflexivity |]. split; [reflexivity |].
      split; [| split]; intros i; intros; destruct i; discriminate.
    + destruct (Z.eqb_spec N 1) as [-> |]; [| lia].
      exists [0]. split; [reflexivity |]. split; [reflexivity |].
      assert (forall i d, nth_error [0] i = Some d -> d = 0) as Hz.
      { intros [| [| i]] d; simpl; congruence || discriminate. }
      split; [| split].
      * intros i j di dj _ Hi Hj. apply Hz in Hi, Hj. subst. lra.
      * intros i d Hd. apply Hz in Hd. subst. unfold BULGE_AMP. lra.
      * intros i d Hd _. now apply Hz in Hd.
Qed.

(** C6 (as amended).  For every [N >= 2]: with the anomaly fraction [0]
    the delta of the first character is [0] and the delta of every later
    character is positive; with the anomaly fraction [1] every delta is
    [0]. *)
Theorem C6_bulge_extremes (N : Z) (HN : (2 <= N)%Z) :
  (exists deltas,
     compute_bulge_deltas N 0 = Returns deltas
     /\ length deltas = Z.to_nat N
     /\ nth_error deltas 0 = Some 0
     /\ forall i d, (1 <= i)%nat -> nth_error deltas i = Some d -> 0 < d)
  /\
  (exists deltas,
     compute_bulge_deltas N 1 = Returns deltas
     /\ length deltas = Z.to_nat N
     /\ Forall (fun d => d = 0) deltas).
Proof.
  split; rewrite compute_bulge_deltas_unfold by assumption;
    (eexists; split; [reflexivity |]; split;
     [now rewrite enforce_length, length_map, length_seq |]).
  - change (reveal_a 0) with 0. split.
    + assert (0 < Z.to_nat N)%nat as Hpos by lia.
      destruct (enforce_dominates _ 0 0 _
                  (nth_error_map_seq (raw_delta N 0) _ 0 Hpos)) as (r & Hr & _).
      rewrite Hr. f_equal.
      apply (enforce_flat _ _ _ _) in Hr; [exact Hr |].
      intros j x Hj Hx. apply nth_error_raw in Hx. destruct Hx as [-> _].
      rewrite raw_delta_before; [lra |].
      replace j with 0%nat by lia. unfold t_char, Qdiv.
      change (Py.float (Z.of_nat 0)) with 0. lra.
    + intros i d Hi Hd.
      assert (i < Z.to_nat N)%nat as Hlt.
      { apply nth_error_Some_lt in Hd.
        now rewrite enforce_length, length_map, length_seq in Hd. }
      destruct (enforce_dominates _ 0 i _ (nth_error_map_seq (raw_delta N 0) _ i Hlt))
        as (r & Hr & Hle).
      rewrite Hr in Hd. injection Hd as <-.
      pose proof (raw_delta_after N i HN Hi). lra.
  - change (reveal_a 1) with 1. apply Forall_forall. intros d Hd.
    apply In_nth_error in Hd. destruct Hd as (i & Hd).
    apply (enforce_flat _ _ _ _) in Hd; [assumption |].
    intros j x _ Hx. apply nth_error_raw in Hx. destruct Hx as [-> Hj].
    rewrite raw_delta_before; [lra |]. apply t_char_le_1; lia.
Qed.

End Bulge.

#[export] Instance rational_libm_laws : LibmLaws rational_libm.
Proof.
  constructor; simpl.
  - intros x. field. nra.
  - intros x y. destruct (Qabs_cases x) as [[? ->] | [? ->]]; py_cases; lra.
  - intros x y. destruct (Qabs_cases y) as [[? ->] | [? ->]]; py_cases; lra.
  - intros x. py_cases; [| lra]. apply Qle_shift_div_l; lra.
  - intros x Hx. py_cases; [| lra]. apply Qlt_shift_div_r; lra.
Qed.

Lemma C2_bulge_deltas_witness :
  exists deltas,
    @compute_bulge_deltas rational_libm 5 0.5 = Returns deltas
    /\ nth_error deltas 2 = Some 0.
Proof.
  destruct (@C2_bulge_deltas rational_libm rational_libm_laws 5 0.5)
    as (deltas & Hrun & Hlen & _ & _ & Hzero).
  - lra.
  - exists deltas. split; [exact Hrun |].
    destruct (nth_error deltas 2) as [d |] eqn:Hd.
    + f_equal. apply (Hzero 2%nat d Hd). vm_compute. discriminate.
    + apply nth_error_None in Hd. rewrite Hlen in Hd. simpl in Hd. lia.
Defined.

Lemma C6_bulge_extremes_witness :
  exists deltas,
    @compute_bulge_deltas rational_libm 3 1 = Returns deltas
    /\ Forall (fun d => d = 0) deltas.
Proof.
  destruct (@C6_bulge_extremes rational_libm rational_libm_laws 3 ltac:(lia))
    as (_ & deltas & Hrun & _ & Hall).
  exists deltas. split; assumption.
Defined.

(** C6 as stated fails at the first character: with the anomaly fraction
    [0] its normalised position is not after the anomaly, so its delta
    is [0]. *)
Lemma C6_counterexample :
  exists deltas,
    @compute_bulge_deltas rational_libm 2 0 = Returns deltas
    /\ nth_error deltas 0 = Some 0
    /\ ~ Forall (fun d => 0 < d) deltas.
Proof.
  eexists. split; [vm_compute; reflexivity |]. split; [reflexivity |].
  intros H. inversion H as [| ? ? H0 _]. revert H0. vm_compute. discriminate.
Qed.

(** ** The spiral builder *)

Lemma Qsquare_nonneg (x : Q) : 0 <= x * x.
Proof. destruct (Qlt_le_dec x 0); nra. Qed.

Section SpiralFacts.

Context {M : Libm} {L : LibmLaws M}.
Variables (N : Z) (a b cs : Q).
Hypothesis Ha : 0 <= a.
Hypothesis Hb : 0 <= b.
Hypothesis Hcs : 0 <= cs.

Lemma hypot_nonneg (x y : Q) : 0 <= hypot x y.
Proof.
  pose proof (hypot_dominates_fst x y). pose proof (Qabs_nonneg x). lra.
Qed.

Lemma theta_at_nonneg (k : nat) : 0 <= theta_at k.
Proof. induction k; simpl; unfold step_theta in *; lra. Qed.

Lemma chord_nonneg (k : nat) : 0 <= chord a b k.
Proof. apply hypot_nonneg. Qed.

(** A chord is at least as long as seven tenths of the radial gain of
    one step. *)
Lemma chord_lower (k : nat) : 0.7 * (b * step_theta) <= chord a b k.
Proof.
  unfold chord, sample_x, sample_y. simpl theta_at.
  pose proof (theta_at_nonneg k) as Ht.
  set (th := theta_at k) in *. clearbody th.
  pose proof (cos_sin_unit th) as H1.
  pose proof (cos_sin_unit (th + step_theta)) as H2.
  match goal with |- _ <= hypot ?x ?y =>
    pose proof (hypot_dominates_fst x y) as Hx;
    pose proof (hypot_dominates_snd x y) as Hy;
    set (h := hypot x y) in *; clearbody h end.
  set (c := cos th) in *. set (s := sin th) in *.
  set (c' := cos (th + step_theta)) in *. set (s' := sin (th + step_theta)) in *.
  clearbody c s c' s'. unfold step_theta in *.
  assert (0 <= a + b * th) as Hr by nra.
  assert (a + b * (th + 0.02) == a + b * th + b * 0.02) as Hr' by ring.
  set (r := a + b * th) in *. set (r' := a + b * (th + 0.02)) in *.
  clearbody r r'.
  assert ((b * 0.02) * (b * 0.02)
          <= (r' * c' - r * c) * (r' * c' - r * c)
             + (r' * s' - r * s) * (r' * s' - r * s)) as Hsq.
  { assert (c * c' + s * s' <= 1) as Hcs1.
    { pose proof (Qsquare_nonneg (c - c')).
      pose proof (Qsquare_nonneg (s - s')). lra. }
    assert (dxdy : (r' * c' - r * c) * (r' * c' - r * c)
                   + (r' * s' - r * s) * (r' * s' - r * s)
                   == r' * r' * (c' * c' + s' * s') + r * r * (c * c + s * s)
                      - 2 * (r * r') * (c * c' + s * s')) by ring.
    rewrite dxdy, H1, H2, Hr'.
    assert (0 <= r * (r + b * 0.02) * (1 - (c * c' + s * s'))) as Hprod.
    { apply Qmult_le_0_compat; [| lra].
      apply Qmult_le_0_compat; [assumption |]. nra. }
    lra. }
  set (dx := r' * c' - r * c) in *. set (dy := r' * s' - r * s) in *.
  clearbody dx dy.
  assert (0 <= h) as Hh.
  { pose proof (Qabs_nonneg dx). lra. }
  assert (dx * dx <= h * h /\ dy * dy <= h * h) as [Hdx Hdy].
  { destruct (Qabs_cases dx) as [[? Hex] | [? Hex]];
      destruct (Qabs_cases dy) as [[? Hey] | [? Hey]];
      rewrite Hex in Hx; rewrite Hey in Hy; split; nra. }
  destruct (Qlt_le_dec h (0.7 * (b * 0.02))) as [Hlt |]; [| assumption].
  exfalso. nra.
Qed.

Lemma float_succ (k : nat) :
  Py.float (Z.of_nat (S k)) == Py.float (Z.of_nat k) + 1.
Proof.
  unfold Py.float. rewrite Nat2Z.inj_succ. unfold Z.succ.
  rewrite inject_Z_plus. reflexivity.
Qed.

Lemma path_length_lower (k : nat) :
  Py.float (Z.of_nat k) * (0.7 * (b * step_theta)) <= path_length a b k.
Proof.
  induction k as [| k IH].
  - change (path_length a b 0) with 0. change (Py.float (Z.of_nat 0)) with 0. lra.
  - rewrite float_succ. change (path_length a b (S k)) with (path_length a b k + chord a b k).
    pose proof (chord_lower k). lra.
Qed.

Lemma target_at_eq (n : nat) : target_at cs n == Py.float (Z.of_nat n) * cs.
Proof.
  induction n as [| n IH].
  - change (target_at cs 0) with 0. change (Py.float (Z.of_nat 0)) with 0. lra.
  - rewrite float_succ. change (target_at cs (S n)) with (target_at cs n + cs). lra.
Qed.

Lemma target_at_mono (n m : nat) :
  (n <= m)%nat -> target_at cs n <= target_at cs m.
Proof.
  induction 1 as [| m Hle IH]; [lra |]. simpl. lra.
Qed.

Lemma points_on_path_snoc (pts : list point) (p : point) :
  points_on_path a b cs pts ->
  on_path a b p (target_at cs (length pts)) ->
  points_on_path a b cs (pts ++ [p]).
Proof.
  intros Hpts Hp i q Hq.
  destruct (Nat.lt_ge_cases i (length pts)) as [Hi | Hi].
  - rewrite nth_error_app1 in Hq by assumption. now apply Hpts.
  - rewrite nth_error_app2 in Hq by assumption.
    destruct (i - length pts)%nat as [| d] eqn:Ed; simpl in Hq.
    + injection Hq as <-. replace i with (length pts) by lia. exact Hp.
    + destruct d; discriminate.
Qed.

(** The inner loop, entered after sample [S j] was reached. *)
Lemma place_chars_spec (j room : nat) (pts : list point) (target : Q) :
  target = target_at cs (length pts) ->
  points_on_path a b cs pts ->
  path_length a b j <= target ->
  let r := place_chars room pts target
             (path_length a b (S j)) (chord a b j)
             (sample_x a b (S j) - sample_x a b j)
             (sample_y a b (S j) - sample_y a b j)
             (sample_x a b j) (sample_y a b j) (theta_at (S j)) cs in
  snd r = target_at cs (length (fst r))
  /\ points_on_path a b cs (fst r)
  /\ (length pts <= length (fst r) <= length pts + room)%nat
  /\ ((length (fst r) = length pts + room)%nat
      \/ path_length a b (S j) < snd r).
Proof.
  revert pts target. induction room as [| room IH]; intros pts target Ht Hpts Hlow.
  - cbn [place_chars fst snd]. repeat split; auto; lia.
  - cbn [place_chars]. unfold Py.geb. cbn [path_length].
    destruct (leb_spec target (path_length a b j + chord a b j)) as [Hge | Hlt].
    + match goal with |- context [place_chars room (pts ++ [?p]) _] =>
        set (pt := p) end.
      assert (on_path a b pt (target_at cs (length pts))) as Hon.
      { exists j. eexists. split; [| split; [reflexivity |]].
        - pose proof (chord_nonneg j) as Hds.
          destruct (eqb_spec (chord a b j) 0) as [Hz | Hnz]; cbn [negb]; [lra |].
          assert ((path_length a b j + chord a b j - target) / chord a b j
                  * chord a b j
                  == path_length a b j + chord a b j - target) as Hq
            by (field; assumption).
          set (q := (path_length a b j + chord a b j - target) / chord a b j) in *.
          clearbody q. clear pt. split; nra.
        - rewrite <- Ht.
          pose proof (chord_nonneg j) as Hds.
          destruct (eqb_spec (chord a b j) 0) as [Hz | Hnz]; cbn [negb]; [lra |].
          field. assumption. }
      specialize (IH (pts ++ [pt]) (target + cs)).
      rewrite length_app in IH. cbn [length] in IH.
      rewrite Nat.add_1_r in IH. cbn [target_at path_length] in IH.
      destruct IH as (H1 & H2 & H3 & H4).
      * now rewrite Ht.
      * now apply points_on_path_snoc.
      * lra.
      * split; [exact H1 |]. split; [exact H2 |].
        split; [lia |]. destruct H4 as [H4 | H4]; [left; lia | right; exact H4].
    + cbn [fst snd]. repeat split; auto; lia.
Qed.

Lemma spiral_init_inv : spiral_inv a b cs N 0 (spiral_init a b).
Proof.
  unfold spiral_inv, spiral_init. simpl.
  repeat split; try reflexivity; try lia.
  - intros [| i] p Hp; discriminate.
  - right. lra.
Qed.

Lemma spiral_step_inv (j : nat) (st : spiral_state) :
  spiral_inv a b cs N j st ->
  spiral_inv a b cs N (S j) (spiral_step N a b cs st).
Proof.
  intros (Hth & Hx & Hy & Hacc & Htg & Hlen & Hpts & Hfull).
  unfold spiral_step. rewrite Hth, Hx, Hy, Hacc.
  change (theta_at j + step_theta) with (theta_at (S j)).
  change ((a + b * theta_at (S j)) * cos (theta_at (S j)))
    with (sample_x a b (S j)).
  change ((a + b * theta_at (S j)) * sin (theta_at (S j)))
    with (sample_y a b (S j)).
  change (hypot (sample_x a b (S j) - sample_x a b j)
                (sample_y a b (S j) - sample_y a b j)) with (chord a b j).
  change (path_length a b j + chord a b j) with (path_length a b (S j)).
  set (room := Z.to_nat (N - Z.of_nat (length (points st)))).
  destruct Hfull as [Hfull | Hlow].
  - assert (room = 0%nat) as -> by (unfold room; lia).
    simpl. unfold spiral_inv. simpl. repeat split; auto.
  - pose proof (place_chars_spec j room (points st) (target_length st)
                  Htg Hpts Hlow) as Hspec.
    simpl in Hspec.
    destruct (place_chars room (points st) (target_length st) _ _ _ _ _ _ _ _)
      as [pts' tgt'] eqn:E in Hspec |- *.
    simpl in Hspec. destruct Hspec as (H1 & H2 & H3 & H4).
    unfold spiral_inv. simpl. repeat split; auto.
    + unfold room in H3. lia.
    + destruct H4 as [H4 | H4]; [left; unfold room in H4; lia | right; lra].
Qed.

Lemma spiral_loop_terminates (fuel j : nat) (st : spiral_state) :
  spiral_inv a b cs N j st ->
  target_at cs (Z.to_nat N) < path_length a b (j + fuel) ->
  exists pts,
    spiral_loop fuel N a b cs st = Returns pts
    /\ Z.of_nat (length pts) = Z.max 0 N
    /\ points_on_path a b cs pts.
Proof.
  revert j st. induction fuel as [| fuel IH]; intros j st Hinv Hfar.
  - simpl. destruct (Z.ltb_spec (Z.of_nat (length (points st))) N) as [Hlt | Hge].
    + exfalso. destruct Hinv as (_ & _ & _ & _ & Htg & _ & _ & [Hfull | Hlow]);
        [lia |].
      rewrite Nat.add_0_r in Hfar. rewrite Htg in Hlow.
      pose proof (target_at_mono (length (points st)) (Z.to_nat N) ltac:(lia)).
      lra.
    + exists (points st). destruct Hinv as (_ & _ & _ & _ & _ & Hlen & Hpts & _).
      repeat split; [lia | exact Hpts].
  - simpl. destruct (Z.ltb_spec (Z.of_nat (length (points st))) N) as [Hlt | Hge].
    + apply (IH (S j)).
      * now apply spiral_step_inv.
      * now rewrite Nat.add_succ_r in Hfar.
    + exists (points st). destruct Hinv as (_ & _ & _ & _ & _ & Hlen & Hpts & _).
      repeat split; [lia | exact Hpts].
Qed.

Lemma spiral_loop_more_fuel (fuel fuel' : nat) (st : spiral_state) (pts : list point) :
  spiral_loop fuel N a b cs st = Returns pts -> (fuel <= fuel')%nat ->
  spiral_loop fuel' N a b cs st = Returns pts.
Proof.
  revert fuel' st. induction fuel as [| fuel IH]; intros fuel' st Hrun Hle.
  - simpl in Hrun. destruct fuel'; simpl;
      destruct (Z.of_nat (length (points st)) <? N)%Z; try discriminate; assumption.
  - destruct fuel' as [| fuel']; [lia |]. simpl in *.
    destruct (Z.of_nat (length (points st)) <? N)%Z; [| assumption].
    apply IH; [assumption | lia].
Qed.

End SpiralFacts.

Section SpiralDefaults.

Context {M : Libm} {L : LibmLaws M}.

Lemma default_b_step : 1 # 200 <= 0.7 * (default_b * step_theta).
Proof. vm_compute. discriminate. Qed.

Lemma default_b_nonneg : 0 <= default_b.
Proof. vm_compute. discriminate. Qed.

Lemma on_path_length_eq (a b : Q) (p : point) (s s' : Q) :
  s == s' -> on_path a b p s -> on_path a b p s'.
Proof.
  intros Hs (k & t & Ht & Hp & Hl). exists k, t.
  repeat split; try tauto. now rewrite <- Hs.
Qed.

Lemma generate_spiral_positions_returns (num_chars : Z) :
  exists pts,
    (forall fuel, (200 * Z.to_nat num_chars + 1 <= fuel)%nat ->
       generate_spiral_positions fuel num_chars = Returns pts)
    /\ Z.of_nat (length pts) = Z.max 0 num_chars
    /\ points_on_path INITIAL_RADIUS default_b CHAR_SPACING pts.
Proof.
  set (K := (200 * Z.to_nat num_chars + 1)%nat).
  assert (0 <= INITIAL_RADIUS) as Ha by (unfold INITIAL_RADIUS; lra).
  assert (0 <= CHAR_SPACING) as Hcs by (unfold CHAR_SPACING; lra).
  destruct (spiral_loop_terminates num_chars INITIAL_RADIUS default_b CHAR_SPACING
              Hcs K 0 (spiral_init INITIAL_RADIUS default_b))
    as (pts & Hrun & Hlen & Hpts).
  - apply spiral_init_inv.
  - simpl Nat.add.
    pose proof (path_length_lower INITIAL_RADIUS default_b
                  Ha default_b_nonneg K) as Hlow.
    pose proof default_b_step as Hstep.
    rewrite (target_at_eq CHAR_SPACING (Z.to_nat num_chars)).
    assert (Py.float (Z.of_nat K)
            == 200 * Py.float (Z.of_nat (Z.to_nat num_chars)) + 1) as HK.
    { unfold K, Py.float. rewrite Nat2Z.inj_add, Nat2Z.inj_mul.
      rewrite inject_Z_plus, inject_Z_mult. reflexivity. }
    assert (0 <= Py.float (Z.of_nat (Z.to_nat num_chars))) as Hn.
    { change 0 with (Py.float 0). apply float_le. lia. }
    unfold CHAR_SPACING.
    set (c := 0.7 * (default_b * step_theta)) in *. clearbody c.
    set (n := Py.float (Z.of_nat (Z.to_nat num_chars))) in *. clearbody n.
    set (k := Py.float (Z.of_nat K)) in *. clearbody k.
    set (pl := path_length INITIAL_RADIUS default_b K) in *. clearbody pl.
    nra.
  - exists pts. repeat split; try assumption.
    intros fuel Hfuel. unfold generate_spiral_positions, generate_spiral_positions_with.
    now apply (spiral_loop_more_fuel num_chars _ _ _ K).
Qed.

End SpiralDefaults.

(** ** Euclidean length of the sampled path *)

Lemma sq_le_le (x y : Q) : 0 <= x -> 0 <= y -> x * x <= y * y -> x <= y.
Proof. intros Hx Hy H. destruct (Qlt_le_dec y x); [nra | assumption]. Qed.

Lemma abs_sq (x : Q) : 0 <= Py.abs x /\ Py.abs x * Py.abs x == x * x.
Proof. py_cases; split; try lra; ring. Qed.

Lemma newton_step (v s tau : Q) :
  0 <= v -> 0 < s -> 0 <= tau -> v <= s * s -> s * s <= (1 + tau) * v ->
  0 < newton_sqrt v s
  /\ v <= newton_sqrt v s * newton_sqrt v s
  /\ newton_sqrt v s * newton_sqrt v s <= (1 + tau * tau / 4) * v.
Proof.
  intros Hv Hs Htau Hlow Hup. unfold newton_sqrt.
  assert (v / s * s == v) as Hw by (rewrite Qmult_comm; apply Qmult_div_r; lra).
  assert (0 <= v / s) as Hw0 by (apply Qle_shift_div_l; [exact Hs | lra]).
  set (w := v / s) in *. clearbody w.
  pose proof (Qsquare_nonneg (s - w)) as Hsq.
  assert ((s - w) * (s - w) <= tau * tau * v) as Hd.
  { assert ((s - w) * s == s * s - v) as Hm by lra.
    assert (0 <= (s - w) * s) as Hm0 by lra.
    assert ((s - w) * s <= tau * v) as Hm1 by lra.
    assert (0 <= tau * v) as Htv by now apply Qmult_le_0_compat.
    assert ((s - w) * s * ((s - w) * s) <= tau * v * (tau * v)) as Hmm by nra.
    assert (0 <= tau * tau * v * (s * s - v)) as P.
    { apply Qmult_le_0_compat; [| lra].
      apply Qmult_le_0_compat; [apply Qsquare_nonneg | exact Hv]. }
    assert (0 < s * s) as Hss by nra.
    destruct (Qlt_le_dec (tau * tau * v) ((s - w) * (s - w))) as [Hlt |];
      [| assumption].
    exfalso.
    assert (0 < ((s - w) * (s - w) - tau * tau * v) * (s * s)) as Hpos
      by (apply Qmult_lt_0_compat; lra).
    assert (((s - w) * (s - w) - tau * tau * v) * (s * s)
            == (s - w) * s * ((s - w) * s) - tau * tau * v * (s * s)) as e by ring.
    assert (tau * v * (tau * v) == tau * tau * v * v) as e2 by ring.
    assert (tau * tau * v * (s * s - v)
            == tau * tau * v * (s * s) - tau * tau * v * v) as e3 by ring.
    lra. }
  repeat split; inv_consts; nra.
Qed.

Lemma euclid_hypot_bounds (x y : Q) :
  0 <= @hypot euclid_libm x y
  /\ x * x + y * y <= @hypot euclid_libm x y * @hypot euclid_libm x y
  /\ @hypot euclid_libm x y * @hypot euclid_libm x y
     <= (1 + length_tol) * (x * x + y * y).
Proof.
  simpl.
  destruct (abs_sq x) as [HX HX2]. destruct (abs_sq y) as [HY HY2].
  set (X := Py.abs x) in *. set (Y := Py.abs y) in *. clearbody X Y.
  pose proof (Qsquare_nonneg x) as Hx2. pose proof (Qsquare_nonneg y) as Hy2.
  set (v := x * x + y * y) in *.
  assert (v == X * X + Y * Y) as Hv by (unfold v; lra).
  assert (0 <= v) as Hv0 by (unfold v; lra).
  clearbody v. clear Hx2 Hy2 HX2 HY2. unfold length_tol.
  destruct (eqb_spec (X + Y) 0) as [Hz | Hnz].
  - assert (X == 0) as HX0 by lra. assert (Y == 0) as HY0 by lra.
    rewrite HX0, HY0 in Hv. repeat split; lra.
  - assert (0 < X + Y) as Hs by lra.
    assert (0 <= X * Y) as Hxy by now apply Qmult_le_0_compat.
    pose proof (Qsquare_nonneg (X - Y)) as Hsq.
    destruct (newton_step v (X + Y) 1 Hv0 Hs ltac:(lra) ltac:(nra) ltac:(nra))
      as (H1 & L1 & U1).
    set (s1 := newton_sqrt v (X + Y)) in *. clearbody s1.
    destruct (newton_step v s1 0.25 Hv0 H1 ltac:(lra) L1 ltac:(qlra))
      as (H2 & L2 & U2).
    set (s2 := newton_sqrt v s1) in *. clearbody s2.
    destruct (newton_step v s2 0.015625 Hv0 H2 ltac:(lra) L2 ltac:(qlra))
      as (H3 & L3 & U3).
    set (s3 := newton_sqrt v s2) in *. clearbody s3.
    split; [lra |]. split; [exact L3 | qlra].
Qed.

#[export] Instance euclid_libm_laws : LibmLaws euclid_libm.
Proof.
  pose proof euclid_hypot_bounds as Hh.
  constructor.
  - apply (@cos_sin_unit rational_libm rational_libm_laws).
  - intros x y. destruct (Hh x y) as (H0 & H2 & _).
    apply sq_le_le; [apply Qabs_nonneg | exact H0 |].
    pose proof (Qsquare_nonneg y).
    destruct (Qabs_cases x) as [[? ->] | [? ->]]; nra.
  - intros x y. destruct (Hh x y) as (H0 & H2 & _).
    apply sq_le_le; [apply Qabs_nonneg | exact H0 |].
    pose proof (Qsquare_nonneg x).
    destruct (Qabs_cases y) as [[? ->] | [? ->]]; nra.
  - apply (@exp_nonneg rational_libm rational_libm_laws).
  - apply (@exp_below_one rational_libm rational_libm_laws).
Qed.

Lemma rational_turn_bound (t h : Q) :
  (@cos rational_libm (t + h) - @cos rational_libm t)
  * (@cos rational_libm (t + h) - @cos rational_libm t)
  + (@sin rational_libm (t + h) - @sin rational_libm t)
    * (@sin rational_libm (t + h) - @sin rational_libm t)
  <= h * h.
Proof.
  simpl.
  set (A := 1 + t / 2 * (t / 2)). set (A' := 1 + (t + h) / 2 * ((t + h) / 2)).
  assert (1 <= A) as HA by (unfold A; pose proof (Qsquare_nonneg (t / 2)); lra).
  assert (1 <= A') as HA'
    by (unfold A'; pose proof (Qsquare_nonneg ((t + h) / 2)); lra).
  assert (((1 - (t + h) / 2 * ((t + h) / 2)) / A' - (1 - t / 2 * (t / 2)) / A)
          * ((1 - (t + h) / 2 * ((t + h) / 2)) / A' - (1 - t / 2 * (t / 2)) / A)
          + (2 * ((t + h) / 2) / A' - 2 * (t / 2) / A)
            * (2 * ((t + h) / 2) / A' - 2 * (t / 2) / A)
          == h * h / (A * A')) as Heq.
  { unfold A, A'. field. split.
    - pose proof (Qsquare_nonneg (t + h)). nra.
    - pose proof (Qsquare_nonneg t). nra. }
  rewrite Heq. clear Heq. clearbody A A'.
  assert (1 <= A * A') as HAA by nra.
  apply Qle_shift_div_r; [lra |].
  pose proof (Qsquare_nonneg h). nra.
Qed.

#[export] Instance euclid_libm_euclid : EuclidLaws euclid_libm.
Proof.
  constructor.
  - intros x y. apply euclid_hypot_bounds.
  - intros x y. apply euclid_hypot_bounds.
  - apply rational_turn_bound.
Qed.

Lemma vec_sum_bound (vx vy wx wy H K : Q) :
  0 <= H -> 0 <= K ->
  vx * vx + vy * vy <= H * H -> wx * wx + wy * wy <= K * K ->
  (vx + wx) * (vx + wx) + (vy + wy) * (vy + wy) <= (H + K) * (H + K).
Proof.
  intros HH HK Hv Hw.
  assert (vx * wx + vy * wy <= H * K) as Hdot.
  { destruct (Qlt_le_dec (vx * wx + vy * wy) 0) as [Hneg | Hpos].
    - assert (0 <= H * K) by now apply Qmult_le_0_compat. lra.
    - apply sq_le_le; [assumption | now apply Qmult_le_0_compat |].
      pose proof (Qsquare_nonneg (vx * wy - vy * wx)) as Hlag.
      pose proof (Qsquare_nonneg vx). pose proof (Qsquare_nonneg vy).
      pose proof (Qsquare_nonneg wx). pose proof (Qsquare_nonneg wy).
      assert (0 <= (H * H - (vx * vx + vy * vy)) * (K * K)) as P1
        by (apply Qmult_le_0_compat; [lra | apply Qsquare_nonneg]).
      assert (0 <= (vx * vx + vy * vy) * (K * K - (wx * wx + wy * wy))) as P2
        by (apply Qmult_le_0_compat; lra).
      assert ((vx * wx + vy * wy) * (vx * wx + vy * wy)
              == (vx * vx + vy * vy) * (wx * wx + wy * wy)
                 - (vx * wy - vy * wx) * (vx * wy - vy * wx)) as Hid by ring.
      assert (H * K * (H * K) == H * H * (K * K)) as Hid2 by ring.
      lra. }
  lra.
Qed.

Section SpiralGeometry.

Context {M : Libm} {L : LibmLaws M} {E : EuclidLaws M}.
Variables (a b : Q).
Hypothesis Ha : 0 <= a.
Hypothesis Hb : 0 <= b.

(** The straight line between two consecutive samples of the spiral is
    no longer than the angular step times the radius plus the radial
    rate. *)
Lemma sample_step_upper (k : nat) :
  (sample_x a b (S k) - sample_x a b k) * (sample_x a b (S k) - sample_x a b k)
  + (sample_y a b (S k) - sample_y a b k) * (sample_y a b (S k) - sample_y a b k)
  <= (step_theta * (a + b * theta_at (S k) + b))
     * (step_theta * (a + b * theta_at (S k) + b)).
Proof.
  unfold sample_x, sample_y. simpl theta_at.
  pose proof (theta_at_nonneg k) as Ht.
  set (th := theta_at k) in *. clearbody th.
  pose proof (cos_sin_unit th) as H1.
  pose proof (cos_sin_unit (th + step_theta)) as H2.
  pose proof (turn_bound th step_theta) as Hturn.
  set (c := cos th) in *. set (s := sin th) in *.
  set (c' := cos (th + step_theta)) in *. set (s' := sin (th + step_theta)) in *.
  clearbody c s c' s'. unfold step_theta in *.
  assert (0 <= a + b * th) as Hr by nra.
  assert (a + b * (th + 0.02) == a + b * th + b * 0.02) as Hr' by ring.
  set (r := a + b * th) in *. set (r' := a + b * (th + 0.02)) in *.
  clearbody r r'.
  assert ((r' * c' - r * c) * (r' * c' - r * c)
          + (r' * s' - r * s) * (r' * s' - r * s)
          == r' * r' * (c' * c' + s' * s') + r * r * (c * c + s * s)
             - 2 * (r * r') * (c * c' + s * s')) as dxdy by ring.
  rewrite dxdy, H1, H2.
  assert ((c' - c) * (c' - c) + (s' - s) * (s' - s)
          == (c' * c' + s' * s') + (c * c + s * s) - 2 * (c * c' + s * s'))
    as Hexp by ring.
  rewrite Hexp, H1, H2 in Hturn.
  assert (0 <= r * r' * (0.02 * 0.02 - (2 - 2 * (c * c' + s * s')))) as P1.
  { apply Qmult_le_0_compat; [| lra]. apply Qmult_le_0_compat; nra. }
  assert (0 <= r' * (r' - r)) as P2 by (apply Qmult_le_0_compat; nra).
  assert (0 <= b * r') as P3 by (apply Qmult_le_0_compat; nra).
  nra.
Qed.

(** A chord of the sampled path is bounded by the angular step. *)
Lemma chord_upper (k : nat) :
  chord a b k
  <= (1 + length_tol) * (step_theta * (a + b * theta_at (S k) + b)).
Proof.
  pose proof (sample_step_upper k) as Hstep. unfold chord.
  pose proof (theta_at_nonneg (S k)) as Ht.
  match goal with |- hypot ?x ?y <= _ =>
    pose proof (hypot_sq_upper x y) as Hup;
    pose proof (hypot_nonneg x y) as Hh;
    set (dx := x) in *; set (dy := y) in *;
    set (h := hypot dx dy) in *; clearbody h end.
  assert (0 <= step_theta * (a + b * theta_at (S k) + b)) as HB
    by (unfold step_theta; nra).
  set (B := step_theta * (a + b * theta_at (S k) + b)) in *. clearbody B.
  set (v := dx * dx + dy * dy) in *. clearbody v. clear dx dy.
  unfold length_tol in *.
  apply sq_le_le; [assumption | nra |].
  pose proof (Qsquare_nonneg B). nra.
Qed.

(** A chord is at least as long as the radial gain of one step. *)
Lemma chord_lower_step (k : nat) : b * step_theta <= chord a b k.
Proof.
  unfold chord.
  match goal with |- _ <= hypot ?x ?y =>
    pose proof (hypot_sq_lower x y) as Hlow;
    pose proof (hypot_nonneg x y) as Hh end.
  apply sq_le_le; [unfold step_theta; nra | exact Hh |].
  eapply Qle_trans; [| exact Hlow]. clear Hlow Hh.
  unfold sample_x, sample_y. simpl theta_at.
  pose proof (theta_at_nonneg k) as Ht.
  set (th := theta_at k) in *. clearbody th.
  pose proof (cos_sin_unit th) as H1.
  pose proof (cos_sin_unit (th + step_theta)) as H2.
  set (c := cos th) in *. set (s := sin th) in *.
  set (c' := cos (th + step_theta)) in *. set (s' := sin (th + step_theta)) in *.
  clearbody c s c' s'. unfold step_theta in *.
  assert (0 <= a + b * th) as Hr by nra.
  assert (a + b * (th + 0.02) == a + b * th + b * 0.02) as Hr' by ring.
  set (r := a + b * th) in *. set (r' := a + b * (th + 0.02)) in *.
  clearbody r r'.
  assert ((r' * c' - r * c) * (r' * c' - r * c)
          + (r' * s' - r * s) * (r' * s' - r * s)
          == r' * r' * (c' * c' + s' * s') + r * r * (c * c + s * s)
             - 2 * (r * r') * (c * c' + s * s')) as dxdy by ring.
  rewrite dxdy, H1, H2.
  assert (c * c' + s * s' <= 1) as Hcs1.
  { pose proof (Qsquare_nonneg (c - c')). pose proof (Qsquare_nonneg (s - s')). lra. }
  assert (0 <= r * r' * (1 - (c * c' + s * s'))) as P.
  { apply Qmult_le_0_compat; [| lra]. apply Qmult_le_0_compat; nra. }
  nra.
Qed.

(** The straight line between two samples is no longer than the path
    between them. *)
Lemma samples_straight (k m : nat) :
  0 <= path_length a b (m + k) - path_length a b k
  /\ (sample_x a b (m + k) - sample_x a b k) * (sample_x a b (m + k) - sample_x a b k)
     + (sample_y a b (m + k) - sample_y a b k) * (sample_y a b (m + k) - sample_y a b k)
     <= (path_length a b (m + k) - path_length a b k)
        * (path_length a b (m + k) - path_length a b k).
Proof.
  induction m as [| m [IH0 IH]].
  - simpl. split; [lra |]. ring_simplify. lra.
  - cbn [Nat.add path_length].
    pose proof (chord_nonneg a b (m + k)) as Hc.
    pose proof (hypot_sq_lower (sample_x a b (S (m + k)) - sample_x a b (m + k))
                  (sample_y a b (S (m + k)) - sample_y a b (m + k))) as Hlow.
    fold (chord a b (m + k)) in Hlow.
    split; [lra |].
    pose proof (vec_sum_bound _ _ _ _ _ _ IH0 Hc IH Hlow) as Hsum.
    set (X := sample_x a b (S (m + k))) in *. set (Y := sample_y a b (S (m + k))) in *.
    set (X1 := sample_x a b (m + k)) in *. set (Y1 := sample_y a b (m + k)) in *.
    set (X0 := sample_x a b k) in *. set (Y0 := sample_y a b k) in *.
    set (P1 := path_length a b (m + k)) in *. set (P0 := path_length a b k) in *.
    set (c := chord a b (m + k)) in *.
    clearbody X Y X1 Y1 X0 Y0 P1 P0 c.
    assert (X1 - X0 + (X - X1) == X - X0) as e1 by ring.
    assert (Y1 - Y0 + (Y - Y1) == Y - Y0) as e2 by ring.
    assert (P1 - P0 + c == P1 + c - P0) as e3 by ring.
    rewrite e1, e2, e3 in Hsum. exact Hsum.
Qed.

Lemma scaled_chord_bound (k : nat) (u : Q) :
  0 <= u ->
  0 <= u * chord a b k
  /\ u * (sample_x a b (S k) - sample_x a b k)
       * (u * (sample_x a b (S k) - sample_x a b k))
     + u * (sample_y a b (S k) - sample_y a b k)
       * (u * (sample_y a b (S k) - sample_y a b k))
     <= u * chord a b k * (u * chord a b k).
Proof.
  intros Hu. pose proof (chord_nonneg a b k) as Hc.
  pose proof (hypot_sq_lower (sample_x a b (S k) - sample_x a b k)
                (sample_y a b (S k) - sample_y a b k)) as Hlow.
  fold (chord a b k) in Hlow.
  set (dx := sample_x a b (S k) - sample_x a b k) in *.
  set (dy := sample_y a b (S k) - sample_y a b k) in *.
  set (c := chord a b k) in *. clearbody dx dy c.
  split; [now apply Qmult_le_0_compat |].
  assert (0 <= u * u * (c * c - (dx * dx + dy * dy))) as P
    by (apply Qmult_le_0_compat; [apply Qsquare_nonneg | lra]).
  nra.
Qed.

(** Two points of the path on different chords. *)
Lemma path_points_straight (k m : nat) (t t' : Q) :
  0 <= t <= 1 -> 0 <= t' <= 1 ->
  let k' := (m + S k)%nat in
  let px := sample_x a b k + t * (sample_x a b (S k) - sample_x a b k) in
  let py := sample_y a b k + t * (sample_y a b (S k) - sample_y a b k) in
  let qx := sample_x a b k' + t' * (sample_x a b (S k') - sample_x a b k') in
  let qy := sample_y a b k' + t' * (sample_y a b (S k') - sample_y a b k') in
  let s := path_length a b k + t * chord a b k in
  let s' := path_length a b k' + t' * chord a b k' in
  (qx - px) * (qx - px) + (qy - py) * (qy - py) <= (s' - s) * (s' - s).
Proof.
  intros Ht Ht' k' px py qx qy s s'.
  destruct (scaled_chord_bound k (1 - t) ltac:(lra)) as [H1 V1].
  destruct (samples_straight (S k) m) as [H2 V2]. fold k' in H2, V2.
  destruct (scaled_chord_bound k' t' ltac:(lra)) as [H3 V3].
  pose proof (vec_sum_bound _ _ _ _ _ _ H1 H2 V1 V2) as V12.
  assert (0 <= (1 - t) * chord a b k
               + (path_length a b k' - path_length a b (S k))) as H12 by lra.
  pose proof (vec_sum_bound _ _ _ _ _ _ H12 H3 V12 V3) as V.
  cbn [path_length] in V. unfold px, py, qx, qy, s, s'.
  set (X0 := sample_x a b k) in *. set (Y0 := sample_y a b k) in *.
  set (X1 := sample_x a b (S k)) in *. set (Y1 := sample_y a b (S k)) in *.
  set (X2 := sample_x a b k') in *. set (Y2 := sample_y a b k') in *.
  set (X3 := sample_x a b (S k')) in *. set (Y3 := sample_y a b (S k')) in *.
  set (P0 := path_length a b k) in *. set (P2 := path_length a b k') in *.
  set (c := chord a b k) in *. set (c' := chord a b k') in *.
  clearbody X0 Y0 X1 Y1 X2 Y2 X3 Y3 P0 P2 c c'.
  assert ((1 - t) * (X1 - X0) + (X2 - X1) + t' * (X3 - X2)
          == X2 + t' * (X3 - X2) - (X0 + t * (X1 - X0))) as e1 by ring.
  assert ((1 - t) * (Y1 - Y0) + (Y2 - Y1) + t' * (Y3 - Y2)
          == Y2 + t' * (Y3 - Y2) - (Y0 + t * (Y1 - Y0))) as e2 by ring.
  assert ((1 - t) * c + (P2 - (P0 + c)) + t' * c'
          == P2 + t' * c' - (P0 + t * c)) as e3 by ring.
  rewrite e1, e2, e3 in V. exact V.
Qed.

(** Two points of the path are no further apart in a straight line
    than along the path. *)
Lemma on_path_straight (p q : point) (s s' : Q) :
  on_path a b p s -> on_path a b q s' ->
  dist_sq p q <= (s' - s) * (s' - s).
Proof.
  intros (k & t & Ht & Hp & Hs) (k' & t' & Ht' & Hq & Hs').
  subst p q. unfold dist_sq. rewrite Hs, Hs'.
  destruct (Nat.lt_trichotomy k k') as [Hlt | [Heq | Hgt]].
  - replace k' with (k' - S k + S k)%nat by lia.
    apply (path_points_straight k (k' - S k) t t' Ht Ht').
  - subst k'. destruct (scaled_chord_bound k (Py.abs (t' - t))) as [_ V].
    { apply abs_sq. }
    destruct (abs_sq (t' - t)) as [_ Habs].
    set (u := Py.abs (t' - t)) in *. clearbody u.
    set (X0 := sample_x a b k) in *. set (Y0 := sample_y a b k) in *.
    set (X1 := sample_x a b (S k)) in *. set (Y1 := sample_y a b (S k)) in *.
    set (P0 := path_length a b k) in *. set (c := chord a b k) in *.
    clearbody X0 Y0 X1 Y1 P0 c.
    assert (u * (X1 - X0) * (u * (X1 - X0)) == u * u * ((X1 - X0) * (X1 - X0)))
      as e1 by ring.
    assert (u * (Y1 - Y0) * (u * (Y1 - Y0)) == u * u * ((Y1 - Y0) * (Y1 - Y0)))
      as e2 by ring.
    assert (u * c * (u * c) == u * u * (c * c)) as e3 by ring.
    rewrite e1, e2, e3, Habs in V.
    assert ((X0 + t' * (X1 - X0) - (X0 + t * (X1 - X0)))
            * (X0 + t' * (X1 - X0) - (X0 + t * (X1 - X0)))
            + (Y0 + t' * (Y1 - Y0) - (Y0 + t * (Y1 - Y0)))
              * (Y0 + t' * (Y1 - Y0) - (Y0 + t * (Y1 - Y0)))
            == (t' - t) * (t' - t) * ((X1 - X0) * (X1 - X0))
               + (t' - t) * (t' - t) * ((Y1 - Y0) * (Y1 - Y0))) as e4 by ring.
    assert ((P0 + t' * c - (P0 + t * c)) * (P0 + t' * c - (P0 + t * c))
            == (t' - t) * (t' - t) * (c * c)) as e5 by ring.
    rewrite e4, e5. exact V.
  - pose proof (path_points_straight k' (k - S k') t' t Ht' Ht) as V.
    replace (k - S k' + S k')%nat with k in V by lia. cbv zeta in V.
    set (X0 := sample_x a b k) in *. set (Y0 := sample_y a b k) in *.
    set (X1 := sample_x a b (S k)) in *. set (Y1 := sample_y a b (S k)) in *.
    set (X2 := sample_x a b k') in *. set (Y2 := sample_y a b k') in *.
    set (X3 := sample_x a b (S k')) in *. set (Y3 := sample_y a b (S k')) in *.
    set (P0 := path_length a b k) in *. set (P2 := path_length a b k') in *.
    set (c := chord a b k) in *. set (c' := chord a b k') in *.
    clearbody X0 Y0 X1 Y1 X2 Y2 X3 Y3 P0 P2 c c'.
    nra.
Qed.

(** A point of the path is within one step of the spiral point whose
    angle it carries. *)
Lemma on_path_near_spiral (p : point) (s : Q) :
  on_path a b p s ->
  dist_sq (spiral_point a b (snd p)) p
  <= (step_theta * (a + b * snd p + b)) * (step_theta * (a + b * snd p + b)).
Proof.
  intros (k & t & Ht & Hp & _). subst p. unfold dist_sq, spiral_point. cbn [snd].
  pose proof (sample_step_upper k) as Hstep.
  fold (sample_x a b (S k)) (sample_y a b (S k)).
  set (X0 := sample_x a b k) in *. set (Y0 := sample_y a b k) in *.
  set (X1 := sample_x a b (S k)) in *. set (Y1 := sample_y a b (S k)) in *.
  set (B := step_theta * (a + b * theta_at (S k) + b)) in *.
  clearbody X0 Y0 X1 Y1 B.
  assert (0 <= (1 - (1 - t) * (1 - t))
               * ((X1 - X0) * (X1 - X0) + (Y1 - Y0) * (Y1 - Y0))) as P.
  { apply Qmult_le_0_compat; [nra |].
    pose proof (Qsquare_nonneg (X1 - X0)). pose proof (Qsquare_nonneg (Y1 - Y0)).
    lra. }
  nra.
Qed.

End SpiralGeometry.

Section SpiralSpacing.

Context {M : Libm} {L : LibmLaws M} {E : EuclidLaws M}.

(** C3.  For every text length the spiral builder terminates: from some
    amount of fuel on, the loop returns the same list.  The list has
    exactly [num_chars] points (none for [num_chars <= 0]).

    Arc length is measured along the path that the builder walks: the
    spiral [r = a + b * theta] sampled every [step_theta] radians, the
    samples joined by chords, with [hypot] the Euclidean length up to
    the tolerance [length_tol].  Then:
    - the point of index [i] lies on that path at path length
      [i * CHAR_SPACING], and within [step_theta * (r + b)] of the point
      of the spiral at the angle that the point carries;
    - consecutive points are exactly [CHAR_SPACING] apart along the
      path, and never further apart than [CHAR_SPACING] in a straight
      line;
    - the path follows the spiral as closely as the angular step makes
      it: every chord is at least [b * step_theta] long and no longer
      than [(1 + length_tol) * step_theta * (r + b)]. *)
Theorem C3_spiral_positions (num_chars : Z) :
  exists fuel pts,
    (forall fuel', (fuel <= fuel')%nat ->
       generate_spiral_positions fuel' num_chars = Returns pts)
    /\ Z.of_nat (length pts) = Z.max 0 num_chars
    /\ (forall i p, nth_error pts i = Some p ->
          on_path INITIAL_RADIUS default_b p
            (Py.float (Z.of_nat i) * CHAR_SPACING)
          /\ dist_sq (spiral_point INITIAL_RADIUS default_b (snd p)) p
             <= (step_theta * (INITIAL_RADIUS + default_b * snd p + default_b))
                * (step_theta * (INITIAL_RADIUS + default_b * snd p + default_b)))
    /\ (forall i p q,
          nth_error pts i = Some p -> nth_error pts (S i) = Some q ->
          (exists s s',
             on_path INITIAL_RADIUS default_b p s
             /\ on_path INITIAL_RADIUS default_b q s'
             /\ s' - s == CHAR_SPACING)
          /\ dist_sq p q <= CHAR_SPACING * CHAR_SPACING)
    /\ (forall k,
          default_b * step_theta <= chord INITIAL_RADIUS default_b k
          /\ chord INITIAL_RADIUS default_b k
             <= (1 + length_tol)
                * (step_theta
                   * (INITIAL_RADIUS + default_b * theta_at (S k) + default_b))).
Proof.
  assert (0 <= INITIAL_RADIUS) as Ha by (unfold INITIAL_RADIUS; lra).
  pose proof default_b_nonneg as Hb.
  destruct (generate_spiral_positions_returns num_chars) as (pts & Hrun & Hlen & Hpts).
  exists (200 * Z.to_nat num_chars + 1)%nat, pts.
  split; [exact Hrun |]. split; [exact Hlen |]. split; [| split].
  - intros i p Hp. split.
    + apply (on_path_length_eq _ _ _ (target_at CHAR_SPACING i)).
      * apply target_at_eq.
      * now apply Hpts.
    + apply (on_path_near_spiral _ _ Ha Hb p (target_at CHAR_SPACING i)).
      now apply Hpts.
  - intros i p q Hp Hq.
    pose proof (Hpts i p Hp) as Hpp. pose proof (Hpts (S i) q Hq) as Hqq.
    split.
    + exists (target_at CHAR_SPACING i), (target_at CHAR_SPACING (S i)).
      split; [exact Hpp |]. split; [exact Hqq |]. simpl. ring.
    + pose proof (on_path_straight _ _ p q _ _ Hpp Hqq) as Hd.
      cbn [target_at] in Hd.
      assert (target_at CHAR_SPACING i + CHAR_SPACING - target_at CHAR_SPACING i
              == CHAR_SPACING) as e by ring.
      rewrite e in Hd. exact Hd.
  - intros k. split; [now apply chord_lower_step | now apply chord_upper].
Qed.

End SpiralSpacing.

Lemma C3_spiral_positions_witness :
  exists fuel pts,
    @generate_spiral_positions euclid_libm fuel 3 = Returns pts
    /\ length pts = 3%nat
    /\ forall p q, nth_error pts 1 = Some p -> nth_error pts 2 = Some q ->
         dist_sq p q <= 1.
Proof.
  destruct (@C3_spiral_positions euclid_libm euclid_libm_laws
              euclid_libm_euclid 3)
    as (fuel & pts & Hrun & Hlen & _ & Hnext & _).
  exists fuel, pts. split; [apply Hrun; lia |]. split; [lia |].
  intros p q Hp Hq. apply (Hnext 1%nat p q Hp Hq).
Defined.

(** ** Loops with invariants *)

Lemma bind_Returns {A B : Type} (m : outcome A) (k : A -> outcome B) (b : B) :
  bind m k = Returns b -> exists a, m = Returns a /\ k a = Returns b.
Proof. destruct m; simpl; intros H; try discriminate. eauto. Qed.

(** If every pass of the body succeeds and carries the invariant one
    index further, the loop succeeds. *)
Lemma for_each_seq_total {S : Type} (P : nat -> S -> Prop)
    (body : nat -> S -> outcome S) (m k : nat) (s : S) :
  P k s ->
  (forall i s, (k <= i < k + m)%nat -> P i s ->
     exists s', body i s = Returns s' /\ P (Datatypes.S i) s') ->
  exists s', for_each (seq k m) body s = Returns s' /\ P (k + m)%nat s'.
Proof.
  revert k s. induction m as [| m IH]; intros k s Hs Hstep.
  - exists s. rewrite Nat.add_0_r. now split.
  - destruct (Hstep k s ltac:(lia) Hs) as (s1 & Hb & Hs1).
    destruct (IH (Datatypes.S k) s1 Hs1) as (s' & Hrun & Hs').
    + intros i s2 Hi. apply Hstep. lia.
    + exists s'. simpl. rewrite Hb. simpl. split; [exact Hrun |].
      now rewrite Nat.add_succ_r.
Qed.

(** If the loop succeeds, an invariant carried by every successful pass
    holds at the end. *)
Lemma for_each_seq_partial {S : Type} (P : nat -> S -> Prop)
    (body : nat -> S -> outcome S) (m k : nat) (s s' : S) :
  P k s ->
  (forall i s s', (k <= i < k + m)%nat -> P i s ->
     body i s = Returns s' -> P (Datatypes.S i) s') ->
  for_each (seq k m) body s = Returns s' -> P (k + m)%nat s'.
Proof.
  revert k s. induction m as [| m IH]; intros k s Hs Hstep Hrun.
  - simpl in Hrun. injection Hrun as <-. now rewrite Nat.add_0_r.
  - simpl in Hrun. apply bind_Returns in Hrun. destruct Hrun as (s1 & Hb & Hrun).
    rewrite Nat.add_succ_r. apply (IH (Datatypes.S k) s1).
    + apply (Hstep k s); [lia | assumption | assumption].
    + intros i s2 s3 Hi. apply Hstep. lia.
    + exact Hrun.
Qed.

(** ** Tangent angles *)

Section Tangent.

Context {M : Libm}.

Lemma compute_tangent_angles_returns (pts : list point) :
  (2 <= length pts)%nat ->
  exists angles,
    compute_tangent_angles pts = Returns angles /\ length angles = length pts.
Proof.
  intros Hn. unfold compute_tangent_angles.
  apply (for_each_seq_total (fun i angles => length angles = i) _ (length pts) 0 []);
    [reflexivity |].
  intros i angles Hi Hlen.
  assert (exists p1 p2,
    (if (i =? 0)%nat then
       p1 <- index pts i ;; p2 <- index pts (i + 1) ;; Returns (p1, p2)
     else if (i =? length pts - 1)%nat then
       p1 <- index pts (i - 1) ;; p2 <- index pts i ;; Returns (p1, p2)
     else
       p1 <- index pts (i - 1) ;; p2 <- index pts (i + 1) ;; Returns (p1, p2))
    = Returns (p1, p2)) as (p1 & p2 & Hp).
  { destruct (Nat.eqb_spec i 0); [| destruct (Nat.eqb_spec i (length pts - 1))].
    - destruct (index_lt pts i ltac:(lia)) as (p1 & -> & _).
      destruct (index_lt pts (i + 1) ltac:(lia)) as (p2 & -> & _).
      now exists p1, p2.
    - destruct (index_lt pts (i - 1) ltac:(lia)) as (p1 & -> & _).
      destruct (index_lt pts i ltac:(lia)) as (p2 & -> & _).
      now exists p1, p2.
    - destruct (index_lt pts (i - 1) ltac:(lia)) as (p1 & -> & _).
      destruct (index_lt pts (i + 1) ltac:(lia)) as (p2 & -> & _).
      now exists p1, p2. }
  rewrite Hp. destruct p1 as [[x1 y1] th1], p2 as [[x2 y2] th2]. simpl.
  eexists. split; [reflexivity |]. rewrite length_app. simpl. lia.
Qed.

(** The estimator reads [points[1]] for the first point, which a
    one-point list does not have. *)
Lemma compute_tangent_angles_single (p : point) :
  compute_tangent_angles [p] = Raises IndexError.
Proof. reflexivity. Qed.

End Tangent.

(** ** The zoom of a frame *)

Lemma or_else_positive (r : Q) : 0 <= r -> 0 < Py.or_else r 1e-6.
Proof. intros H. change 1e-6 with 0.000001. py_cases; lra. Qed.

Lemma fold_max_lower (l : list Q) (x : Q) : x <= fold_left Py.max l x.
Proof.
  revert x. induction l as [| y l IH]; intros x; simpl; [lra |].
  specialize (IH (Py.max x y)). revert IH. py_cases; lra.
Qed.

Lemma frame_scale_body (base_radii bulge_deltas : list Q) (i : nat)
    (visible s' : list Q) :
  Forall (fun r => 0 <= r) base_radii ->
  Forall (fun d => 0 <= d) bulge_deltas ->
  Forall (fun r => 0 < r) visible ->
  (r <- index base_radii i ;;
   let r0 := Py.or_else r 1e-6 in
   delta <- index bulge_deltas i ;;
   let r_adj := r0 * (1 + delta) in
   Returns (visible ++ [r_adj])) = Returns s' ->
  Forall (fun r => 0 < r) s' /\ length s' = S (length visible).
Proof.
  intros Hb Hd Hv Hrun.
  apply bind_Returns in Hrun. destruct Hrun as (r & Hr & Hrun).
  apply bind_Returns in Hrun. destruct Hrun as (delta & Hdelta & Hrun).
  injection Hrun as <-.
  apply index_Returns in Hr, Hdelta. apply nth_error_In in Hr, Hdelta.
  rewrite Forall_forall in Hb, Hd.
  specialize (Hb r Hr). specialize (Hd delta Hdelta).
  pose proof (or_else_positive r Hb) as Hr0.
  split.
  - apply Forall_app. split; [assumption |]. constructor; [| constructor].
    set (r0 := Py.or_else r 1e-6) in *. clearbody r0. nra.
  - rewrite length_app. simpl. lia.
Qed.

(** Whenever the zoom computation returns, the scale is the canvas
    radius divided by a positive [current_max_r]. *)
Lemma frame_scale_positive (base_radii bulge_deltas : list Q)
    (max_char_index max_r_canvas : Z) (scale : Q) :
  Forall (fun r => 0 <= r) base_radii ->
  Forall (fun d => 0 <= d) bulge_deltas ->
  (0 < max_r_canvas)%Z ->
  frame_scale base_radii bulge_deltas max_char_index max_r_canvas = Returns scale ->
  exists current_max_r,
    0 < current_max_r
    /\ scale = Py.float max_r_canvas / current_max_r
    /\ 0 < scale.
Proof.
  intros Hb Hd Hc Hrun. unfold frame_scale in Hrun.
  apply bind_Returns in Hrun. destruct Hrun as (visible & Hloop & Hrun).
  apply bind_Returns in Hrun. destruct Hrun as (cur & Hcur & Hrun).
  injection Hrun as <-.
  assert (Forall (fun r => 0 < r) visible) as Hvis.
  { unfold range in Hloop.
    apply (for_each_seq_partial (fun _ v => Forall (fun r => 0 < r) v)) in Hloop;
      [exact Hloop | constructor |].
    intros i v v' _ Hv Hbody.
    now destruct (frame_scale_body base_radii bulge_deltas i v v' Hb Hd Hv Hbody). }
  assert (0 < cur) as Hpos.
  { destruct visible as [| x l]; [injection Hcur as <-; lra |].
    simpl in Hcur. injection Hcur as <-.
    inversion Hvis; subst. pose proof (fold_max_lower l x). lra. }
  assert (0 < Py.float max_r_canvas) as Hm.
  { change 0 with (Py.float 0). unfold Py.float. rewrite <- Zlt_Qlt. exact Hc. }
  exists cur. split; [exact Hpos |].
  destruct (eqb_spec cur 0) as [Hz | Hnz]; simpl; [lra |].
  split; [reflexivity |]. apply Qlt_shift_div_l; lra.
Qed.

(** With enough radii and deltas the zoom computation returns. *)
Lemma frame_scale_returns (base_radii bulge_deltas : list Q)
    (max_char_index max_r_canvas : Z) :
  (Z.to_nat max_char_index <= length base_radii)%nat ->
  (Z.to_nat max_char_index <= length bulge_deltas)%nat ->
  exists scale,
    frame_scale base_radii bulge_deltas max_char_index max_r_canvas = Returns scale.
Proof.
  intros Hb Hd. unfold frame_scale, range.
  match goal with |- context [for_each _ ?body _] =>
    destruct (for_each_seq_total (fun i (v : list Q) => length v = i) body
                (Z.to_nat max_char_index) 0 []) as (visible & Hrun & Hlen)
  end.
  - reflexivity.
  - intros i v Hi Hv.
    destruct (index_lt base_radii i ltac:(lia)) as (r & -> & _).
    destruct (index_lt bulge_deltas i ltac:(lia)) as (d & -> & _).
    simpl. eexists. split; [reflexivity |]. rewrite length_app. simpl. lia.
  - rewrite Hrun. simpl. destruct visible as [| x l]; simpl; eauto.
Qed.

(** A character at the origin alone in view: its radius [0] enters the
    maximum as [1e-6], and the scale is [360 / 1e-6]. *)
Example frame_scale_at_origin :
  exists scale,
    frame_scale [0; 2] [0; 0.4] 1 360 = Returns scale /\ scale == 360000000.
Proof. eexists. split; [reflexivity | vm_compute; reflexivity]. Qed.

(** ** The glyph loop of a frame *)

Lemma firstn_succ_nth {A : Type} (l : list A) (i : nat) (x : A) :
  nth_error l i = Some x -> firstn (S i) l = firstn i l ++ [x].
Proof.
  revert i. induction l as [| y l IH]; intros [| i] H; try discriminate.
  - simpl in *. congruence.
  - simpl in H. simpl. f_equal. now apply IH.
Qed.

Lemma combine_snoc {A B : Type} (l1 : list A) (l2 : list B) (x : A) (y : B) :
  length l1 = length l2 ->
  combine (l1 ++ [x]) (l2 ++ [y]) = combine l1 l2 ++ [(x, y)].
Proof.
  revert l2. induction l1 as [| a l1 IH]; intros [| b l2] H; try discriminate.
  - reflexivity.
  - simpl. f_equal. apply IH. simpl in H. lia.
Qed.

Lemma expected_glyphs_succ (chars : list ascii) (i : nat) (ch : ascii) :
  nth_error chars i = Some ch ->
  expected_glyphs chars (S i)
  = expected_glyphs chars i
    ++ (if Ascii.eqb ch SPACE then [] else [(i, ch)]).
Proof.
  intros H. unfold expected_glyphs.
  rewrite (firstn_succ_nth chars i ch H), seq_S. simpl Nat.add.
  rewrite combine_snoc.
  - rewrite filter_app. simpl. now destruct (Ascii.eqb ch SPACE).
  - rewrite length_seq, length_firstn.
    apply nth_error_Some_lt in H. lia.
Qed.

Lemma frame_draws_spec (chars : list ascii) (positions : list point)
    (base_radii bulge_deltas tangent_angles : list Q)
    (num_chars : Z) (anomaly_frac : Q)
    (max_char_index canvas_center : Z) (scale : Q) (draws : list draw) :
  frame_draws chars positions base_radii bulge_deltas tangent_angles
    num_chars anomaly_frac max_char_index canvas_center scale = Returns draws ->
  map glyph_of draws = expected_glyphs chars (Z.to_nat max_char_index)
  /\ Forall (placed_at positions bulge_deltas canvas_center scale) draws.
Proof.
  unfold frame_draws, range. intros Hrun.
  apply (for_each_seq_partial
           (fun i ds => map glyph_of ds = expected_glyphs chars i
                        /\ Forall (placed_at positions bulge_deltas
                                     canvas_center scale) ds))
    in Hrun; [exact Hrun | split; [reflexivity | constructor] |].
  clear Hrun draws. intros i ds ds' _ [Hmap Hall] Hbody.
  apply bind_Returns in Hbody. destruct Hbody as (ch & Hch & Hbody).
  apply index_Returns in Hch.
  rewrite (expected_glyphs_succ chars i ch Hch).
  destruct (Ascii.eqb ch SPACE).
  - injection Hbody as <-. rewrite app_nil_r. now split.
  - apply bind_Returns in Hbody. destruct Hbody as ([[x0 y0] th] & Hpos & Hbody).
    apply bind_Returns in Hbody. destruct Hbody as (r & Hr & Hbody).
    apply bind_Returns in Hbody. destruct Hbody as (delta & Hdelta & Hbody).
    apply bind_Returns in Hbody. destruct Hbody as (angle & Hangle & Hbody).
    injection Hbody as <-.
    apply index_Returns in Hpos, Hdelta. split.
    + rewrite map_app, Hmap. reflexivity.
    + apply Forall_app. split; [assumption |]. constructor; [| constructor].
      exists x0, y0, th, delta. simpl. repeat split; assumption.
Qed.

(** The text [A B] with all three characters in view: the space keeps
    index 1 and is not pasted. *)
Example frame_draws_skips_space :
  exists draws,
    frame_draws ["A"; " "; "B"]%char [(0, 0, 0.02); (1, 0, 1.6); (0, 2, 2.4)]
      [0; 1; 2] [0; 0; 0.4] [90; 80; 170] 3 0.7 3 400 100 = Returns draws
    /\ map glyph_of draws = [(0%nat, "A"%char); (2%nat, "B"%char)]
    /\ map d_sx draws = [400%Z; 400%Z]
    /\ map d_sy draws = [400%Z; 120%Z].
Proof. eexists. split; [reflexivity | repeat split]. Qed.

Lemma frame_draws_returns (chars : list ascii) (positions : list point)
    (base_radii bulge_deltas tangent_angles : list Q)
    (num_chars : Z) (anomaly_frac : Q)
    (max_char_index canvas_center : Z) (scale : Q) :
  (Z.to_nat max_char_index <= length chars)%nat ->
  (Z.to_nat max_char_index <= length positions)%nat ->
  (Z.to_nat max_char_index <= length base_radii)%nat ->
  (Z.to_nat max_char_index <= length bulge_deltas)%nat ->
  (Z.to_nat max_char_index <= length tangent_angles)%nat ->
  exists draws,
    frame_draws chars positions base_radii bulge_deltas tangent_angles
      num_chars anomaly_frac max_char_index canvas_center scale = Returns draws.
Proof.
  intros Hc Hp Hb Hd Ht. unfold frame_draws, range.
  match goal with |- context [for_each _ ?body _] =>
    destruct (for_each_seq_total (fun _ (_ : list draw) => True) body
                (Z.to_nat max_char_index) 0 []) as (draws & Hrun & _)
  end.
  - exact I.
  - intros i ds Hi _.
    destruct (index_lt chars i ltac:(lia)) as (ch & -> & _).
    destruct (index_lt positions i ltac:(lia)) as ([[x0 y0] th] & -> & _).
    destruct (index_lt base_radii i ltac:(lia)) as (r & -> & _).
    destruct (index_lt bulge_deltas i ltac:(lia)) as (d & -> & _).
    destruct (index_lt tangent_angles i ltac:(lia)) as (ang & -> & _).
    simpl. destruct (Ascii.eqb ch SPACE); eauto.
  - eauto.
Qed.

(** ** Frames and the whole run *)

Section Pipeline.

Context {M : Libm}.

Lemma compose_frame_spec (chars : list ascii) (positions : list point)
    (base_radii bulge_deltas tangent_angles : list Q)
    (num_chars : Z) (anomaly_frac : Q) (frame_idx : nat) (fr : frame) :
  compose_frame chars positions base_radii bulge_deltas tangent_angles
    num_chars anomaly_frac frame_idx = Returns fr ->
  f_visible fr
  = max_char_index_of num_chars
      (chars_revealed_at_time
         (Py.float (Z.of_nat frame_idx) / Py.float FPS) num_chars anomaly_frac)
  /\ map glyph_of (f_draws fr)
     = expected_glyphs chars (Z.to_nat (f_visible fr))
  /\ Forall (placed_at positions bulge_deltas (CANVAS_SIZE / 2) (f_scale fr))
       (f_draws fr)
  /\ (Forall (fun r => 0 <= r) base_radii ->
      Forall (fun d => 0 <= d) bulge_deltas ->
      exists current_max_r,
        0 < current_max_r
        /\ f_scale fr = Py.float (CANVAS_SIZE / 2 - MARGIN) / current_max_r
        /\ 0 < f_scale fr).
Proof.
  unfold compose_frame. intros Hrun.
  apply bind_Returns in Hrun. destruct Hrun as (scale & Hscale & Hrun).
  apply bind_Returns in Hrun. destruct Hrun as (draws & Hdraws & Hrun).
  injection Hrun as <-. simpl.
  apply frame_draws_spec in Hdraws. destruct Hdraws as [Hmap Hall].
  repeat split; try assumption.
  intros Hb Hd. apply (frame_scale_positive _ _ _ _ _ Hb Hd) in Hscale;
    [assumption | reflexivity].
Qed.

Lemma compose_frame_returns (chars : list ascii) (positions : list point)
    (base_radii bulge_deltas tangent_angles : list Q)
    (anomaly_frac : Q) (frame_idx : nat) :
  (1 <= length chars)%nat ->
  length positions = length chars ->
  length base_radii = length chars ->
  length bulge_deltas = length chars ->
  length tangent_angles = length chars ->
  exists fr,
    compose_frame chars positions base_radii bulge_deltas tangent_angles
      (Z.of_nat (length chars)) anomaly_frac frame_idx = Returns fr.
Proof.
  intros Hc Hp Hb Hd Ht. unfold compose_frame.
  match goal with |- context [max_char_index_of ?n ?C] =>
    pose proof (max_char_index_range n C ltac:(lia)) as Hv;
    set (v := max_char_index_of n C) in *; clearbody v end.
  destruct (frame_scale_returns base_radii bulge_deltas v
              (CANVAS_SIZE / 2 - MARGIN)) as (scale & ->); try lia.
  simpl.
  destruct (frame_draws_returns chars positions base_radii bulge_deltas
              tangent_angles (Z.of_nat (length chars)) anomaly_frac v
              (CANVAS_SIZE / 2) scale) as (draws & ->); try lia.
  simpl. eauto.
Qed.

Lemma frame_loop_spec (chars : list ascii) (positions : list point)
    (base_radii bulge_deltas tangent_angles : list Q)
    (num_chars : Z) (anomaly_frac : Q) (frames : list frame) :
  frame_loop chars positions base_radii bulge_deltas tangent_angles
    num_chars anomaly_frac = Returns frames ->
  Z.of_nat (length frames) = NUM_FRAMES
  /\ forall k fr, nth_error frames k = Some fr ->
       compose_frame chars positions base_radii bulge_deltas tangent_angles
         num_chars anomaly_frac k = Returns fr.
Proof.
  unfold frame_loop, range. intros Hrun.
  apply (for_each_seq_partial
           (fun i fs => length fs = i
                        /\ forall k fr, nth_error fs k = Some fr ->
                             compose_frame chars positions base_radii
                               bulge_deltas tangent_angles num_chars
                               anomaly_frac k = Returns fr))
    in Hrun.
  - destruct Hrun as [Hlen Hall]. split; [| exact Hall].
    rewrite Hlen, Nat.add_0_l, Z2Nat.id; [reflexivity | vm_compute; discriminate].
  - split; [reflexivity |]. intros [| k] fr H; discriminate.
  - clear Hrun frames. intros i fs fs' _ [Hlen Hall] Hbody.
    apply bind_Returns in Hbody. destruct Hbody as (fr & Hfr & Hbody).
    injection Hbody as <-. split.
    + rewrite length_app. simpl. lia.
    + intros k fr' Hk.
      destruct (Nat.lt_ge_cases k (length fs)) as [Hlt | Hge].
      * rewrite nth_error_app1 in Hk by assumption. now apply Hall.
      * rewrite nth_error_app2 in Hk by assumption.
        destruct (k - length fs)%nat as [| d] eqn:Ed; simpl in Hk.
        -- injection Hk as <-. replace k with i by lia. exact Hfr.
        -- destruct d; discriminate.
Qed.

Lemma frame_loop_returns (chars : list ascii) (positions : list point)
    (base_radii bulge_deltas tangent_angles : list Q) (anomaly_frac : Q) :
  (1 <= length chars)%nat ->
  length positions = length chars ->
  length base_radii = length chars ->
  length bulge_deltas = length chars ->
  length tangent_angles = length chars ->
  exists frames,
    frame_loop chars positions base_radii bulge_deltas tangent_angles
      (Z.of_nat (length chars)) anomaly_frac = Returns frames.
Proof.
  intros Hc Hp Hb Hd Ht. unfold frame_loop, range.
  match goal with |- context [for_each _ ?body _] =>
    destruct (for_each_seq_total (fun _ (_ : list frame) => True) body
                (Z.to_nat NUM_FRAMES) 0 []) as (frames & Hrun & _)
  end.
  - exact I.
  - intros i fs _ _.
    destruct (compose_frame_returns chars positions base_radii bulge_deltas
                tangent_angles anomaly_frac i Hc Hp Hb Hd Ht) as (fr & ->).
    simpl. eauto.
  - eauto.
Qed.

(** [create_spiral_gif], stage by stage. *)
Lemma create_spiral_gif_unfold (fuel : nat) (text : string) (anomaly_pct : Q) :
  create_spiral_gif fuel text anomaly_pct
  = let chars := chars_of text in
    let num_chars := Z.of_nat (length chars) in
    if (num_chars =? 0)%Z then Returns None
    else
      let anomaly_frac := anomaly_frac_of anomaly_pct in
      positions <- generate_spiral_positions fuel num_chars ;;
      tangent_angles <- compute_tangent_angles positions ;;
      let base_radii := map (fun '(x, y, _) => hypot x y) positions in
      bulge_deltas <- compute_bulge_deltas num_chars anomaly_frac ;;
      frames <- frame_loop chars positions base_radii bulge_deltas
                  tangent_angles num_chars anomaly_frac ;;
      first <- index frames 0 ;;
      Returns (Some {| g_first := first; g_append_images := skipn 1 frames;
                       g_duration := FRAME_DURATION_MS; g_loop := 0 |}).
Proof. reflexivity. Qed.

End Pipeline.

(** ** Runs *)

Section Run.

Context {M : Libm} {L : LibmLaws M}.

(** Whatever the fuel, a returned list is the one of the terminating
    run. *)
Lemma generate_spiral_positions_spec (fuel : nat) (num_chars : Z) (pts : list point) :
  generate_spiral_positions fuel num_chars = Returns pts ->
  Z.of_nat (length pts) = Z.max 0 num_chars
  /\ points_on_path INITIAL_RADIUS default_b CHAR_SPACING pts.
Proof.
  intros Hrun.
  destruct (generate_spiral_positions_returns num_chars) as (pts0 & Hrun0 & Hlen & Hpts).
  set (K := (200 * Z.to_nat num_chars + 1)%nat) in *.
  specialize (Hrun0 (Nat.max fuel K) ltac:(lia)).
  unfold generate_spiral_positions, generate_spiral_positions_with in *.
  apply (spiral_loop_more_fuel _ _ _ _ fuel (Nat.max fuel K)) in Hrun; [| lia].
  rewrite Hrun in Hrun0. injection Hrun0 as ->. now split.
Qed.

(** The first character sits at the world origin. *)
Lemma on_path_origin (p : point) :
  on_path INITIAL_RADIUS default_b p 0 ->
  fst (fst p) == 0 /\ snd (fst p) == 0.
Proof.
  intros (k & t & Ht & -> & Hs).
  assert (0 <= INITIAL_RADIUS) as Ha by (unfold INITIAL_RADIUS; lra).
  pose proof (path_length_lower INITIAL_RADIUS default_b Ha default_b_nonneg k) as Hk.
  pose proof (chord_lower INITIAL_RADIUS default_b Ha default_b_nonneg k) as Hc.
  pose proof default_b_step as Hstep.
  assert (k = 0%nat) as ->.
  { destruct k as [| k]; [reflexivity | exfalso].
    rewrite float_succ in Hk.
    assert (0 <= Py.float (Z.of_nat k)) as Hn
      by (change 0 with (Py.float 0); apply float_le; lia).
    set (c := 0.7 * (default_b * step_theta)) in *. clearbody c.
    set (n := Py.float (Z.of_nat k)) in *. clearbody n.
    set (pl := path_length INITIAL_RADIUS default_b (S k)) in *. clearbody pl.
    set (ch := chord INITIAL_RADIUS default_b (S k)) in *. clearbody ch.
    nra. }
  assert (t == 0) as Ht0.
  { change (path_length INITIAL_RADIUS default_b 0) with 0 in Hs.
    set (c := 0.7 * (default_b * step_theta)) in *. clearbody c.
    set (ch := chord INITIAL_RADIUS default_b 0) in *. clearbody ch.
    nra. }
  simpl fst. simpl snd. rewrite Ht0.
  unfold sample_x, sample_y, INITIAL_RADIUS. simpl theta_at. split; ring.
Qed.

Lemma compute_bulge_deltas_spec (N : Z) (a : Q) (deltas : list Q) :
  compute_bulge_deltas N a = Returns deltas ->
  length deltas = Z.to_nat N /\ Forall (fun d => 0 <= d) deltas.
Proof.
  intros Hrun. destruct (Z.le_gt_cases 2 N) as [HN | HN].
  - rewrite compute_bulge_deltas_unfold in Hrun by assumption.
    injection Hrun as <-. split.
    + now rewrite enforce_length, length_map, length_seq.
    + apply Forall_forall. intros d Hd. apply In_nth_error in Hd.
      destruct Hd as (i & Hd). now apply enforce_lower in Hd.
  - unfold compute_bulge_deltas in Hrun. revert Hrun.
    destruct (Z.leb_spec N 0).
    + intros [= <-]. split; [simpl; lia | constructor].
    + destruct (Z.eqb_spec N 1) as [-> |]; [| lia].
      intros [= <-]. split; [reflexivity |].
      constructor; [lra | constructor].
Qed.

Lemma compute_bulge_deltas_returns (N : Z) (a : Q) :
  exists deltas, compute_bulge_deltas N a = Returns deltas.
Proof.
  destruct (Z.le_gt_cases 2 N) as [HN | HN].
  - rewrite compute_bulge_deltas_unfold by assumption. eauto.
  - unfold compute_bulge_deltas.
    destruct (Z.leb_spec N 0); [eauto |].
    destruct (Z.eqb_spec N 1); [eauto | lia].
Qed.

Lemma index_first {A : Type} (l : list A) (x : A) :
  index l 0 = Returns x -> x :: skipn 1 l = l.
Proof.
  destruct l as [| y l]; simpl; intros H; [discriminate |].
  unfold index in H. simpl in H. congruence.
Qed.

(** The stages of a run that saved an animation. *)
Lemma create_spiral_gif_stages (fuel : nat) (text : string) (pct : Q) (g : gif) :
  create_spiral_gif fuel text pct = Returns (Some g) ->
  let chars := chars_of text in
  let N := Z.of_nat (length chars) in
  exists positions tangent_angles bulge_deltas,
    (1 <= N)%Z
    /\ generate_spiral_positions fuel N = Returns positions
    /\ compute_tangent_angles positions = Returns tangent_angles
    /\ compute_bulge_deltas N (anomaly_frac_of pct) = Returns bulge_deltas
    /\ frame_loop chars positions (map (fun '(x, y, _) => hypot x y) positions)
         bulge_deltas tangent_angles N (anomaly_frac_of pct)
       = Returns (g_frames g)
    /\ g_duration g = FRAME_DURATION_MS
    /\ g_loop g = 0%Z.
Proof.
  intros Hrun chars N. rewrite create_spiral_gif_unfold in Hrun.
  change (chars_of text) with chars in Hrun. cbv zeta in Hrun.
  change (Z.of_nat (length chars)) with N in Hrun.
  assert (0 <= N)%Z as HN0 by (unfold N; lia).
  clearbody N. revert Hrun.
  destruct (Z.eqb_spec N 0) as [Hz | Hnz]; [intros H; discriminate H |].
  intros Hrun.
  apply bind_Returns in Hrun. destruct Hrun as (positions & Hpos & Hrun).
  apply bind_Returns in Hrun. destruct Hrun as (angles & Hang & Hrun).
  apply bind_Returns in Hrun. destruct Hrun as (deltas & Hdel & Hrun).
  apply bind_Returns in Hrun. destruct Hrun as (frames & Hfr & Hrun).
  apply bind_Returns in Hrun. destruct Hrun as (first & Hfirst & Hrun).
  injection Hrun as <-.
  exists positions, angles, deltas. unfold g_frames.
  cbn [g_first g_append_images g_duration g_loop].
  pose proof (index_first frames first Hfirst) as Hff. simpl in Hff.
  rewrite Hff.
  repeat split; try assumption; lia.
Qed.

(** A text of at least two characters is animated, given enough fuel. *)
Lemma create_spiral_gif_returns (fuel : nat) (text : string) (pct : Q) :
  (2 <= length (chars_of text))%nat ->
  (200 * length (chars_of text) + 1 <= fuel)%nat ->
  exists g, create_spiral_gif fuel text pct = Returns (Some g).
Proof.
  intros Hn Hfuel. rewrite create_spiral_gif_unfold.
  set (chars := chars_of text) in *. cbv zeta.
  set (N := Z.of_nat (length chars)).
  destruct (Z.eqb_spec N 0) as [Hz | Hnz]; [unfold N in Hz; lia |].
  destruct (generate_spiral_positions_returns N) as (positions & Hpos & Hlen & _).
  rewrite Hpos by (unfold N; rewrite Nat2Z.id; exact Hfuel). simpl.
  assert (length positions = length chars) as Hlp by (unfold N in Hlen; lia).
  destruct (compute_tangent_angles_returns positions ltac:(lia)) as (angles & -> & Hla).
  simpl.
  destruct (compute_bulge_deltas_returns N (anomaly_frac_of pct)) as (deltas & Hdel).
  rewrite Hdel. simpl.
  apply compute_bulge_deltas_spec in Hdel. destruct Hdel as [Hld _].
  assert (length deltas = length chars) as Hld' by (unfold N in Hld; lia).
  destruct (frame_loop_returns chars positions
              (map (fun '(x, y, _) => hypot x y) positions) deltas angles
              (anomaly_frac_of pct) ltac:(lia) Hlp
              ltac:(now rewrite length_map) Hld' ltac:(lia)) as (frames & Hfr).
  fold N in Hfr. rewrite Hfr. simpl.
  destruct (frame_loop_spec _ _ _ _ _ _ _ _ Hfr) as [Hnf _].
  destruct frames as [| first frames]; [vm_compute in Hnf; discriminate |].
  unfold index. simpl. eauto.
Qed.

Lemma base_radii_nonneg (positions : list point) :
  Forall (fun r => 0 <= r) (map (fun '(x, y, _) => hypot x y) positions).
Proof.
  apply Forall_forall. intros r Hr. apply in_map_iff in Hr.
  destruct Hr as ([[x y] th] & <- & _). apply hypot_nonneg.
Qed.

Lemma int_zero (x : Q) : x == 0 -> Py.int x = 0%Z.
Proof.
  intros H. unfold Py.int. destruct x as [n d]. unfold Qeq in H. simpl in *.
  replace n with 0%Z by lia. reflexivity.
Qed.

Lemma first_frame_visible (N : Z) (a : Q) :
  (1 <= N)%Z ->
  max_char_index_of N
    (chars_revealed_at_time (Py.float (Z.of_nat 0) / Py.float FPS) N a) = 1%Z.
Proof.
  intros HN. unfold max_char_index_of.
  destruct (Z.eq_dec N 1) as [-> | Hne]; [reflexivity |].
  rewrite int_zero; [lia |].
  rewrite chars_revealed_curve by lia.
  rewrite reveal_curve_before; [reflexivity | vm_compute; discriminate].
Qed.

(** Every frame of a run is a composed frame of its index. *)
Lemma create_spiral_gif_frames (fuel : nat) (text : string) (pct : Q) (g : gif) :
  create_spiral_gif fuel text pct = Returns (Some g) ->
  exists positions tangent_angles bulge_deltas,
    generate_spiral_positions fuel (Z.of_nat (length (chars_of text)))
      = Returns positions
    /\ length positions = length (chars_of text)
    /\ Forall (fun d => 0 <= d) bulge_deltas
    /\ (1 <= length (chars_of text))%nat
    /\ forall fr, In fr (g_frames g) ->
         exists k,
           nth_error (g_frames g) k = Some fr
           /\ compose_frame (chars_of text) positions
                (map (fun '(x, y, _) => hypot x y) positions)
                bulge_deltas tangent_angles
                (Z.of_nat (length (chars_of text))) (anomaly_frac_of pct) k
              = Returns fr.
Proof.
  intros Hrun. apply create_spiral_gif_stages in Hrun.
  destruct Hrun as (positions & angles & deltas & HN & Hpos & _ & Hdel & Hfr & _).
  exists positions, angles, deltas.
  apply generate_spiral_positions_spec in Hpos as Hspec.
  destruct Hspec as [Hlen _]. apply compute_bulge_deltas_spec in Hdel.
  destruct Hdel as [_ Hdel]. apply frame_loop_spec in Hfr. destruct Hfr as [_ Hfr].
  repeat split; try assumption; try lia.
  intros fr Hin. apply In_nth_error in Hin. destruct Hin as (k & Hk).
  exists k. split; [exact Hk | now apply Hfr].
Qed.

(** C4.  For the one-character text the spiral builder returns one point
    at the world origin, the revealed count is [1] from [t = 0] on and the
    bulge model returns [[0.0]], but the run does not complete: the
    tangent estimator, called on the one-point list, raises
    [IndexError]. *)
Theorem C4_single_char_raises (fuel : nat) (pct : Q) (Hfuel : (201 <= fuel)%nat) :
  (exists p,
     generate_spiral_positions fuel 1 = Returns [p]
     /\ fst (fst p) == 0 /\ snd (fst p) == 0
     /\ compute_tangent_angles [p] = Raises IndexError)
  /\ (forall t a, 0 <= t -> chars_revealed_at_time t 1 a = 1)
  /\ (forall a, compute_bulge_deltas 1 a = Returns [0])
  /\ create_spiral_gif fuel "A" pct = Raises IndexError.
Proof.
  destruct (generate_spiral_positions_returns 1) as (pts & Hrun & Hlen & Hpts).
  specialize (Hrun fuel ltac:(simpl; lia)).
  destruct pts as [| p [| q pts]]; try (simpl in Hlen; lia).
  split; [| split; [| split]].
  - exists p. split; [exact Hrun |].
    destruct (on_path_origin p (Hpts 0%nat p eq_refl)) as [Hx Hy].
    repeat split; assumption.
  - intros t a Ht. rewrite chars_revealed_single. unfold Py.geb.
    destruct (leb_spec 0 t); [reflexivity | lra].
  - reflexivity.
  - rewrite create_spiral_gif_unfold.
    change (chars_of "A") with ["A"%char]. cbv zeta.
    change (Z.of_nat (length ["A"%char])) with 1%Z.
    change (1 =? 0)%Z with false. cbv iota.
    rewrite Hrun. reflexivity.
Qed.

(** C8 (as amended).  A run that saves an animation hands
    [int(FPS * DURATION_S)] = 150 frames to the encoder, which is also
    [round(FPS * DURATION_S)]; the frame duration is [int(1000 / FPS)] =
    33 milliseconds, the quotient truncated to an integer; the loop
    count is [0], which the encoder reads as looping forever. *)
Theorem C8_frame_count_and_timing (fuel : nat) (text : string) (pct : Q) (g : gif)
    (Hrun : create_spiral_gif fuel text pct = Returns (Some g)) :
  Z.of_nat (length (g_frames g)) = NUM_FRAMES
  /\ NUM_FRAMES = Py.round (Py.float FPS * DURATION_S)
  /\ NUM_FRAMES = 150%Z
  /\ g_duration g = Py.int (1000 / Py.float FPS)
  /\ g_duration g = 33%Z
  /\ g_loop g = 0%Z.
Proof.
  apply create_spiral_gif_stages in Hrun.
  destruct Hrun as (positions & angles & deltas & _ & _ & _ & _ & Hfr & Hd & Hl).
  apply frame_loop_spec in Hfr. destruct Hfr as [Hn _].
  rewrite Hd, Hl. repeat split; try assumption; reflexivity.
Qed.

(** C9.  In every frame of a run the pasted glyphs are exactly the
    characters of index below the visible count that are not spaces, in
    text order.  Spaces keep their slot: the spiral has one point per
    character, spaces included, the visible count counts them, and every
    glyph is pasted at the spiral point of its own index. *)
Theorem C9_drawn_characters (fuel : nat) (text : string) (pct : Q) (g : gif)
    (Hrun : create_spiral_gif fuel text pct = Returns (Some g)) :
  exists positions bulge_deltas,
    generate_spiral_positions fuel (Z.of_nat (length (chars_of text)))
      = Returns positions
    /\ length positions = length (chars_of text)
    /\ forall fr, In fr (g_frames g) ->
         (1 <= f_visible fr <= Z.of_nat (length (chars_of text)))%Z
         /\ map glyph_of (f_draws fr)
            = expected_glyphs (chars_of text) (Z.to_nat (f_visible fr))
         /\ Forall (fun d => d_char d <> SPACE) (f_draws fr)
         /\ Forall (placed_at positions bulge_deltas (CANVAS_SIZE / 2) (f_scale fr))
              (f_draws fr).
Proof.
  apply create_spiral_gif_frames in Hrun.
  destruct Hrun as (positions & angles & deltas & Hpos & Hlen & _ & Hn & Hfr).
  exists positions, deltas. split; [exact Hpos |]. split; [exact Hlen |].
  intros fr Hin. destruct (Hfr fr Hin) as (k & _ & Hk).
  apply compose_frame_spec in Hk. destruct Hk as (Hv & Hmap & Hplaced & _).
  split; [rewrite Hv; apply max_char_index_range; lia |].
  split; [exact Hmap |]. split; [| exact Hplaced].
  apply Forall_forall. intros d Hd.
  assert (In (glyph_of d) (map glyph_of (f_draws fr))) as Hg by now apply in_map.
  rewrite Hmap in Hg. unfold expected_glyphs in Hg.
  apply filter_In in Hg. destruct Hg as [_ Hns]. simpl in Hns.
  intros Heq. rewrite Heq in Hns. discriminate.
Qed.

(** C10.  In every frame of a run the zoom scale is the canvas radius
    divided by a positive [current_max_r], hence positive.  The first
    frame shows exactly one character, the one whose spiral point is the
    world origin. *)
Theorem C10_zoom_positive (fuel : nat) (text : string) (pct : Q) (g : gif)
    (Hrun : create_spiral_gif fuel text pct = Returns (Some g)) :
  Forall (fun fr =>
            exists current_max_r,
              0 < current_max_r
              /\ f_scale fr = Py.float (CANVAS_SIZE / 2 - MARGIN) / current_max_r
              /\ 0 < f_scale fr)
    (g_frames g)
  /\ f_visible (g_first g) = 1%Z
  /\ exists positions p,
       generate_spiral_positions fuel (Z.of_nat (length (chars_of text)))
         = Returns positions
       /\ nth_error positions 0 = Some p
       /\ fst (fst p) == 0 /\ snd (fst p) == 0.
Proof.
  apply create_spiral_gif_stages in Hrun as Hst.
  destruct Hst as (positions0 & angles0 & deltas0 & _ & _ & _ & _ & Hloop & _).
  apply frame_loop_spec in Hloop. destruct Hloop as [_ Hloop].
  specialize (Hloop 0%nat (g_first g) eq_refl).
  apply create_spiral_gif_frames in Hrun.
  destruct Hrun as (positions & angles & deltas & Hpos & Hlen & Hdel & Hn & Hfr).
  split; [| split].
  - apply Forall_forall. intros fr Hin. destruct (Hfr fr Hin) as (k & _ & Hk).
    apply compose_frame_spec in Hk. destruct Hk as (_ & _ & _ & Hscale).
    apply Hscale; [apply base_radii_nonneg | exact Hdel].
  - apply compose_frame_spec in Hloop. destruct Hloop as (Hv & _).
    rewrite Hv. apply first_frame_visible. lia.
  - destruct positions as [| p positions]; [simpl in Hlen; lia |].
    exists (p :: positions), p. split; [exact Hpos |]. split; [reflexivity |].
    apply generate_spiral_positions_spec in Hpos. destruct Hpos as [_ Hpath].
    apply on_path_origin. exact (Hpath 0%nat p eq_refl).
Qed.

End Run.

(** C5.  For every frame time, text length [N > 0] and anomaly fraction
    the revealed count lies in [[0, N]]; the visible count that the frame
    loop derives from it is [max(1, min(N, floor C))], which is at least
    one and at most [N]; and this is the visible count of every composed
    frame. *)
Theorem C5_visible_count (t : Q) (N : Z) (a : Q) (HN : (0 < N)%Z) :
  let C := chars_revealed_at_time t N a in
  0 <= C <= Py.float N
  /\ max_char_index_of N C = Z.max 1 (Z.min N (Qfloor C))
  /\ (1 <= max_char_index_of N C <= N)%Z
  /\ forall chars positions base_radii bulge_deltas tangent_angles frame_idx fr,
       t = Py.float (Z.of_nat frame_idx) / Py.float FPS ->
       compose_frame chars positions base_radii bulge_deltas tangent_angles
         N a frame_idx = Returns fr ->
       f_visible fr = Z.max 1 (Z.min N (Qfloor C)).
Proof.
  intros C. pose proof (chars_revealed_range t N a HN) as HC. fold C in HC.
  assert (max_char_index_of N C = Z.max 1 (Z.min N (Qfloor C))) as Hv.
  { unfold max_char_index_of. now rewrite int_floor. }
  split; [exact HC |]. split; [exact Hv |].
  split; [now apply max_char_index_range |].
  intros chars positions base_radii bulge_deltas tangent_angles frame_idx fr Ht Hfr.
  apply compose_frame_spec in Hfr. destruct Hfr as (Hvis & _).
  rewrite Hvis, <- Ht. exact Hv.
Qed.

Section Prompt.

Context {M : Libm}.

(** C7.  An anomaly percentage that the parser rejects is replaced by
    70; a parsed percentage below 0 becomes 0 and one above 100 becomes
    100, so the percentage handed on always lies in [[0, 100]]; the
    fraction given to the models is that percentage divided by 100 and
    lies in [[0, 1]]. *)
Theorem C7_anomaly_input (line : string) :
  let raw := string_of_list_ascii (strip (list_ascii_of_string line)) in
  let pct := read_anomaly_pct line in
  (float_of_str raw = None -> pct = 70)
  /\ (forall v, float_of_str raw = Some v ->
        (v < 0 -> pct == 0) /\ (100 < v -> pct == 100)
        /\ (0 <= v <= 100 -> pct == v))
  /\ 0 <= pct <= 100
  /\ anomaly_frac_of pct == pct / 100
  /\ 0 <= anomaly_frac_of pct <= 1
  /\ forall fuel paragraph,
       strip (list_ascii_of_string paragraph) <> [] ->
       main fuel paragraph line = create_spiral_gif fuel paragraph pct.
Proof.
  intros raw pct.
  assert (0 <= pct <= 100) as Hpct by (apply clamp_bounds; lra).
  split; [| split; [| split; [exact Hpct | split; [| split]]]].
  - intros Hnone. unfold pct, read_anomaly_pct. fold raw. now rewrite Hnone.
  - intros v Hv. unfold pct, read_anomaly_pct. fold raw. rewrite Hv.
    repeat split; intros; py_cases; lra.
  - unfold anomaly_frac_of. apply clamp_id. qlra.
  - unfold anomaly_frac_of. apply clamp_bounds. lra.
  - intros fuel paragraph Hne. unfold main.
    destruct (strip (list_ascii_of_string paragraph)); [contradiction | reflexivity].
Qed.

End Prompt.

Lemma C5_visible_count_witness :
  0 <= chars_revealed_at_time 2.5 10 0.5 <= Py.float 10
  /\ max_char_index_of 10 (chars_revealed_at_time 2.5 10 0.5) = 4%Z.
Proof.
  destruct (C5_visible_count 2.5 10 0.5 ltac:(lia)) as (Hr & Hv & _).
  split; [exact Hr |]. rewrite Hv. vm_compute. reflexivity.
Defined.

Lemma C4_single_char_raises_witness :
  @create_spiral_gif rational_libm 201 "A" 70 = Raises IndexError.
Proof.
  apply (@C4_single_char_raises rational_libm rational_libm_laws 201 70). lia.
Defined.

Lemma C7_anomaly_input_witness :
  @read_anomaly_pct rational_libm "seventy" = 70
  /\ @read_anomaly_pct rational_libm " 250 " == 100.
Proof.
  split.
  - apply (@C7_anomaly_input rational_libm "seventy"). reflexivity.
  - destruct (@C7_anomaly_input rational_libm " 250 ") as (_ & Hv & _).
    destruct (Hv 250 eq_refl) as (_ & Hhi & _). apply Hhi. reflexivity.
Defined.

Lemma two_words_run :
  exists g, @create_spiral_gif rational_libm 601 "A B" 70 = Returns (Some g).
Proof.
  apply (@create_spiral_gif_returns rational_libm rational_libm_laws).
  - vm_compute. lia.
  - vm_compute. lia.
Defined.

Lemma C8_frame_count_and_timing_witness :
  exists g,
    @create_spiral_gif rational_libm 601 "A B" 70 = Returns (Some g)
    /\ length (g_frames g) = 150%nat /\ g_duration g = 33%Z /\ g_loop g = 0%Z.
Proof.
  destruct two_words_run as (g & Hrun). exists g. split; [exact Hrun |].
  destruct (@C8_frame_count_and_timing rational_libm 601 "A B" 70 g Hrun)
    as (Hn & _ & H150 & _ & Hd & Hl).
  repeat split; try assumption. lia.
Defined.

(** C8 as stated fails: the duration handed to the encoder is the
    integer 33, not the quotient 1000 / FPS. *)
Lemma C8_counterexample :
  FRAME_DURATION_MS = 33%Z /\ ~ Py.float FRAME_DURATION_MS == 1000 / Py.float FPS.
Proof. split; [reflexivity | vm_compute; discriminate]. Qed.

Lemma C9_drawn_characters_witness :
  exists g,
    @create_spiral_gif rational_libm 601 "A B" 70 = Returns (Some g)
    /\ Forall (fun d => d_char d <> SPACE) (f_draws (g_first g)).
Proof.
  destruct two_words_run as (g & Hrun). exists g. split; [exact Hrun |].
  destruct (@C9_drawn_characters rational_libm rational_libm_laws 601 "A B" 70 g Hrun)
    as (positions & deltas & _ & _ & Hfr).
  destruct (Hfr (g_first g) (or_introl eq_refl)) as (_ & _ & Hns & _).
  exact Hns.
Defined.

Lemma C10_zoom_positive_witness :
  exists g,
    @create_spiral_gif rational_libm 601 "A B" 70 = Returns (Some g)
    /\ 0 < f_scale (g_first g) /\ f_visible (g_first g) = 1%Z.
Proof.
  destruct two_words_run as (g & Hrun). exists g. split; [exact Hrun |].
  destruct (@C10_zoom_positive rational_libm rational_libm_laws 601 "A B" 70 g Hrun)
    as (Hall & Hv & _).
  split; [| exact Hv]. inversion Hall as [| ? ? (cur & _ & _ & Hpos) _]. exact Hpos.
Defined.

(** * Further properties of the code *)

(** ** Text preparation *)

Lemma split_words (text word : list ascii) :
  Forall (fun c => is_space c = false) word ->
  Forall is_word (split text word).
Proof.
  revert word. induction text as [| c text IH]; intros word Hw; simpl.
  - destruct word as [| x word]; constructor; [| constructor].
    split; [discriminate | assumption].
  - destruct (is_space c) eqn:Hc.
    + destruct word as [| x word]; [apply IH; constructor |].
      constructor; [split; [discriminate | assumption] | apply IH; constructor].
    + apply IH. apply Forall_app. split; [assumption |].
      constructor; [assumption | constructor].
Qed.

Lemma split_app_word (w rest acc : list ascii) :
  Forall (fun c => is_space c = false) w ->
  split (w ++ rest) acc = split rest (acc ++ w).
Proof.
  revert acc. induction w as [| c w IH]; intros acc Hw; simpl.
  - now rewrite app_nil_r.
  - inversion Hw as [| ? ? Hc Hw']; subst. rewrite Hc.
    rewrite IH by assumption. now rewrite <- app_assoc.
Qed.

Lemma join_cons2 (sep w w2 : list ascii) (ws : list (list ascii)) :
  join sep (w :: w2 :: ws) = w ++ sep ++ join sep (w2 :: ws).
Proof. reflexivity. Qed.

(** Splitting the joined words gives the words back. *)
Lemma split_join (ws : list (list ascii)) :
  Forall is_word ws -> split (join [SPACE] ws) [] = ws.
Proof.
  induction ws as [| w ws IH]; intros Hws; [reflexivity |].
  inversion Hws as [| ? ? [Hne Hw] Hws']; subst.
  destruct ws as [| w2 ws].
  - simpl. rewrite <- (app_nil_r w) at 1. rewrite split_app_word by assumption.
    simpl. destruct w; [contradiction | reflexivity].
  - rewrite join_cons2, split_app_word by assumption.
    simpl app. cbn [split]. change (is_space SPACE) with true. cbv iota.
    destruct w as [| x w]; [contradiction |]. f_equal. now apply IH.
Qed.

Lemma join_nil_iff (ws : list (list ascii)) :
  Forall is_word ws -> (join [SPACE] ws = [] <-> ws = []).
Proof.
  intros Hws. split; [| intros ->; reflexivity].
  destruct ws as [| w ws]; [reflexivity |].
  inversion Hws as [| ? ? [Hne _] _]; subst.
  destruct w as [| x w]; [contradiction |].
  destruct ws; discriminate.
Qed.

Lemma split_nil_iff (text : list ascii) :
  split text [] = [] <-> Forall (fun c => is_space c = true) text.
Proof.
  split.
  - induction text as [| c text IH]; intros H; [constructor |].
    simpl in H. destruct (is_space c) eqn:Hc.
    + constructor; [assumption | now apply IH].
    + exfalso. pose proof (split_app_word [c] text []) as Hs.
      simpl in Hs. rewrite Hc in Hs.
      assert (forall t w, w <> [] -> split t w <> []) as Hne.
      { clear. induction t as [| c t IH]; intros w Hw; simpl.
        - destruct w; [contradiction | discriminate].
        - destruct (is_space c).
          + destruct w; [contradiction | discriminate].
          + apply IH. destruct w; discriminate. }
      apply (Hne text [c]); [discriminate | exact H].
  - intros H. induction H as [| c l Hc _ IH]; [reflexivity |].
    simpl. now rewrite Hc.
Qed.

Lemma replace_space (old : ascii) (text : list ascii) :
  is_space old = true ->
  Forall (fun c => is_space c = true) (replace old SPACE text)
  <-> Forall (fun c => is_space c = true) text.
Proof.
  intros Hold. unfold replace. rewrite Forall_map, !Forall_forall.
  split; intros H c Hc; specialize (H c Hc).
  - destruct (Ascii.eqb_spec c old) as [Heq |]; [now rewrite Heq | assumption].
  - destruct (Ascii.eqb_spec c old); [reflexivity | assumption].
Qed.

Lemma chars_of_words (text : string) :
  exists ws, Forall is_word ws /\ chars_of text = join [SPACE] ws.
Proof.
  unfold chars_of. eexists. split; [| reflexivity].
  apply split_words. constructor.
Qed.

Lemma chars_of_nil_iff (text : string) :
  chars_of text = []
  <-> Forall (fun c => is_space c = true) (list_ascii_of_string text).
Proof.
  unfold chars_of. rewrite join_nil_iff by (apply split_words; constructor).
  rewrite split_nil_iff, !replace_space by reflexivity. reflexivity.
Qed.

Lemma no_space_run_word (p : bool) (w rest : list ascii) :
  is_word w -> no_space_run p (w ++ rest) = no_space_run false rest.
Proof.
  intros [Hne Hw]. revert p. induction Hw as [| c w Hc Hw IH]; intros p;
    [contradiction |].
  simpl. rewrite Hc. destruct w as [| x w]; [reflexivity |].
  apply IH. discriminate.
Qed.

Lemma no_space_run_join (ws : list (list ascii)) :
  Forall is_word ws -> no_space_run true (join [SPACE] ws) = true.
Proof.
  induction ws as [| w ws IH]; intros Hws; [reflexivity |].
  inversion Hws as [| ? ? Hw Hws']; subst.
  destruct ws as [| w2 ws].
  - simpl. rewrite <- (app_nil_r w). now rewrite no_space_run_word.
  - rewrite join_cons2, no_space_run_word by assumption.
    simpl app. cbn [no_space_run]. change (is_space SPACE) with true.
    cbv iota. simpl negb. simpl andb. now apply IH.
Qed.

Lemma no_space_run_pair (p : bool) (l1 l2 : list ascii) (c1 c2 : ascii) :
  no_space_run p (l1 ++ c1 :: c2 :: l2) = true ->
  is_space c1 = true -> is_space c2 = false.
Proof.
  revert p. induction l1 as [| x l1 IH]; intros p H Hc1.
  - simpl in H. rewrite Hc1 in H. apply andb_prop in H. destruct H as [_ H].
    destruct (is_space c2); [simpl in H; discriminate | reflexivity].
  - simpl in H. destruct (is_space x).
    + apply andb_prop in H. destruct H as [_ H]. now apply (IH true).
    + now apply (IH false).
Qed.

Lemma join_spaces (ws : list (list ascii)) :
  Forall is_word ws ->
  Forall (fun c => is_space c = true -> c = SPACE) (join [SPACE] ws).
Proof.
  induction ws as [| w ws IH]; intros Hws; [constructor |].
  inversion Hws as [| ? ? [_ Hw] Hws']; subst.
  assert (Forall (fun c => is_space c = true -> c = SPACE) w) as Hw'.
  { eapply Forall_impl; [| exact Hw]. intros c Hc Hs. congruence. }
  destruct ws as [| w2 ws]; [exact Hw' |].
  rewrite join_cons2. apply Forall_app. split; [exact Hw' |].
  constructor; [reflexivity | now apply IH].
Qed.

Lemma join_last (ws : list (list ascii)) :
  Forall is_word ws -> ws <> [] ->
  exists l c, join [SPACE] ws = l ++ [c] /\ is_space c = false.
Proof.
  induction ws as [| w ws IH]; intros Hws Hne; [contradiction |].
  inversion Hws as [| ? ? [Hw0 Hw] Hws']; subst.
  destruct ws as [| w2 ws].
  - exists (removelast w), (last w SPACE). split.
    + simpl. now apply app_removelast_last.
    + rewrite Forall_forall in Hw. apply Hw.
      destruct w as [| x w]; [contradiction |].
      apply (@exists_last _ (x :: w)) in Hw0. destruct Hw0 as (l & c & ->).
      rewrite last_last. apply in_or_app. right. now left.
  - destruct (IH Hws' ltac:(discriminate)) as (l & c & Hj & Hc).
    exists (w ++ [SPACE] ++ l), c. split; [| exact Hc].
    rewrite join_cons2, Hj. now rewrite <- !app_assoc.
Qed.

(** X1.  The prepared text has no whitespace but single spaces between
    words. *)
Theorem chars_of_tidy (text : string) :
  Forall (fun c => is_space c = true -> c = SPACE) (chars_of text)
  /\ (forall c l, chars_of text = c :: l -> is_space c = false)
  /\ (forall l c, chars_of text = l ++ [c] -> is_space c = false)
  /\ (forall l1 c1 c2 l2,
        chars_of text = l1 ++ c1 :: c2 :: l2 ->
        is_space c1 = true -> is_space c2 = false).
Proof.
  destruct (chars_of_words text) as (ws & Hws & Heq). rewrite Heq.
  pose proof (no_space_run_join ws Hws) as Hrun.
  split; [now apply join_spaces |]. split; [| split].
  - intros c l Hl. rewrite Hl in Hrun. simpl in Hrun.
    destruct (is_space c); [discriminate | reflexivity].
  - intros l c Hl. destruct ws as [| w ws].
    + destruct l; discriminate.
    + destruct (join_last (w :: ws) Hws ltac:(discriminate)) as (l' & c' & Hj & Hc).
      rewrite Hj in Hl. apply app_inj_tail in Hl. destruct Hl as [_ ->]. exact Hc.
  - intros l1 c1 c2 l2 Hl. rewrite Hl in Hrun.
    now apply (no_space_run_pair true l1 l2).
Qed.

Lemma replace_absent (old new : ascii) (text : list ascii) :
  ~ In old text -> replace old new text = text.
Proof.
  intros H. unfold replace. rewrite <- (map_id text) at 2.
  apply map_ext_in. intros c Hc.
  destruct (Ascii.eqb_spec c old) as [-> |]; [contradiction | reflexivity].
Qed.

(** X2.  Preparing a prepared text changes nothing. *)
Theorem chars_of_idempotent (text : string) :
  chars_of (string_of_list_ascii (chars_of text)) = chars_of text.
Proof.
  destruct (chars_of_words text) as (ws & Hws & Heq).
  pose proof (join_spaces ws Hws) as Hsp. rewrite <- Heq in Hsp.
  rewrite Forall_forall in Hsp.
  unfold chars_of at 1. rewrite list_ascii_of_string_of_list_ascii.
  rewrite (replace_absent CR), (replace_absent LF).
  - rewrite Heq. now rewrite split_join.
  - intros Hin. specialize (Hsp LF Hin eq_refl). discriminate.
  - intros Hin. specialize (Hsp CR Hin eq_refl). discriminate.
Qed.

Lemma lstrip_nil_iff (text : list ascii) :
  lstrip text = [] <-> Forall (fun c => is_space c = true) text.
Proof.
  induction text as [| c text IH]; simpl.
  - split; [constructor | reflexivity].
  - destruct (is_space c) eqn:Hc.
    + rewrite IH. split; [now constructor | now inversion 1].
    + split; [discriminate |]. inversion 1; congruence.
Qed.

Lemma lstrip_head (text : list ascii) (c : ascii) (l : list ascii) :
  lstrip text = c :: l -> is_space c = false.
Proof.
  induction text as [| x text IH]; simpl; [discriminate |].
  destruct (is_space x) eqn:Hx; [exact IH | congruence].
Qed.

Lemma strip_nil_iff (text : list ascii) :
  strip text = [] <-> Forall (fun c => is_space c = true) text.
Proof.
  unfold strip. split.
  - intros H. apply (f_equal (@rev ascii)) in H. rewrite rev_involutive in H.
    simpl in H. apply lstrip_nil_iff in H. apply Forall_rev in H.
    rewrite rev_involutive in H.
    destruct (lstrip text) as [| c l] eqn:E; [now apply lstrip_nil_iff |].
    apply lstrip_head in E. inversion H; congruence.
  - intros H. apply lstrip_nil_iff in H. now rewrite H.
Qed.

Section EmptyText.

Context {M : Libm}.

Lemma create_spiral_gif_some (fuel : nat) (text : string) (pct : Q) :
  chars_of text <> [] -> create_spiral_gif fuel text pct <> Returns None.
Proof.
  intros Hne Hrun. rewrite create_spiral_gif_unfold in Hrun. cbv zeta in Hrun.
  destruct (chars_of text) as [| c l] eqn:E; [contradiction |].
  change (Z.of_nat (length (c :: l)) =? 0)%Z with false in Hrun. cbv iota in Hrun.
  repeat (apply bind_Returns in Hrun; destruct Hrun as (? & _ & Hrun)).
  discriminate.
Qed.

(** X3.  The run ends without an animation exactly when the text is empty or
    all whitespace, whatever the fuel and the percentage; so does the
    command line. *)
Theorem no_animation_iff_blank (fuel : nat) (text line : string) (pct : Q) :
  (create_spiral_gif fuel text pct = Returns None
   <-> Forall (fun c => is_space c = true) (list_ascii_of_string text))
  /\ (main fuel text line = Returns None
      <-> Forall (fun c => is_space c = true) (list_ascii_of_string text)).
Proof.
  assert (create_spiral_gif fuel text pct = Returns None
          <-> Forall (fun c => is_space c = true) (list_ascii_of_string text))
    as Hgif.
  { intros. rewrite <- chars_of_nil_iff. split.
    - intros Hrun. destruct (chars_of text) eqn:E; [reflexivity | exfalso].
      apply (create_spiral_gif_some fuel text pct); [congruence | exact Hrun].
    - intros Hnil. rewrite create_spiral_gif_unfold, Hnil. reflexivity. }
  split; [exact Hgif |].
  unfold main. destruct (strip (list_ascii_of_string text)) as [| c l] eqn:E.
  - apply strip_nil_iff in E. tauto.
  - rewrite <- chars_of_nil_iff. split.
    + intros Hrun. exfalso.
      destruct (chars_of text) eqn:Ec.
      * apply chars_of_nil_iff, strip_nil_iff in Ec. congruence.
      * apply (create_spiral_gif_some fuel text (read_anomaly_pct line));
          [congruence | exact Hrun].
    + intros Hnil. apply chars_of_nil_iff, strip_nil_iff in Hnil. congruence.
Qed.

End EmptyText.

(** ** Tangent angles, further *)

Section TangentRule.

Context {M : Libm}.

(** X4.  The estimator returns for every list but a one-point list.  With at
    least two points it gives one angle per point: the direction, in
    degrees, from the previous point to the next one, the point itself
    standing in for the neighbour that the first or the last point
    lacks. *)
Theorem compute_tangent_angles_rule (pts : list point) :
  (pts = [] -> compute_tangent_angles pts = Returns [])
  /\ (length pts = 1%nat -> compute_tangent_angles pts = Raises IndexError)
  /\ ((2 <= length pts)%nat ->
      exists angles,
        compute_tangent_angles pts = Returns angles
        /\ length angles = length pts
        /\ forall i x1 y1 th1 x2 y2 th2,
             (i < length pts)%nat ->
             nth_error pts (i - 1) = Some (x1, y1, th1) ->
             nth_error pts (Nat.min (i + 1) (length pts - 1)) = Some (x2, y2, th2) ->
             nth_error angles i = Some (degrees (atan2 (y2 - y1) (x2 - x1)))).
Proof.
  split; [intros ->; reflexivity |]. split.
  - intros H1. destruct pts as [| p [| q pts]]; try discriminate.
    apply compute_tangent_angles_single.
  - intros Hn. unfold compute_tangent_angles.
    set (n := length pts) in *.
    match goal with |- context [for_each _ ?body _] =>
      destruct (for_each_seq_total
        (fun i (angles : list Q) =>
           length angles = i
           /\ forall k x1 y1 th1 x2 y2 th2,
                (k < i)%nat ->
                nth_error pts (k - 1) = Some (x1, y1, th1) ->
                nth_error pts (Nat.min (k + 1) (n - 1)) = Some (x2, y2, th2) ->
                nth_error angles k = Some (degrees (atan2 (y2 - y1) (x2 - x1))))
        body n 0 []) as (angles & Hrun & Hlen & Hall)
    end.
    + split; [reflexivity |]. intros; lia.
    + intros i angles Hi [Hlen Hall].
      destruct (index_lt pts (i - 1) ltac:(fold n; lia)) as ([[x1 y1] th1] & Hi1 & Hn1).
      destruct (index_lt pts (Nat.min (i + 1) (n - 1)) ltac:(fold n; lia))
        as ([[x2 y2] th2] & Hi2 & Hn2).
      assert (
        (if (i =? 0)%nat then
           p1 <- index pts i ;; p2 <- index pts (i + 1) ;; Returns (p1, p2)
         else if (i =? n - 1)%nat then
           p1 <- index pts (i - 1) ;; p2 <- index pts i ;; Returns (p1, p2)
         else
           p1 <- index pts (i - 1) ;; p2 <- index pts (i + 1) ;; Returns (p1, p2))
        = Returns ((x1, y1, th1), (x2, y2, th2))) as Hp.
      { destruct (Nat.eqb_spec i 0) as [-> |];
          [| destruct (Nat.eqb_spec i (n - 1)) as [-> |]].
        - simpl in Hi1. replace (Nat.min (0 + 1) (n - 1)) with (0 + 1)%nat in Hi2 by lia.
          now rewrite Hi1, Hi2.
        - replace (Nat.min (n - 1 + 1) (n - 1)) with (n - 1)%nat in Hi2 by lia.
          now rewrite Hi1, Hi2.
        - replace (Nat.min (i + 1) (n - 1)) with (i + 1)%nat in Hi2 by lia.
          now rewrite Hi1, Hi2. }
      rewrite Hp. cbn [bind]. eexists. split; [reflexivity |]. split.
      * rewrite length_app. simpl. lia.
      * intros k a1 b1 c1 a2 b2 c2 Hk Hk1 Hk2.
        destruct (Nat.eq_dec k i) as [-> | Hne].
        -- rewrite nth_error_app2 by lia. rewrite Hlen, Nat.sub_diag. simpl.
           rewrite Hn1 in Hk1. rewrite Hn2 in Hk2.
           injection Hk1 as <- <- <-. injection Hk2 as <- <- <-. reflexivity.
        -- rewrite nth_error_app1 by lia. apply (Hall k a1 b1 c1 a2 b2 c2); [lia | |];
             assumption.
    + exists angles. split; [exact Hrun |]. split; [exact Hlen |].
      intros i x1 y1 th1 x2 y2 th2 Hi. apply Hall. exact Hi.
Qed.

End TangentRule.

Lemma compute_tangent_angles_rule_witness :
  exists angles,
    @compute_tangent_angles rational_libm [(0, 0, 0.02); (1, 0, 1.6); (1, 2, 2.4)]
      = Returns angles
    /\ length angles = 3%nat.
Proof.
  destruct (@compute_tangent_angles_rule rational_libm
              [(0, 0, 0.02); (1, 0, 1.6); (1, 2, 2.4)]) as (_ & _ & H).
  destruct (H ltac:(simpl; lia)) as (angles & Hrun & Hlen & _).
  exists angles. split; assumption.
Defined.

(** ** The reveal curve, further *)

(** X5.  When the slowdown has no duration the time window collapses and
    the characters are revealed at a uniform rate over the whole
    animation. *)
Theorem reveal_fallback_linear (t : Q) (N : Z) (a : Q) (w : Z) (sd : Q)
    (HN : (2 <= N)%Z) (Hsd : sd <= 0) :
  let C := chars_revealed_at_time_with t N a w sd in
  (t <= 0 -> C == 0)
  /\ (0 <= t <= DURATION_S -> C == Py.float N * t / DURATION_S)
  /\ (DURATION_S <= t -> C == Py.float N).
Proof.
  intros C. unfold C. clear C. unfold chars_revealed_at_time_with.
  destruct (Z.leb_spec N 0); [lia |].
  destruct (Z.eqb_spec N 1); [lia |]. cbv zeta.
  pose proof (clamp_bounds 0 1 a ltac:(lra)) as HA.
  set (A := Py.max 0 (Py.min 1 a)) in *. clearbody A.
  assert (Py.leb (Py.min DURATION_S (A * DURATION_S + sd / 2))
                 (Py.max 0 (A * DURATION_S - sd / 2)) = true) as ->.
  { destruct (leb_spec (Py.min DURATION_S (A * DURATION_S + sd / 2))
                       (Py.max 0 (A * DURATION_S - sd / 2))) as [| Hlt];
      [reflexivity | exfalso].
    revert Hlt. unfold DURATION_S. py_cases; intros; qlra. }
  unfold DURATION_S. set (nf := Py.float N). clearbody nf.
  repeat split; intros Ht; py_cases; try qlra; inv_consts;
    first [ assert (t == 0) as -> by lra | assert (t == 5) as -> by lra ]; lra.
Qed.

Lemma reveal_fallback_linear_witness :
  chars_revealed_at_time_with 2 10 0.5 150 0 == 4.
Proof.
  destruct (reveal_fallback_linear 2 10 0.5 150 0 ltac:(lia) ltac:(lra))
    as (_ & Hmid & _).
  rewrite Hmid by (unfold DURATION_S; lra). vm_compute. reflexivity.
Defined.



(** ** The visible count along a run *)

Lemma int_mono (x y : Q) : 0 <= x -> x <= y -> (Py.int x <= Py.int y)%Z.
Proof.
  intros Hx Hxy. rewrite !int_floor by lra. now apply Qfloor_resp_le.
Qed.

Lemma int_integer (x : Q) (n : Z) : (0 <= n)%Z -> x == Py.float n -> Py.int x = n.
Proof.
  intros Hn Hx. rewrite int_floor.
  - rewrite (Qfloor_comp _ _ Hx). apply Qfloor_Z.
  - rewrite Hx. change 0 with (Py.float 0). now apply float_le.
Qed.

Lemma frame_time_mono (k k' : nat) :
  (k <= k')%nat ->
  Py.float (Z.of_nat k) / Py.float FPS <= Py.float (Z.of_nat k') / Py.float FPS.
Proof.
  intros H. unfold Qdiv. apply Qmult_le_compat_r.
  - apply float_le. lia.
  - vm_compute. discriminate.
Qed.



Section VisibleAlongRun.

Context {M : Libm} {L : LibmLaws M}.

(** Frame [k] of a run is the composed frame of time [k / FPS], and
    there are [NUM_FRAMES] of them. *)
Lemma run_frame (fuel : nat) (text : string) (pct : Q) (g : gif)
    (k : nat) (fr : frame) :
  create_spiral_gif fuel text pct = Returns (Some g) ->
  nth_error (g_frames g) k = Some fr ->
  (Z.of_nat k < NUM_FRAMES)%Z
  /\ f_visible fr
     = max_char_index_of (Z.of_nat (length (chars_of text)))
         (chars_revealed_at_time (Py.float (Z.of_nat k) / Py.float FPS)
            (Z.of_nat (length (chars_of text))) (anomaly_frac_of pct)).
Proof.
  intros Hrun Hk. apply create_spiral_gif_stages in Hrun.
  destruct Hrun as (positions & angles & deltas & _ & _ & _ & _ & Hloop & _).
  apply frame_loop_spec in Hloop. destruct Hloop as [Hn Hall].
  split.
  - rewrite <- Hn. apply nth_error_Some_lt in Hk. lia.
  - apply Hall in Hk. apply compose_frame_spec in Hk. tauto.
Qed.

(** A run that saves an animation has at least two characters. *)
Lemma run_two_chars (fuel : nat) (text : string) (pct : Q) (g : gif) :
  create_spiral_gif fuel text pct = Returns (Some g) ->
  (2 <= Z.of_nat (length (chars_of text)))%Z.
Proof.
  intros Hrun. apply create_spiral_gif_stages in Hrun.
  destruct Hrun as (positions & angles & deltas & HN & Hpos & Hang & _).
  apply generate_spiral_positions_spec in Hpos. destruct Hpos as [Hlen _].
  destruct (Z.eq_dec (Z.of_nat (length (chars_of text))) 1) as [H1 |]; [| lia].
  exfalso. destruct positions as [| p [| q positions]]; simpl in Hlen; try lia.
  rewrite compute_tangent_angles_single in Hang. discriminate.
Qed.

Lemma run_visible_mono (fuel : nat) (text : string) (pct : Q) (g : gif)
    (k k' : nat) (fr fr' : frame) :
  create_spiral_gif fuel text pct = Returns (Some g) ->
  (k <= k')%nat ->
  nth_error (g_frames g) k = Some fr ->
  nth_error (g_frames g) k' = Some fr' ->
  (f_visible fr <= f_visible fr')%Z.
Proof.
  intros Hrun Hkk Hk Hk'.
  pose proof (run_two_chars _ _ _ _ Hrun) as HN.
  destruct (run_frame _ _ _ _ _ _ Hrun Hk) as [_ ->].
  destruct (run_frame _ _ _ _ _ _ Hrun Hk') as [_ ->].
  unfold max_char_index_of.
  set (N := Z.of_nat (length (chars_of text))) in *.
  pose proof (chars_revealed_range (Py.float (Z.of_nat k) / Py.float FPS) N
                (anomaly_frac_of pct) ltac:(lia)) as Hr.
  pose proof (chars_revealed_mono N (anomaly_frac_of pct) _ _
                (frame_time_mono k k' Hkk)) as Hm.
  pose proof (int_mono _ _ (proj1 Hr) Hm). lia.
Qed.

(** X7.  Reveal never un-reveals: along the frames of a run the visible count
    does not decrease. *)
Theorem visible_count_monotone (fuel : nat) (text : string) (pct : Q) (g : gif)
    (Hrun : create_spiral_gif fuel text pct = Returns (Some g)) :
  forall k k' fr fr',
    (k <= k')%nat ->
    nth_error (g_frames g) k = Some fr ->
    nth_error (g_frames g) k' = Some fr' ->
    (f_visible fr <= f_visible fr')%Z.
Proof. intros k k' fr fr'. now apply (run_visible_mono fuel text pct g). Qed.


(** X9.  When the slow window's character range reaches the end of the text
    ([i2 = N]) and the window closes by the time of the last frame, the
    last frame shows the whole text. *)
Theorem last_frame_shows_all (fuel : nat) (text : string) (pct : Q) (g : gif)
    (fr : frame)
    (Hrun : create_spiral_gif fuel text pct = Returns (Some g))
    (Hi2 : reveal_i2 (Z.of_nat (length (chars_of text))) (anomaly_frac_of pct)
           == Py.float (Z.of_nat (length (chars_of text))))
    (Ht2 : reveal_t2 (anomaly_frac_of pct) <= 149 / 30)
    (Hlast : nth_error (g_frames g) 149 = Some fr) :
  f_visible fr = Z.of_nat (length (chars_of text)).
Proof.
  pose proof (run_two_chars _ _ _ _ Hrun) as HN.
  destruct (run_frame _ _ _ _ _ _ Hrun Hlast) as [_ ->].
  set (N := Z.of_nat (length (chars_of text))) in *.
  set (a := anomaly_frac_of pct) in *.
  unfold max_char_index_of. rewrite (int_integer _ N); [lia | lia |].
  rewrite chars_revealed_curve by assumption.
  pose proof (reveal_window a) as Hw. pose proof (reveal_i_bounds N a HN) as Hi.
  pose proof (slow_span N a HN) as Hs.
  pose proof (post_span N a) as Hq. pose proof (post_nonneg N a HN) as Hq0.
  unfold reveal_curve.
  change (Py.float (Z.of_nat 149) / Py.float FPS) with (149 / 30).
  set (slow := slow_slope N a) in *. set (post := post_slope N a) in *.
  set (pre := pre_slope N a) in *.
  set (i1 := reveal_i1 N a) in *. set (i2 := reveal_i2 N a) in *.
  set (t1 := reveal_t1 a) in *. set (t2 := reveal_t2 a) in *.
  set (n := Py.float N) in *.
  clearbody slow pre post i1 i2 t1 t2 n. unfold DURATION_S in *.
  inv_consts.
  py_cases; try lra;
    try (assert (t2 < 5) as Ht2' by lra; specialize (Hq Ht2'));
    nra.
Qed.

End VisibleAlongRun.

(** ** The spiral builder, further *)

Lemma theta_at_mono (k k' : nat) : (k <= k')%nat -> theta_at k <= theta_at k'.
Proof.
  induction 1 as [| m Hle IH]; [lra |].
  cbn [theta_at]. unfold step_theta. lra.
Qed.

Section SpiralAngles.

Context {M : Libm} {L : LibmLaws M}.

Lemma path_length_mono (a b : Q) (k k' : nat) :
  (k <= k')%nat -> path_length a b k <= path_length a b k'.
Proof.
  induction 1 as [| m Hle IH]; [lra |].
  cbn [path_length]. pose proof (chord_nonneg a b m). lra.
Qed.

(** X10.  The angles stored with the points start at one step and never
    decrease along the text, and the first point is the origin. *)
Theorem spiral_angles_ordered (fuel : nat) (num_chars : Z) (pts : list point)
    (Hrun : generate_spiral_positions fuel num_chars = Returns pts) :
  (forall i p, nth_error pts i = Some p -> step_theta <= snd p)
  /\ (forall i j p q, (i <= j)%nat ->
        nth_error pts i = Some p -> nth_error pts j = Some q -> snd p <= snd q)
  /\ (forall p, nth_error pts 0 = Some p -> fst (fst p) == 0 /\ snd (fst p) == 0).
Proof.
  apply generate_spiral_positions_spec in Hrun. destruct Hrun as [_ Hpath].
  split; [| split].
  - intros i p Hp. destruct (Hpath i p Hp) as (k & t & _ & -> & _).
    cbn [snd theta_at]. pose proof (theta_at_nonneg k). lra.
  - intros i j p q Hij Hp Hq.
    destruct (Nat.eq_dec i j) as [-> | Hne]; [replace q with p by congruence; lra |].
    destruct (Hpath i p Hp) as (k & t & Ht & -> & Hs).
    destruct (Hpath j q Hq) as (k' & t' & Ht' & -> & Hs').
    cbn [snd]. apply theta_at_mono.
    destruct (Nat.le_gt_cases k k') as [| Hgt]; [lia | exfalso].
    pose proof (path_length_mono INITIAL_RADIUS default_b (S k') k Hgt) as Hpl.
    cbn [path_length] in Hpl.
    pose proof (chord_nonneg INITIAL_RADIUS default_b k) as Hc.
    pose proof (chord_nonneg INITIAL_RADIUS default_b k') as Hc'.
    rewrite (target_at_eq CHAR_SPACING i) in Hs.
    rewrite (target_at_eq CHAR_SPACING j) in Hs'.
    assert (Py.float (Z.of_nat i) + 1 <= Py.float (Z.of_nat j)) as Hfl.
    { rewrite <- float_succ. apply float_le. lia. }
    unfold CHAR_SPACING in *.
    set (pl := path_length INITIAL_RADIUS default_b k) in *.
    set (pl' := path_length INITIAL_RADIUS default_b k') in *.
    set (c := chord INITIAL_RADIUS default_b k) in *.
    set (c' := chord INITIAL_RADIUS default_b k') in *.
    set (fi := Py.float (Z.of_nat i)) in *. set (fj := Py.float (Z.of_nat j)) in *.
    clearbody pl pl' c c' fi fj. nra.
  - intros p Hp. apply on_path_origin. exact (Hpath 0%nat p Hp).
Qed.

End SpiralAngles.

Lemma spiral_angles_ordered_witness :
  exists pts,
    @generate_spiral_positions rational_libm 601 3 = Returns pts
    /\ forall i p, nth_error pts i = Some p -> step_theta <= snd p.
Proof.
  destruct (@generate_spiral_positions_returns rational_libm rational_libm_laws 3)
    as (pts & Hrun & _).
  specialize (Hrun 601%nat ltac:(simpl; lia)).
  exists pts. split; [exact Hrun |].
  apply (@spiral_angles_ordered rational_libm rational_libm_laws 601 3 pts Hrun).
Defined.

(** ** The bulge, further *)

Lemma enforce_sorted_id (l : list Q) (m : Q) :
  Forall (fun d => m <= d) l -> StronglySorted Qle l ->
  Forall2 Qeq (enforce_monotonic l m []) l.
Proof.
  revert m. induction l as [| d l IH]; intros m Hm Hs; [constructor |].
  rewrite enforce_cons. inversion Hm as [| ? ? Hd Hm']; subst.
  inversion Hs as [| ? ? Hs' Hdl]; subst.
  assert ((if Py.gtb d m then d else m) == d) as Heq by (py_cases; lra).
  constructor; [exact Heq |].
  apply IH; [| exact Hs'].
  eapply Forall_impl; [| exact Hdl]. intros x Hx. simpl in Hx. rewrite Heq. exact Hx.
Qed.

Lemma map_seq_sorted (f : nat -> Q) (k n : nat) :
  (forall i j, (i <= j)%nat -> f i <= f j) ->
  StronglySorted Qle (map f (seq k n)).
Proof.
  intros Hf. revert k. induction n as [| n IH]; intros k; [constructor |].
  simpl. constructor; [apply IH |].
  apply Forall_forall. intros x Hx. apply in_map_iff in Hx.
  destruct Hx as (j & <- & Hj). apply in_seq in Hj. apply Hf. lia.
Qed.

Section BulgeRamp.

Context {M : Libm} {L : LibmLaws M}.
Hypothesis exp_mono : forall x y, x <= y -> exp x <= exp y.

Lemma raw_delta_nonneg (N : Z) (a : Q) (i : nat) : 0 <= raw_delta N a i.
Proof.
  unfold raw_delta, BULGE_AMP. fold (t_char N i).
  destruct (leb_spec (t_char N i) a) as [| Hlt]; [lra |].
  change (Py.max 1e-9 BULGE_SIGMA) with 0.04.
  match goal with |- context [exp ?x] =>
    assert (x <= 0) as Hx;
      [| destruct (Qlt_le_dec x 0) as [Hneg | Hzero];
         [pose proof (exp_below_one x Hneg) |
          pose proof (exp_mono 0 x Hzero); pose proof (exp_mono x 0 Hx)];
         set (e := exp x) in * ]
  end.
  - set (d := (t_char N i - a) / 0.04).
    pose proof (Qsquare_nonneg d). lra.
  - clearbody e. lra.
  - (* the argument is zero only if the character sits on the anomaly *)
    exfalso.
    assert (0 < (t_char N i - a) / 0.04) as Hd by (apply Qlt_shift_div_l; lra).
    set (d := (t_char N i - a) / 0.04) in *. clearbody d. nra.
Qed.

Lemma raw_delta_mono (N : Z) (a : Q) (i j : nat) :
  (2 <= N)%Z -> (i <= j)%nat -> raw_delta N a i <= raw_delta N a j.
Proof.
  intros HN Hij. pose proof (t_char_mono N i j HN Hij) as Ht.
  pose proof (raw_delta_nonneg N a j) as Hj.
  unfold raw_delta in *. fold (t_char N i) in *. fold (t_char N j) in *.
  destruct (leb_spec (t_char N i) a) as [| Hi]; [exact Hj |].
  destruct (leb_spec (t_char N j) a) as [| Hj']; [lra |].
  change (Py.max 1e-9 BULGE_SIGMA) with 0.04. unfold BULGE_AMP.
  assert (0 < (t_char N i - a) / 0.04) as Hdi by (apply Qlt_shift_div_l; lra).
  assert ((t_char N i - a) / 0.04 <= (t_char N j - a) / 0.04) as Hdd.
  { unfold Qdiv. apply Qmult_le_compat_r; [lra | vm_compute; discriminate]. }
  set (di := (t_char N i - a) / 0.04) in *. set (dj := (t_char N j - a) / 0.04) in *.
  clearbody di dj.
  assert (- 0.5 * dj * dj <= - 0.5 * di * di) as Harg by nra.
  apply exp_mono in Harg.
  set (ei := exp (- 0.5 * di * di)) in *. set (ej := exp (- 0.5 * dj * dj)) in *.
  clearbody ei ej. lra.
Qed.

(** X11.  With an increasing [exp] the raw deltas already increase with the
    index, and the running maximum leaves every one of them as it is. *)
Theorem bulge_running_max_is_identity (N : Z) (a : Q) (HN : (2 <= N)%Z) :
  exists deltas,
    compute_bulge_deltas N a = Returns deltas
    /\ Forall2 Qeq deltas
         (map (raw_delta N (Py.max 0 (Py.min 1 a))) (seq 0 (Z.to_nat N))).
Proof.
  rewrite compute_bulge_deltas_unfold by assumption.
  eexists. split; [reflexivity |]. unfold reveal_a.
  apply enforce_sorted_id.
  - apply Forall_forall. intros x Hx. apply in_map_iff in Hx.
    destruct Hx as (i & <- & _). apply raw_delta_nonneg.
  - apply map_seq_sorted. intros i j. now apply raw_delta_mono.
Qed.

End BulgeRamp.

Lemma rational_exp_mono (x y : Q) :
  x <= y -> @exp rational_libm x <= @exp rational_libm y.
Proof.
  intros Hxy. simpl.
  destruct (ltb_spec x 0) as [Hx | Hx], (ltb_spec y 0) as [Hy | Hy].
  - assert (1 / (1 - x) * (1 - x) == 1) as Hq by (field; lra).
    assert (1 / (1 - y) * (1 - y) == 1) as Hq' by (field; lra).
    set (q := 1 / (1 - x)) in *. set (q' := 1 / (1 - y)) in *.
    clearbody q q'.
    assert (0 < q) as Hq0 by nra. assert (0 < q') as Hq0' by nra.
    assert (0 <= q * q' * (y - x)) as Hprod.
    { apply Qmult_le_0_compat; [| lra]. apply Qmult_le_0_compat; lra. }
    assert (q' - q == q * q' * (y - x)) as Hdiff.
    { transitivity (q' * (q * (1 - x)) - q * (q' * (1 - y))); [| ring].
      rewrite Hq, Hq'. ring. }
    lra.
  - assert (1 / (1 - x) * (1 - x) == 1) as Hq by (field; lra).
    set (q := 1 / (1 - x)) in *. clearbody q. nra.
  - exfalso. lra.
  - lra.
Qed.

Lemma bulge_running_max_is_identity_witness :
  exists deltas,
    @compute_bulge_deltas rational_libm 5 0.5 = Returns deltas
    /\ Forall2 Qeq deltas
         (map (@raw_delta rational_libm 5 (Py.max 0 (Py.min 1 0.5))) (seq 0 5)).
Proof.
  apply (@bulge_running_max_is_identity rational_libm rational_libm_laws
           rational_exp_mono 5 0.5). lia.
Defined.

(** ** The zoom, further *)

Lemma fold_max_upper (l : list Q) (x y : Q) :
  In y (x :: l) -> y <= fold_left Py.max l x.
Proof.
  revert x. induction l as [| z l IH]; intros x Hin.
  - destruct Hin as [-> | []]. simpl. lra.
  - simpl. destruct Hin as [-> | [-> | Hin]].
    + pose proof (fold_max_lower l (Py.max y z)) as H. revert H. py_cases; lra.
    + pose proof (fold_max_lower l (Py.max x y)) as H. revert H. py_cases; lra.
    + apply IH. now right.
Qed.

Lemma fold_max_attained (l : list Q) (x : Q) : In (fold_left Py.max l x) (x :: l).
Proof.
  revert x. induction l as [| z l IH]; intros x; [now left |].
  simpl. destruct (IH (Py.max x z)) as [H | H].
  - rewrite <- H. unfold Py.max. destruct (Py.ltb x z); [right; now left | now left].
  - right. now right.
Qed.

(** What the zoom computation returns: the canvas radius divided by the
    largest adjusted radius among the visible characters. *)
Lemma frame_scale_spec (base_radii bulge_deltas : list Q)
    (max_char_index max_r_canvas : Z) (scale : Q) :
  (1 <= max_char_index)%Z ->
  frame_scale base_radii bulge_deltas max_char_index max_r_canvas = Returns scale ->
  exists current_max_r,
    scale = (if negb (Py.eqb current_max_r 0)
             then Py.float max_r_canvas / current_max_r else 1)
    /\ (forall i, (i < Z.to_nat max_char_index)%nat ->
          exists x, adjusted_radius base_radii bulge_deltas i = Some x
                    /\ x <= current_max_r)
    /\ (exists i, (i < Z.to_nat max_char_index)%nat
                  /\ adjusted_radius base_radii bulge_deltas i = Some current_max_r).
Proof.
  intros Hv Hrun. unfold frame_scale, range in Hrun.
  apply bind_Returns in Hrun. destruct Hrun as (vis & Hloop & Hrun).
  apply bind_Returns in Hrun. destruct Hrun as (cur & Hcur & Hrun).
  injection Hrun as <-.
  apply (for_each_seq_partial
           (fun i (v : list Q) =>
              length v = i
              /\ forall k, (k < i)%nat ->
                   exists x, adjusted_radius base_radii bulge_deltas k = Some x
                             /\ nth_error v k = Some x)) in Hloop.
  - destruct Hloop as [Hlen Hall]. simpl in Hlen, Hall.
    destruct vis as [| x0 l]; [simpl in Hlen; lia |].
    simpl in Hcur. injection Hcur as <-.
    exists (fold_left Py.max l x0). split; [reflexivity |]. split.
    + intros i Hi. destruct (Hall i Hi) as (x & Hx & Hn).
      exists x. split; [exact Hx |].
      apply fold_max_upper. eapply nth_error_In. exact Hn.
    + pose proof (fold_max_attained l x0) as Hin.
      apply In_nth_error in Hin. destruct Hin as (i & Hi).
      assert (i < Z.to_nat max_char_index)%nat as Hlt.
      { apply nth_error_Some_lt in Hi. lia. }
      exists i. split; [exact Hlt |].
      destruct (Hall i Hlt) as (x & Hx & Hn). congruence.
  - split; [reflexivity |]. intros; lia.
  - clear. intros i v v' _ [Hlen Hall] Hbody.
    apply bind_Returns in Hbody. destruct Hbody as (r & Hr & Hbody).
    apply bind_Returns in Hbody. destruct Hbody as (delta & Hdelta & Hbody).
    injection Hbody as <-. apply index_Returns in Hr, Hdelta. split.
    + rewrite length_app. simpl. lia.
    + intros k Hk. destruct (Nat.eq_dec k i) as [-> | Hne].
      * eexists. unfold adjusted_radius. rewrite Hr, Hdelta.
        split; [reflexivity |].
        rewrite nth_error_app2 by lia. now rewrite Hlen, Nat.sub_diag.
      * destruct (Hall k ltac:(lia)) as (x & Hx & Hn). exists x.
        split; [exact Hx |]. rewrite nth_error_app1 by lia. exact Hn.
Qed.

Lemma adjusted_radius_positive (base_radii bulge_deltas : list Q) (i : nat) (x : Q) :
  Forall (fun r => 0 <= r) base_radii ->
  Forall (fun d => 0 <= d) bulge_deltas ->
  adjusted_radius base_radii bulge_deltas i = Some x -> 0 < x.
Proof.
  intros Hb Hd. unfold adjusted_radius.
  destruct (nth_error base_radii i) as [r |] eqn:Er; [| discriminate].
  destruct (nth_error bulge_deltas i) as [d |] eqn:Ed; [| discriminate].
  intros [= <-]. apply nth_error_In in Er, Ed.
  rewrite Forall_forall in Hb, Hd. specialize (Hb r Er). specialize (Hd d Ed).
  pose proof (or_else_positive r Hb) as Hr.
  set (r0 := Py.or_else r 1e-6) in *. clearbody r0. nra.
Qed.

Lemma compose_frame_zoom (chars : list ascii) (positions : list point)
    (base_radii bulge_deltas tangent_angles : list Q)
    (num_chars : Z) (anomaly_frac : Q) (frame_idx : nat) (fr : frame) :
  compose_frame chars positions base_radii bulge_deltas tangent_angles
    num_chars anomaly_frac frame_idx = Returns fr ->
  frame_scale base_radii bulge_deltas (f_visible fr) (CANVAS_SIZE / 2 - MARGIN)
  = Returns (f_scale fr).
Proof.
  unfold compose_frame. intros Hrun.
  apply bind_Returns in Hrun. destruct Hrun as (scale & Hscale & Hrun).
  apply bind_Returns in Hrun. destruct Hrun as (draws & _ & Hrun).
  injection Hrun as <-. exact Hscale.
Qed.

Lemma int_bounds (x : Q) (B : Z) :
  (0 <= B)%Z -> - Py.float B <= x <= Py.float B -> (- B <= Py.int x <= B)%Z.
Proof.
  intros HB [Hlo Hhi].
  assert (forall y, 0 <= y <= Py.float B -> (0 <= Py.int y <= B)%Z) as Hpos.
  { intros y [Hy0 HyB]. rewrite int_floor by assumption. split.
    - rewrite <- (Qfloor_Z 0). now apply Qfloor_resp_le.
    - rewrite <- (Qfloor_Z B). now apply Qfloor_resp_le. }
  destruct (Qlt_le_dec x 0) as [Hneg | Hnn].
  - specialize (Hpos (- x) ltac:(lra)).
    unfold Py.int in *. destruct x as [n d]. simpl in *.
    rewrite Z.quot_opp_l in Hpos by lia. lia.
  - specialize (Hpos x ltac:(lra)). lia.
Qed.

(** ** The zoom along a run *)

Section ZoomAlongRun.

Context {M : Libm} {L : LibmLaws M}.

(** The zoom of every frame of a run, over the run's spiral points and
    bulge deltas. *)
Lemma run_zoom (fuel : nat) (text : string) (pct : Q) (g : gif) :
  create_spiral_gif fuel text pct = Returns (Some g) ->
  exists positions bulge_deltas,
    Forall (fun d => 0 <= d) bulge_deltas
    /\ forall fr, In fr (g_frames g) ->
         let base_radii := map (fun '(x, y, _) => hypot x y) positions in
         let v := Z.to_nat (f_visible fr) in
         Forall (placed_at positions bulge_deltas (CANVAS_SIZE / 2) (f_scale fr))
           (f_draws fr)
         /\ Forall (fun d => (d_index d < v)%nat) (f_draws fr)
         /\ exists current_max_r,
              0 < current_max_r
              /\ f_scale fr = Py.float (CANVAS_SIZE / 2 - MARGIN) / current_max_r
              /\ (forall i, (i < v)%nat ->
                    exists x, adjusted_radius base_radii bulge_deltas i = Some x
                              /\ x <= current_max_r)
              /\ (exists i, (i < v)%nat
                            /\ adjusted_radius base_radii bulge_deltas i
                               = Some current_max_r).
Proof.
  intros Hrun. apply create_spiral_gif_frames in Hrun.
  destruct Hrun as (positions & angles & deltas & _ & _ & Hdel & _ & Hfr).
  exists positions, deltas. split; [exact Hdel |].
  intros fr Hin base_radii v. destruct (Hfr fr Hin) as (k & _ & Hk).
  pose proof (compose_frame_zoom _ _ _ _ _ _ _ _ _ Hk) as Hzoom.
  apply compose_frame_spec in Hk. destruct Hk as (Hv & Hmap & Hplaced & _).
  assert (1 <= f_visible fr)%Z as Hv1 by (rewrite Hv; unfold max_char_index_of; lia).
  split; [exact Hplaced |]. split.
  - apply Forall_forall. intros d Hd.
    assert (In (glyph_of d) (map glyph_of (f_draws fr))) as Hg by now apply in_map.
    rewrite Hmap in Hg. unfold expected_glyphs in Hg.
    apply filter_In in Hg. destruct Hg as [Hg _].
    apply in_combine_l in Hg. apply in_seq in Hg. simpl in Hg. unfold v. lia.
  - apply frame_scale_spec in Hzoom; [| exact Hv1].
    destruct Hzoom as (cur & Hscale & Hupper & (i & Hi & Hatt)).
    assert (0 < cur) as Hpos.
    { apply (adjusted_radius_positive base_radii deltas i);
        [apply base_radii_nonneg | exact Hdel | exact Hatt]. }
    exists cur. split; [exact Hpos |]. split; [| split].
    + rewrite Hscale. destruct (eqb_spec cur 0); [lra | reflexivity].
    + exact Hupper.
    + exists i. now split.
Qed.

(** X12.  The centre of every glyph of every frame lies inside the
    margins of the canvas. *)
Theorem glyphs_within_margins (fuel : nat) (text : string) (pct : Q) (g : gif)
    (Hrun : create_spiral_gif fuel text pct = Returns (Some g)) :
  forall fr d, In fr (g_frames g) -> In d (f_draws fr) ->
    (MARGIN <= d_sx d <= CANVAS_SIZE - MARGIN)%Z
    /\ (MARGIN <= d_sy d <= CANVAS_SIZE - MARGIN)%Z.
Proof.
  intros fr d Hfr Hd.
  destruct (run_zoom _ _ _ _ Hrun) as (positions & deltas & Hdel & Hall).
  destruct (Hall fr Hfr) as (Hplaced & Hidx & cur & Hpos & Hscale & Hupper & _).
  rewrite Forall_forall in Hplaced, Hidx.
  destruct (Hplaced d Hd) as (x0 & y0 & th & delta & Hp & Hdl & Hsx & Hsy).
  destruct (Hupper (d_index d) (Hidx d Hd)) as (x & Hx & Hle).
  unfold adjusted_radius in Hx.
  rewrite (map_nth_error (fun '(x, y, _) => hypot x y) _ _ Hp), Hdl in Hx.
  injection Hx as <-.
  pose proof (hypot_dominates_fst x0 y0) as Hh1.
  pose proof (hypot_dominates_snd x0 y0) as Hh2.
  pose proof (hypot_nonneg x0 y0) as Hh0.
  assert (hypot x0 y0 <= Py.or_else (hypot x0 y0) 1e-6) as Hr0.
  { change 1e-6 with 0.000001. py_cases; lra. }
  assert (0 <= delta) as Hd0.
  { rewrite Forall_forall in Hdel. apply Hdel. eapply nth_error_In. exact Hdl. }
  change (CANVAS_SIZE / 2 - MARGIN)%Z with 360%Z in Hscale.
  change (CANVAS_SIZE / 2)%Z with 400%Z in Hsx, Hsy.
  assert (Py.float 360 / cur * cur == Py.float 360) as Hq
    by (rewrite Qmult_comm; apply Qmult_div_r; lra).
  assert (0 < Py.float 360 / cur) as Hq0.
  { apply Qlt_shift_div_l; [exact Hpos |]. vm_compute. reflexivity. }
  rewrite <- Hscale in Hq, Hq0.
  set (h := hypot x0 y0) in *. set (r0 := Py.or_else h 1e-6) in *.
  set (q := f_scale fr) in *. clearbody h r0 q.
  assert (- h <= x0 <= h) as Hx0
    by (destruct (Qabs_cases x0) as [[? Hex] | [? Hex]]; rewrite Hex in Hh1; lra).
  assert (- h <= y0 <= h) as Hy0
    by (destruct (Qabs_cases y0) as [[? Hey] | [? Hey]]; rewrite Hey in Hh2; lra).
  clear Hh1 Hh2.
  assert (0 <= (cur - r0 * (1 + delta)) * q) as H1
    by (apply Qmult_le_0_compat; lra).
  assert (0 <= (r0 - h) * (1 + delta) * q) as H2
    by (apply Qmult_le_0_compat; [apply Qmult_le_0_compat |]; lra).
  assert (0 <= (h - x0) * (1 + delta) * q) as H3
    by (apply Qmult_le_0_compat; [apply Qmult_le_0_compat |]; lra).
  assert (0 <= (h + x0) * (1 + delta) * q) as H4
    by (apply Qmult_le_0_compat; [apply Qmult_le_0_compat |]; lra).
  assert (0 <= (h - y0) * (1 + delta) * q) as H5
    by (apply Qmult_le_0_compat; [apply Qmult_le_0_compat |]; lra).
  assert (0 <= (h + y0) * (1 + delta) * q) as H6
    by (apply Qmult_le_0_compat; [apply Qmult_le_0_compat |]; lra).
  change (Py.float 360) with 360 in Hq.
  assert (- Py.float 360 <= x0 * (1 + delta) * q <= Py.float 360) as Hbx
    by (change (Py.float 360) with 360; split; lra).
  assert (- Py.float 360 <= y0 * (1 + delta) * q <= Py.float 360) as Hby
    by (change (Py.float 360) with 360; split; lra).
  apply (int_bounds _ 360 ltac:(lia)) in Hbx, Hby.
  change MARGIN with 40%Z. change CANVAS_SIZE with 800%Z. lia.
Qed.

(** X13.  The view only ever zooms out: along the frames of a run the scale
    does not increase. *)
Theorem zoom_never_zooms_in (fuel : nat) (text : string) (pct : Q) (g : gif)
    (Hrun : create_spiral_gif fuel text pct = Returns (Some g)) :
  forall k k' fr fr',
    (k <= k')%nat ->
    nth_error (g_frames g) k = Some fr ->
    nth_error (g_frames g) k' = Some fr' ->
    f_scale fr' <= f_scale fr.
Proof.
  intros k k' fr fr' Hkk Hk Hk'.
  pose proof (run_visible_mono _ _ _ _ _ _ _ _ Hrun Hkk Hk Hk') as Hvis.
  destruct (run_zoom _ _ _ _ Hrun) as (positions & deltas & _ & Hall).
  destruct (Hall fr (nth_error_In _ _ Hk))
    as (_ & _ & cur & Hpos & Hscale & _ & (i & Hi & Hatt)).
  destruct (Hall fr' (nth_error_In _ _ Hk'))
    as (_ & _ & cur' & Hpos' & Hscale' & Hupper' & _).
  destruct (Hupper' i ltac:(lia)) as (x & Hx & Hle).
  rewrite Hatt in Hx. injection Hx as <-.
  rewrite Hscale, Hscale'.
  assert (0 < Py.float (CANVAS_SIZE / 2 - MARGIN)) as Hc by (vm_compute; reflexivity).
  set (c := Py.float (CANVAS_SIZE / 2 - MARGIN)) in *. clearbody c.
  assert (c / cur * cur == c) as Hq
    by (rewrite Qmult_comm; apply Qmult_div_r; lra).
  assert (c / cur' * cur' == c) as Hq'
    by (rewrite Qmult_comm; apply Qmult_div_r; lra).
  assert (0 < c / cur') as Hq0 by (apply Qlt_shift_div_l; lra).
  set (q := c / cur) in *. set (q' := c / cur') in *. clearbody q q'. nra.
Qed.

Lemma run_frame_count (fuel : nat) (text : string) (pct : Q) (g : gif) :
  create_spiral_gif fuel text pct = Returns (Some g) ->
  length (g_frames g) = 150%nat.
Proof.
  intros Hrun. apply create_spiral_gif_stages in Hrun.
  destruct Hrun as (positions & angles & deltas & _ & _ & _ & _ & Hloop & _).
  apply frame_loop_spec in Hloop. destruct Hloop as [Hn _].
  change NUM_FRAMES with 150%Z in Hn. lia.
Qed.

End ZoomAlongRun.

Lemma one_word_run :
  exists g, @create_spiral_gif rational_libm 1201 "spiral" 70 = Returns (Some g).
Proof.
  apply (@create_spiral_gif_returns rational_libm rational_libm_laws).
  - vm_compute. lia.
  - vm_compute. lia.
Defined.

Lemma visible_count_monotone_witness :
  exists g,
    @create_spiral_gif rational_libm 601 "A B" 70 = Returns (Some g)
    /\ forall fr, nth_error (g_frames g) 10 = Some fr ->
         (f_visible (g_first g) <= f_visible fr)%Z.
Proof.
  destruct two_words_run as (g & Hrun). exists g. split; [exact Hrun |].
  intros fr Hfr.
  apply (@visible_count_monotone rational_libm rational_libm_laws 601 "A B" 70 g
           Hrun 0%nat 10%nat (g_first g) fr); [lia | reflexivity | exact Hfr].
Defined.


Lemma last_frame_shows_all_witness :
  exists g fr,
    @create_spiral_gif rational_libm 1201 "spiral" 70 = Returns (Some g)
    /\ nth_error (g_frames g) 149 = Some fr
    /\ f_visible fr = 6%Z.
Proof.
  destruct one_word_run as (g & Hrun).
  pose proof (@run_frame_count rational_libm 1201 "spiral" 70 g Hrun) as Hn.
  destruct (nth_error (g_frames g) 149) as [fr |] eqn:Hfr.
  - exists g, fr. split; [exact Hrun |]. split; [exact Hfr |].
    apply (@last_frame_shows_all rational_libm rational_libm_laws
             1201 "spiral" 70 g fr Hrun).
    + vm_compute. reflexivity.
    + vm_compute. discriminate.
    + exact Hfr.
  - apply nth_error_None in Hfr. lia.
Defined.

Lemma glyphs_within_margins_witness :
  exists g,
    @create_spiral_gif rational_libm 601 "A B" 70 = Returns (Some g)
    /\ Forall (fun d => (40 <= d_sx d <= 760)%Z) (f_draws (g_first g)).
Proof.
  destruct two_words_run as (g & Hrun). exists g. split; [exact Hrun |].
  apply Forall_forall. intros d Hd.
  apply (@glyphs_within_margins rational_libm rational_libm_laws 601 "A B" 70 g Hrun
           (g_first g) d (or_introl eq_refl) Hd).
Defined.

Lemma zoom_never_zooms_in_witness :
  exists g,
    @create_spiral_gif rational_libm 601 "A B" 70 = Returns (Some g)
    /\ forall fr, nth_error (g_frames g) 10 = Some fr ->
         f_scale fr <= f_scale (g_first g).
Proof.
  destruct two_words_run as (g & Hrun). exists g. split; [exact Hrun |].
  intros fr Hfr.
  apply (@zoom_never_zooms_in rational_libm rational_libm_laws 601 "A B" 70 g
           Hrun 0%nat 10%nat (g_first g) fr); [lia | reflexivity | exact Hfr].
Defined.

(** ** The look of the glyphs *)

Lemma frame_draws_styled (chars : list ascii) (positions : list point)
    (base_radii bulge_deltas tangent_angles : list Q)
    (num_chars : Z) (anomaly_frac : Q)
    (max_char_index canvas_center : Z) (scale : Q) (draws : list draw) :
  frame_draws chars positions base_radii bulge_deltas tangent_angles
    num_chars anomaly_frac max_char_index canvas_center scale = Returns draws ->
  Forall (styled_by chars tangent_angles num_chars anomaly_frac) draws.
Proof.
  unfold frame_draws, range. intros Hrun.
  apply (for_each_seq_partial
           (fun _ ds => Forall (styled_by chars tangent_angles
                                  num_chars anomaly_frac) ds))
    in Hrun; [exact Hrun | constructor |].
  clear Hrun draws. intros i ds ds' _ Hall Hbody.
  apply bind_Returns in Hbody. destruct Hbody as (ch & Hch & Hbody).
  apply index_Returns in Hch.
  destruct (Ascii.eqb ch SPACE).
  - now injection Hbody as <-.
  - apply bind_Returns in Hbody. destruct Hbody as ([[x0 y0] th] & _ & Hbody).
    apply bind_Returns in Hbody. destruct Hbody as (r & _ & Hbody).
    apply bind_Returns in Hbody. destruct Hbody as (delta & _ & Hbody).
    apply bind_Returns in Hbody. destruct Hbody as (angle & Hang & Hbody).
    apply index_Returns in Hang. injection Hbody as <-.
    apply Forall_app. split; [exact Hall |]. constructor; [| constructor].
    unfold styled_by, color_at, t_char. simpl. now repeat split.
Qed.

Lemma compose_frame_styled (chars : list ascii) (positions : list point)
    (base_radii bulge_deltas tangent_angles : list Q)
    (num_chars : Z) (anomaly_frac : Q) (frame_idx : nat) (fr : frame) :
  compose_frame chars positions base_radii bulge_deltas tangent_angles
    num_chars anomaly_frac frame_idx = Returns fr ->
  Forall (styled_by chars tangent_angles num_chars anomaly_frac) (f_draws fr).
Proof.
  unfold compose_frame. intros Hrun.
  apply bind_Returns in Hrun. destruct Hrun as (scale & _ & Hrun).
  apply bind_Returns in Hrun. destruct Hrun as (draws & Hdraws & Hrun).
  injection Hrun as <-. simpl. now apply frame_draws_styled in Hdraws.
Qed.

Section GlyphStyle.

Context {M : Libm} {L : LibmLaws M}.

(** The glyphs of all frames of a run are styled from the same
    characters and the same tangent angles. *)
Lemma run_styled (fuel : nat) (text : string) (pct : Q) (g : gif) :
  create_spiral_gif fuel text pct = Returns (Some g) ->
  exists tangent_angles,
    forall fr d, In fr (g_frames g) -> In d (f_draws fr) ->
      styled_by (chars_of text) tangent_angles
        (Z.of_nat (length (chars_of text))) (anomaly_frac_of pct) d.
Proof.
  intros Hrun. apply create_spiral_gif_frames in Hrun.
  destruct Hrun as (positions & angles & deltas & _ & _ & _ & _ & Hfr).
  exists angles. intros fr d Hin Hd. destruct (Hfr fr Hin) as (k & _ & Hk).
  apply compose_frame_styled in Hk. rewrite Forall_forall in Hk. now apply Hk.
Qed.

(** X14.  A character looks the same in every frame that shows it: glyphs of
    the same index, in whichever frames, show the same character with the
    same rotation and the same colour. *)
Theorem glyph_look_fixed_by_index (fuel : nat) (text : string) (pct : Q) (g : gif)
    (Hrun : create_spiral_gif fuel text pct = Returns (Some g)) :
  forall fr fr' d d',
    In fr (g_frames g) -> In d (f_draws fr) ->
    In fr' (g_frames g) -> In d' (f_draws fr') ->
    d_index d = d_index d' ->
    d_char d = d_char d' /\ d_angle d = d_angle d' /\ d_color d = d_color d'.
Proof.
  intros fr fr' d d' Hfr Hd Hfr' Hd' Hi.
  destruct (run_styled _ _ _ _ Hrun) as (angles & Hall).
  destruct (Hall fr d Hfr Hd) as (Hc & Ha & Hcol).
  destruct (Hall fr' d' Hfr' Hd') as (Hc' & Ha' & Hcol').
  rewrite Hi in Hc, Ha, Hcol. rewrite Hc' in Hc. rewrite Ha' in Ha.
  injection Hc as Hc. injection Ha as Ha. rewrite Hcol, Hcol'. now repeat split.
Qed.

(** X15.  Glyphs are red or black.  Away from the edges of the band by
    more than [band_guard], the red ones are those whose index lies
    within [ANOMALY_COLOR_WIDTH] of the anomaly fraction, as fractions of
    the last index, and all others are black. *)
Theorem anomaly_band_is_red (fuel : nat) (text : string) (pct : Q) (g : gif)
    (Hrun : create_spiral_gif fuel text pct = Returns (Some g)) :
  forall fr d, In fr (g_frames g) -> In d (f_draws fr) ->
    let last := Py.float (Z.of_nat (length (chars_of text)) - 1) in
    let a := anomaly_frac_of pct in
    let i := Py.float (Z.of_nat (d_index d)) in
    (d_color d = ANOMALY_COLOR \/ d_color d = TEXT_COLOR)
    /\ ((a - (ANOMALY_COLOR_WIDTH - band_guard)) * last <= i
        /\ i <= (a + (ANOMALY_COLOR_WIDTH - band_guard)) * last ->
        d_color d = ANOMALY_COLOR)
    /\ (i <= (a - (ANOMALY_COLOR_WIDTH + band_guard)) * last
        \/ (a + (ANOMALY_COLOR_WIDTH + band_guard)) * last <= i ->
        d_color d = TEXT_COLOR).
Proof.
  intros fr d Hfr Hd last a i.
  destruct (run_styled _ _ _ _ Hrun) as (angles & Hall).
  destruct (Hall fr d Hfr Hd) as (_ & _ & Hcol).
  pose proof (run_two_chars _ _ _ _ Hrun) as HN.
  unfold color_at, t_char in Hcol. fold a last i in Hcol.
  destruct (Z.gtb_spec (Z.of_nat (length (chars_of text))) 1) as [_ | ?]; [| lia].
  assert (1 <= last) as Hlast.
  { unfold last, Py.float. change 1 with (inject_Z 1). rewrite <- Zle_Qle. lia. }
  assert (i / last * last == i) as Hq
    by (rewrite Qmult_comm; apply Qmult_div_r; lra).
  change ANOMALY_COLOR_WIDTH with 0.088 in *. unfold band_guard.
  set (tc := i / last) in *. clearbody tc last a i.
  rewrite Hcol. unfold Py.abs.
  py_cases; (split; [tauto |]); (split; [intros [H1 H2] | intros [H1 | H1]]);
    try reflexivity; exfalso; nra.
Qed.

End GlyphStyle.

Lemma glyph_look_fixed_by_index_witness :
  exists g,
    @create_spiral_gif rational_libm 601 "A B" 70 = Returns (Some g)
    /\ forall d d', In d (f_draws (g_first g)) -> In d' (f_draws (g_first g)) ->
         d_index d = d_index d' -> d_color d = d_color d'.
Proof.
  destruct two_words_run as (g & Hrun). exists g. split; [exact Hrun |].
  intros d d' Hd Hd' Hi.
  apply (@glyph_look_fixed_by_index rational_libm rational_libm_laws 601 "A B" 70 g
           Hrun (g_first g) (g_first g) d d'
           (or_introl eq_refl) Hd (or_introl eq_refl) Hd' Hi).
Defined.

Lemma anomaly_band_is_red_witness :
  exists g,
    @create_spiral_gif rational_libm 601 "A B" 100 = Returns (Some g)
    /\ forall fr d, In fr (g_frames g) -> In d (f_draws fr) ->
         (d_index d = 2%nat -> d_color d = ANOMALY_COLOR)
         /\ (d_index d = 0%nat -> d_color d = TEXT_COLOR).
Proof.
  destruct (@create_spiral_gif_returns rational_libm rational_libm_laws 601 "A B" 100)
    as (g & Hrun); [vm_compute; lia | vm_compute; lia |].
  exists g. split; [exact Hrun |]. intros fr d Hfr Hd.
  destruct (@anomaly_band_is_red rational_libm rational_libm_laws 601 "A B" 100 g
              Hrun fr d Hfr Hd) as (_ & Hred & Hblack).
  split; intros Hi; [apply Hred | apply Hblack]; rewrite Hi.
  - vm_compute. split; discriminate.
  - left. vm_compute. discriminate.
Defined.
